(** * Chunked, resumable upload transport of prism-fe

    A shallow embedding of the upload core of the recording front end:
    - [src/utils/resumable-upload.ts]: [uploadChunk], [sliceBlobIntoChunks],
      [calculateStartingChunkIndex];
    - [src/utils/chunked-upload.ts]: [chunkBlob];
    - [src/hooks/useResumableUpload.ts]: the single-stream session hook;
    - [src/hooks/useDualUpload.ts]: the dual-stream session hook;
    - [src/utils/api-config.ts]: [uploadScreenChunk], [uploadWebcamChunk];
    - [src/utils/uploadManager.ts]: the retry loop of [UploadManager].

    Byte counts and chunk indices are JavaScript numbers that hold
    integers below [2^53]; they are modelled as [Z].  Percentages and the
    number a string converts to are doubles; they are modelled by the
    rationals the doubles denote, every operation rounding to the nearest
    double.  Network calls are modelled by oracles that return either a
    value or an error message. *)

From Stdlib Require Import ZArith QArith Lia Bool Ascii String.
From stdpp Require Import base option list gmap strings pretty.

Open Scope Z_scope.

(** ** Blobs *)

(** A [Blob] is a view [offset, offset + size) over the recorded payload. *)
Record Blob := mkBlob { offset : Z; size : Z }.

Definition blobEnd (b : Blob) : Z := offset b + size b.

(** [Blob.prototype.slice(start, end)]: negative positions count from the
    end, positions are clamped to the blob, an empty span has size 0. *)
Definition relativePos (sz pos : Z) : Z :=
  if pos <? 0 then Z.max (sz + pos) 0 else Z.min pos sz.

Definition slice (b : Blob) (start end_ : Z) : Blob :=
  let relativeStart := relativePos (size b) start in
  let relativeEnd := relativePos (size b) end_ in
  mkBlob (offset b + relativeStart) (Z.max (relativeEnd - relativeStart) 0).

(** [Math.ceil(a / b)] on integers, as the exact ceiling of the quotient. *)
Definition Math_ceil_div (a b : Z) : Z := - ((- a) / b).

(** [Math.floor(a / b)] on integers. *)
Definition Math_floor_div (a b : Z) : Z := a / b.

(** ** Chunk slicer ([resumable-upload.ts]) *)

(** The [while (start < blob.size)] loop.  The loop does not terminate when
    [chunkSize <= 0]; [fuel] bounds the number of iterations and [None]
    means the bound was reached. *)
Fixpoint sliceLoop (fuel : nat) (blob : Blob) (chunkSize start : Z)
  : option (list Blob) :=
  match fuel with
  | O => None
  | S fuel' =>
      if start <? size blob then
        let end_ := Z.min (start + chunkSize) (size blob) in
        let chunk := slice blob start end_ in
        cons chunk <$> sliceLoop fuel' blob chunkSize end_
      else Some []
  end.

Definition sliceBlobIntoChunks (fuel : nat) (blob : Blob) (chunkSize : Z)
  : option (list Blob) :=
  sliceLoop fuel blob chunkSize 0.

(** The [k]-th chunk of a payload in closed form, and the summed length of a
    chunk sequence; both are used to state what the slicer returns. *)
Definition nthChunk (b : Blob) (chunkSize k : Z) : Blob :=
  mkBlob (offset b + k * chunkSize) (Z.min chunkSize (size b - k * chunkSize)).

Definition totalLength (chunks : list Blob) : Z :=
  foldr Z.add 0 (size <$> chunks).

(** ** Chunk slicer with metadata ([chunked-upload.ts]) *)

Record ChunkMetadata := mkChunkMetadata {
  chunkIndex : Z;
  totalChunks : Z;
  md_chunkSize : Z;
  totalSize : Z;
  startByte : Z;
  endByte : Z
}.

Record ChunkData := mkChunkData { metadata : ChunkMetadata; blob : Blob }.

Definition DEFAULT_CHUNK_SIZE : Z := 8 * 1024 * 1024.

(** [options.chunkSize || 8 * 1024 * 1024]: a missing or zero size falls
    back to the default. *)
Definition chunkSizeOption (o : option Z) : Z :=
  match o with
  | Some c => if c =? 0 then DEFAULT_CHUNK_SIZE else c
  | None => DEFAULT_CHUNK_SIZE
  end.

Definition chunkBlob (b : Blob) (optChunkSize : option Z) : list ChunkData :=
  let chunkSize := chunkSizeOption optChunkSize in
  let totalSize := size b in
  let totalChunks := Math_ceil_div totalSize chunkSize in
  (fun i =>
     let startByte := i * chunkSize in
     let endByte := Z.min (startByte + chunkSize) totalSize in
     let chunkBlob := slice b startByte endByte in
     mkChunkData
       (mkChunkMetadata i totalChunks (size chunkBlob) totalSize startByte endByte)
       chunkBlob) <$> seqZ 0 totalChunks.

(** ** Resume calculator ([resumable-upload.ts]) *)

Definition calculateStartingChunkIndex (uploadedBytes chunkSize : Z) : Z :=
  if uploadedBytes =? 0 then 0
  else Math_floor_div uploadedBytes chunkSize.

(** ** Binary64

    A JavaScript number is an IEEE 754 double.  [nearestDouble a] is the
    double nearest to the positive rational [a], ties going to the even
    significand; [None] stands for an overflow to [Infinity].  The
    significand has 53 bits, the least exponent of the last place is
    -1074 (subnormal numbers), and a value that rounds to [2^1024] or
    more overflows. *)

Definition pow2 (e : Z) : Q := (2 ^ e)%Q.

(** The integer nearest to [q >= 0], ties to even. *)
Definition roundHalfEven (q : Q) : Z :=
  let n := Qnum q in
  let d := Z.pos (Qden q) in
  let m := n / d in
  match 2 * (n mod d) ?= d with
  | Lt => m
  | Gt => m + 1
  | Eq => if Z.even m then m else m + 1
  end.

(** [floor (log2 a)] for [a > 0]. *)
Definition binade (a : Q) : Z :=
  let e := Z.log2 (Qnum a) - Z.log2 (Z.pos (Qden a)) in
  if Qle_bool (pow2 e) a then e else e - 1.

Definition nearestDouble (a : Q) : option Q :=
  let s := Z.max (binade a - 52) (-1074) in
  let v := (inject_Z (roundHalfEven (a / pow2 s)) * pow2 s)%Q in
  if Qle_bool (pow2 1024) v then None else Some (Qred v).

(** The result of an arithmetic operation whose exact value is [q]; the
    operations of this development stay far below the overflow
    threshold. *)
Definition toDouble (q : Q) : Q :=
  let q := Qred q in
  match Qnum q with
  | 0 => 0%Q
  | Z.pos _ => default q (nearestDouble q)
  | Z.neg _ => (- default (- q) (nearestDouble (Qred (- q))))%Q
  end.

(** ** JavaScript numbers at the [maxRetries] position

    The transports declare [maxRetries: number = 3].  The single-stream hook
    passes its access token, a string, at that position; the loop guard
    [attempt < maxRetries] and the test [attempt === maxRetries - 1] then
    coerce it with [ToNumber].  A number is an integer, another finite
    double, an infinity or [NaN]. *)

Inductive JsNumber :=
| Num (n : Z)
| NaN
| NonInteger (q : Q)
| Infinity (negative : bool).

Inductive JsArg := ArgNumber (n : Z) | ArgString (s : string) | ArgUndefined.

(** *** [StringToNumber]

    The grammar [StringNumericLiteral] of ECMAScript, on strings of code
    units below 256: white space is trimmed at both ends; the empty string
    is 0; [0x], [0o] and [0b] introduce unsigned hexadecimal, octal and
    binary integers; a decimal literal is an optional sign followed by
    [Infinity] or by digits with an optional fraction and an optional
    exponent; everything else is [NaN].  The mathematical value is rounded
    to the nearest double. *)

Definition isWhiteSpace (c : ascii) : bool :=
  let n := Z.of_nat (nat_of_ascii c) in
  ((9 <=? n) && (n <=? 13)) || (n =? 32) || (n =? 160).

Definition digitOf (c : ascii) : option Z :=
  let n := Z.of_nat (nat_of_ascii c) in
  if (48 <=? n) && (n <=? 57) then Some (n - 48)
  else if (97 <=? n) && (n <=? 102) then Some (n - 87)
  else if (65 <=? n) && (n <=? 70) then Some (n - 55)
  else None.

Definition isDecimalDigit (c : ascii) : bool :=
  let n := Z.of_nat (nat_of_ascii c) in (48 <=? n) && (n <=? 57).

Fixpoint digitsValue (base acc : Z) (l : list ascii) : option Z :=
  match l with
  | [] => Some acc
  | c :: l' =>
      match digitOf c with
      | Some d =>
          if d <? base then digitsValue base (base * acc + d) l' else None
      | None => None
      end
  end.

(** One digit or more in [base], and nothing else. *)
Definition numeral (base : Z) (l : list ascii) : option Z :=
  match l with
  | [] => None
  | _ => digitsValue base 0 l
  end.

Fixpoint spanDigits (l : list ascii) : list ascii * list ascii :=
  match l with
  | c :: l' =>
      if isDecimalDigit c
      then let '(digits, rest) := spanDigits l' in (c :: digits, rest)
      else ([], l)
  | [] => ([], [])
  end.

Definition signOf (l : list ascii) : bool * list ascii :=
  match l with
  | "+"%char :: l' => (false, l')
  | "-"%char :: l' => (true, l')
  | _ => (false, l)
  end.

Fixpoint trimLeft (l : list ascii) : list ascii :=
  match l with
  | c :: l' => if isWhiteSpace c then trimLeft l' else l
  | [] => []
  end.

Definition trim (l : list ascii) : list ascii :=
  reverse (trimLeft (reverse (trimLeft l))).

(** [ExponentPart]: [e] or [E] and a signed integer. *)
Definition exponentPart (l : list ascii) : option Z :=
  match l with
  | [] => Some 0
  | c :: l' =>
      if Ascii.eqb c "e" || Ascii.eqb c "E" then
        let '(negative, digits) := signOf l' in
        n ← numeral 10 digits;
        Some (if negative then - n else n)
      else None
  end.

(** [StrUnsignedDecimalLiteral] without [Infinity]: its mathematical
    value. *)
Definition decimalValue (l : list ascii) : option Q :=
  let '(integer, rest) := spanDigits l in
  let '(fraction, rest) :=
    match rest with
    | "."%char :: rest' => spanDigits rest'
    | _ => ([], rest)
    end in
  match integer ++ fraction with
  | [] => None
  | digits =>
      m ← digitsValue 10 0 digits;
      e ← exponentPart rest;
      Some (inject_Z m * 10 ^ (e - Z.of_nat (length fraction)))%Q
  end.

(** The number whose magnitude is the mathematical value [q >= 0]. *)
Definition numberOf (negative : bool) (q : Q) : JsNumber :=
  match Qnum q with
  | Z.pos _ =>
      match nearestDouble (Qred q) with
      | None => Infinity negative
      | Some v =>
          if (Z.pos (Qden v) =? 1)%Z
          then Num (if negative then - Qnum v else Qnum v)
          else NonInteger (if negative then Qred (- v) else v)
      end
  | _ => Num 0
  end.

Definition integerLiteral (base : Z) (digits : list ascii) : JsNumber :=
  match numeral base digits with
  | Some n => numberOf false (inject_Z n)
  | None => NaN
  end.

Definition decimalLiteral (l : list ascii) : JsNumber :=
  let '(negative, body) := signOf l in
  if String.eqb (string_of_list_ascii body) "Infinity" then Infinity negative
  else
    match decimalValue body with
    | Some q => numberOf negative q
    | None => NaN
    end.

Definition StringToNumber (s : string) : JsNumber :=
  match trim (list_ascii_of_string s) with
  | [] => Num 0
  | l =>
      match l with
      | "0"%char :: c :: digits =>
          if Ascii.eqb c "x" || Ascii.eqb c "X" then integerLiteral 16 digits
          else if Ascii.eqb c "o" || Ascii.eqb c "O" then integerLiteral 8 digits
          else if Ascii.eqb c "b" || Ascii.eqb c "B" then integerLiteral 2 digits
          else decimalLiteral l
      | _ => decimalLiteral l
      end
  end.

Definition ToNumber (a : JsArg) : JsNumber :=
  match a with
  | ArgNumber n => Num n
  | ArgString s => StringToNumber s
  | ArgUndefined => NaN
  end.

(** A default parameter value replaces [undefined] only. *)
Definition defaultArg (a : JsArg) (dflt : Z) : JsArg :=
  match a with
  | ArgUndefined => ArgNumber dflt
  | _ => a
  end.

(** [attempt < maxRetries] *)
Definition lessThan (attempt : Z) (maxRetries : JsNumber) : bool :=
  match maxRetries with
  | Num n => attempt <? n
  | NaN => false
  | NonInteger q => negb (Qle_bool q (inject_Z attempt))
  | Infinity negative => negb negative
  end.

(** [attempt === maxRetries - 1]; for a budget that is not an integer the
    difference is no integer either, or it is below 0. *)
Definition isLastAttempt (attempt : Z) (maxRetries : JsNumber) : bool :=
  match maxRetries with
  | Num n => attempt =? n - 1
  | _ => false
  end.

(** ** Outcomes of asynchronous calls *)

(** An awaited call returns a value, throws an [Error] (modelled by its
    message), or never settles. *)
Inductive Outcome (A : Type) :=
| Ok (a : A)
| Throw (message : string)
| Hang.
Arguments Ok {A} a.
Arguments Throw {A} message.
Arguments Hang {A}.

(** ** Chunk transport ([uploadChunk], [uploadScreenChunk],
       [uploadWebcamChunk]) *)

Record ChunkUploadResult := mkResult { uploadedBytes : Z; done : bool }.

Inductive Endpoint := UPLOAD_CHUNK | UPLOAD_SCREEN_CHUNK | UPLOAD_WEBCAM_CHUNK.

(** The arguments of one transport call. *)
Record ChunkCall := mkCall {
  call_endpoint : Endpoint;
  call_recordingId : string;
  call_chunk : option Blob;
  call_chunkIndex : Z;
  call_chunkSize : Z;
  call_totalSize : Z;
  call_accessToken : option string
}.

(** [Content-Range: bytes first-last/total], with an inclusive last byte. *)
Record ContentRange := mkRange { firstByte : Z; lastByte : Z; rangeTotal : Z }.

Definition contentRange (c : ChunkCall) : ContentRange :=
  let start := call_chunkIndex c * call_chunkSize c in
  let end_ := Z.min (start + call_chunkSize c) (call_totalSize c) in
  mkRange start (end_ - 1) (call_totalSize c).

(** What the backend answers to one [PUT]: a parsed result, or a failure
    (a rejected [fetch], a non-2xx status or an unreadable body). *)
Inductive Response := Accepted (r : ChunkUploadResult) | Failed (message : string).

(** The network answers each attempt of each call. *)
Definition Network := ChunkCall -> Z -> Response.

Inductive Effect :=
| Fetch (call : ChunkCall) (range : ContentRange) (attempt : Z)
| SetTimeout (ms : Z).

Definition Transported : Type := Outcome ChunkUploadResult * list Effect.

(** The retry loop
    [for (let attempt = 0; attempt < maxRetries; attempt++) { try ... catch ... }]
    followed by [throw lastError || new Error(fallback)].  [fuel] bounds the
    iterations; [putWithRetry] supplies enough of it. *)
Fixpoint attemptLoop (net : Network) (call : ChunkCall) (maxRetries : JsNumber)
    (fallback : string) (fuel : nat) (attempt : Z) (lastError : option string)
  : Transported :=
  match fuel with
  | O => (Hang, [])
  | S fuel' =>
      if lessThan attempt maxRetries then
        match net call attempt with
        | Accepted result => (Ok result, [Fetch call (contentRange call) attempt])
        | Failed message =>
            if isLastAttempt attempt maxRetries then
              (Throw message, [Fetch call (contentRange call) attempt])
            else
              let delay := 2 ^ attempt * 1000 in
              let '(outcome, effects) :=
                attemptLoop net call maxRetries fallback fuel' (attempt + 1)
                  (Some message) in
              (outcome,
               Fetch call (contentRange call) attempt :: SetTimeout delay :: effects)
        end
      else (Throw (default fallback lastError), [])
  end.

(** A loop with the budget [Infinity] ends only with an accepted [PUT];
    it is followed for [patience] attempts, and a call whose attempts have
    all failed by then counts as one that never settles. *)
Definition patience : nat := 4096.

Definition loopFuel (maxRetries : JsNumber) : nat :=
  match maxRetries with
  | Num n => S (Z.to_nat n)
  | NonInteger q => S (Z.to_nat (1 + Qnum q / Z.pos (Qden q)))
  | Infinity false => patience
  | _ => 1%nat
  end.

Definition putWithRetry (net : Network) (call : ChunkCall) (maxRetries : JsArg)
    (fallback : string) : Transported :=
  let maxRetries := ToNumber (defaultArg maxRetries 3) in
  attemptLoop net call maxRetries fallback (loopFuel maxRetries) 0 None.

(** [uploadChunk(recordingId, chunk, chunkIndex, chunkSize, totalSize, maxRetries = 3)] *)
Definition uploadChunk (net : Network) (recordingId : string) (chunk : option Blob)
    (chunkIndex chunkSize totalSize : Z) (maxRetries : JsArg) : Transported :=
  putWithRetry net
    (mkCall UPLOAD_CHUNK recordingId chunk chunkIndex chunkSize totalSize None)
    maxRetries "Chunk upload failed".

(** [uploadScreenChunk(recordingId, chunk, chunkIndex, chunkSize, totalSize,
    accessToken, maxRetries = 3)] *)
Definition uploadScreenChunk (net : Network) (recordingId : string)
    (chunk : option Blob) (chunkIndex chunkSize totalSize : Z)
    (accessToken : option string) (maxRetries : JsArg) : Transported :=
  putWithRetry net
    (mkCall UPLOAD_SCREEN_CHUNK recordingId chunk chunkIndex chunkSize totalSize
       accessToken)
    maxRetries "Screen chunk upload failed".

(** [uploadWebcamChunk], the same body on the webcam endpoint. *)
Definition uploadWebcamChunk (net : Network) (recordingId : string)
    (chunk : option Blob) (chunkIndex chunkSize totalSize : Z)
    (accessToken : option string) (maxRetries : JsArg) : Transported :=
  putWithRetry net
    (mkCall UPLOAD_WEBCAM_CHUNK recordingId chunk chunkIndex chunkSize totalSize
       accessToken)
    maxRetries "Webcam chunk upload failed".

(** Observations on a list of transport effects. *)
Definition attemptsOf (effects : list Effect) : list Z :=
  omap (fun e => match e with Fetch _ _ a => Some a | _ => None end) effects.

Definition delaysOf (effects : list Effect) : list Z :=
  omap (fun e => match e with SetTimeout ms => Some ms | _ => None end) effects.

(** ** The sequential chunk walk

    Both hooks walk the chunks with the same loop,
    [for (let i = start; i < chunks.length; i++) {
       const result = await uploadFn(..., i, ...);
       (report progress)
       if (result.done) break; }],
    which a throwing [uploadFn] leaves at once.  [chunkWalk] lists the
    iterations that run: the index, the transport's effects and its outcome.
    [remaining] is [chunks.length - i]. *)
Record WalkStep := mkStep {
  step_index : Z;
  step_effects : list Effect;
  step_outcome : Outcome ChunkUploadResult
}.

Fixpoint chunkWalk (uploadFn : Z -> Transported) (remaining : nat) (i : Z)
  : list WalkStep :=
  match remaining with
  | O => []
  | S remaining' =>
      let '(outcome, effects) := uploadFn i in
      mkStep i effects outcome ::
        match outcome with
        | Ok result =>
            if done result then [] else chunkWalk uploadFn remaining' (i + 1)
        | _ => []
        end
  end.

(** [chunks.length - startFromChunk] iterations are left when the loop is
    entered at [startFromChunk]. *)
Definition iterationsFrom (chunks : list Blob) (startFromChunk : Z) : nat :=
  Z.to_nat (Z.of_nat (length chunks) - startFromChunk).

(** [chunks[i]], [undefined] outside the array. *)
Definition chunkAt (chunks : list Blob) (i : Z) : option Blob :=
  if i <? 0 then None else chunks !! Z.to_nat i.

(** ** Progress *)

Record UploadProgress := mkProgress {
  p_uploadedBytes : Z;
  p_totalBytes : Z;
  p_percentage : Q
}.

(** [(uploadedBytes / totalSize) * 100] for a total that is not 0: the
    quotient is rounded to a double, and so is the product. *)
Definition percentageOf (uploadedBytes totalSize : Z) : Q :=
  toDouble (toDouble (inject_Z uploadedBytes / inject_Z totalSize) * 100)%Q.

Definition progressData (result : ChunkUploadResult) (totalSize : Z)
  : UploadProgress :=
  mkProgress (uploadedBytes result) totalSize
    (percentageOf (uploadedBytes result) totalSize).

(** ** Session monad

    A session step reads and updates a world [W] and returns, throws or
    hangs.  [tryCatch] is [try { body } catch (err) { handler }]. *)
Definition M (W A : Type) : Type := W -> Outcome A * W.

Definition ret {W A} (a : A) : M W A := fun w => (Ok a, w).

Definition bind {W A B} (m : M W A) (k : A -> M W B) : M W B :=
  fun w =>
    match m w with
    | (Ok a, w') => k a w'
    | (Throw message, w') => (Throw message, w')
    | (Hang, w') => (Hang, w')
    end.

Definition throw {W A} (message : string) : M W A := fun w => (Throw message, w).

Definition hang {W A} : M W A := fun w => (Hang, w).

Definition await {W A} (o : Outcome A) : M W A := fun w => (o, w).

Definition modify {W} (f : W -> W) : M W unit := fun w => (Ok tt, f w).

Definition tryCatch {W A} (body : M W A) (handler : string -> M W A) : M W A :=
  fun w =>
    match body w with
    | (Throw message, w') => handler message w'
    | settled => settled
    end.

Declare Scope session_scope.
Delimit Scope session_scope with session.
Notation "x <- m ;; k" := (bind m (fun x => k))
  (at level 20, m at level 99, k at level 200, only parsing) : session_scope.
Notation "m ;; k" := (bind m (fun _ => k))
  (at level 100, k at level 200, only parsing, right associativity) : session_scope.

(** The slicer as the sessions call it: with fuel for every iteration of a
    terminating loop, so that [None] is returned exactly when the loop does
    not terminate ([chunkSize <= 0] on a non-empty blob). *)
Definition sliceFuel (b : Blob) (chunkSize : Z) : nat :=
  S (Z.to_nat (Math_ceil_div (size b) chunkSize)).

Definition slicedChunks (b : Blob) (chunkSize : Z) : option (list Blob) :=
  sliceBlobIntoChunks (sliceFuel b chunkSize) b chunkSize.

(** A string used as a condition: [undefined] and the empty string are falsy. *)
Definition truthy (s : option string) : bool :=
  match s with
  | Some EmptyString | None => false
  | Some _ => true
  end.

(** ** Single-stream session ([useResumableUpload]) *)

Definition SESSION_STORAGE_KEY : string := "activeRecordingId".

Inductive UploadState :=
| idle | initializing | uploading | completing | completed | error | paused.

Record InitResult := mkInit { init_recordingId : string; init_chunkSize : Z }.

Record StatusResult := mkStatus {
  status_uploadedBytes : Z;
  status_chunkSize : Z;
  status_fileSize : Z
}.

Record CompleteResult := mkComplete {
  complete_recordingId : string;
  complete_status : string;
  complete_playbackUrl : option string
}.

(** The collaborators of the hook: the authentication provider and the
    backend endpoints. *)
Record Backend := mkBackend {
  isAuthenticated : bool;
  getAccessToken : Outcome string;
  initResumableUpload : Z -> Outcome InitResult;
  getUploadStatus : string -> Outcome StatusResult;
  completeVideoUpload : string -> Z -> Outcome CompleteResult;
  network : Network
}.

(** What the hook does that is visible outside it, in order. *)
Inductive Event :=
| SetState (s : UploadState)
| CallGetAccessToken
| CallInitResumable (fileSize : Z)
| CallGetUploadStatus (recordingId : string)
| CallComplete (recordingId : string) (size : Z)
| Net (e : Effect)
| OnProgress (p : UploadProgress)
| SaveRecordingId (recordingId : string)
| ClearRecordingId.

(** The React state of the hook. *)
Record Hook := mkHook {
  state : UploadState;
  progress : option UploadProgress;
  errorMessage : option string;
  recordingId : option string;
  playbackUrl : option string
}.

Record World := mkWorld {
  hook : Hook;
  sessionStorage : gmap string string;
  trace : list Event
}.

Definition UploadReturn : Type := string * option string.

Open Scope session_scope.

Definition emit (e : Event) : M World unit :=
  modify (fun w => mkWorld (hook w) (sessionStorage w) (trace w ++ [e])).

Definition emitAll (es : list Event) : M World unit :=
  modify (fun w => mkWorld (hook w) (sessionStorage w) (trace w ++ es)).

Definition updateHook (f : Hook -> Hook) : M World unit :=
  modify (fun w => mkWorld (f (hook w)) (sessionStorage w) (trace w)).

Definition setState (s : UploadState) : M World unit :=
  updateHook (fun h =>
    mkHook s (progress h) (errorMessage h) (recordingId h) (playbackUrl h));;
  emit (SetState s).

Definition setProgress (p : option UploadProgress) : M World unit :=
  updateHook (fun h =>
    mkHook (state h) p (errorMessage h) (recordingId h) (playbackUrl h)).

Definition setError (e : option string) : M World unit :=
  updateHook (fun h =>
    mkHook (state h) (progress h) e (recordingId h) (playbackUrl h)).

Definition setRecordingId (id : option string) : M World unit :=
  updateHook (fun h =>
    mkHook (state h) (progress h) (errorMessage h) id (playbackUrl h)).

Definition setPlaybackUrl (url : option string) : M World unit :=
  updateHook (fun h =>
    mkHook (state h) (progress h) (errorMessage h) (recordingId h) url).

Definition saveRecordingId (id : string) : M World unit :=
  modify (fun w =>
    mkWorld (hook w) (<[SESSION_STORAGE_KEY := id]> (sessionStorage w))
      (trace w ++ [SaveRecordingId id])).

Definition clearRecordingId : M World unit :=
  modify (fun w =>
    mkWorld (hook w) (delete SESSION_STORAGE_KEY (sessionStorage w))
      (trace w ++ [ClearRecordingId])).

(** A backend call: the call is recorded, then its outcome is awaited. *)
Definition call {A} (e : Event) (o : Outcome A) : M World A :=
  emit e;; await o.

(** The hook on mount: the stored identity is restored and, when there is
    one, the session starts in [paused]. *)
Definition useResumableUpload (storage : gmap string string) : World :=
  let recordingId :=
    match storage !! SESSION_STORAGE_KEY with
    | Some stored => if truthy (Some stored) then Some stored else None
    | None => None
    end in
  let state := if truthy recordingId then paused else idle in
  mkWorld (mkHook state None None recordingId None) storage [].

(** After each acknowledged chunk: [setProgress(progressData)], then
    [options.onProgress], which sets the progress again and calls the
    caller's [onProgress]. *)
Definition reportProgress (p : UploadProgress) : M World unit :=
  setProgress (Some p);;
  setProgress (Some p);;
  emit (OnProgress p).

Fixpoint replayWalk (totalSize : Z) (steps : list WalkStep) : M World unit :=
  match steps with
  | [] => ret tt
  | step :: steps' =>
      emitAll (Net <$> step_effects step);;
      result <- await (step_outcome step);;
      reportProgress (progressData result totalSize);;
      replayWalk totalSize steps'
  end.

(** [uploadChunks(blob, recordingId, chunkSize, startFromChunk, accessToken,
    options)].  The access token is the sixth argument of [uploadChunk],
    its [maxRetries]. *)
Definition hookWalk (net : Network) (chunks : list Blob) (totalSize : Z)
    (recordingId : string) (chunkSize startFromChunk : Z) (accessToken : string)
  : list WalkStep :=
  chunkWalk
    (fun i =>
       uploadChunk net recordingId (chunkAt chunks i) i chunkSize totalSize
         (ArgString accessToken))
    (iterationsFrom chunks startFromChunk) startFromChunk.

Definition uploadChunks (env : Backend) (blob : Blob) (recordingId : string)
    (chunkSize startFromChunk : Z) (accessToken : string) : M World unit :=
  match slicedChunks blob chunkSize with
  | None => hang
  | Some chunks =>
      let totalSize := size blob in
      replayWalk totalSize
        (hookWalk (network env) chunks totalSize recordingId chunkSize
           startFromChunk accessToken)
  end.

Definition capturePlaybackUrl (url : option string) : M World unit :=
  if truthy url then setPlaybackUrl url else ret tt.

(** [upload(blob, options)] *)
Definition upload (env : Backend) (blob : Blob) : M World UploadReturn :=
  if negb (isAuthenticated env) then
    throw "User must be authenticated to upload"
  else
    setError None;;
    setProgress None;;
    setRecordingId None;;
    setPlaybackUrl None;;
    tryCatch
      (accessToken <- call CallGetAccessToken (getAccessToken env);;
       setState initializing;;
       initResult <- call (CallInitResumable (size blob))
                       (initResumableUpload env (size blob));;
       setRecordingId (Some (init_recordingId initResult));;
       saveRecordingId (init_recordingId initResult);;
       setState uploading;;
       uploadChunks env blob (init_recordingId initResult)
         (init_chunkSize initResult) 0 accessToken;;
       setState completing;;
       completeResult <- call (CallComplete (init_recordingId initResult) (size blob))
                           (completeVideoUpload env (init_recordingId initResult)
                              (size blob));;
       capturePlaybackUrl (complete_playbackUrl completeResult);;
       setState completed;;
       clearRecordingId;;
       ret (complete_recordingId completeResult,
            complete_playbackUrl completeResult))
      (fun message =>
         setError (Some message);;
         setState error;;
         throw message).

(** [resume(recordingId, blob, options)] *)
Definition resume (env : Backend) (id : string) (blob : Blob)
  : M World UploadReturn :=
  if negb (isAuthenticated env) then
    throw "User must be authenticated to resume upload"
  else
    setError None;;
    setRecordingId (Some id);;
    tryCatch
      (accessToken <- call CallGetAccessToken (getAccessToken env);;
       setState initializing;;
       status <- call (CallGetUploadStatus id) (getUploadStatus env id);;
       if status_fileSize status <=? status_uploadedBytes status then
         setState completed;;
         setProgress
           (Some (mkProgress (status_fileSize status) (status_fileSize status) 100));;
         completeResult <- call (CallComplete id (status_fileSize status))
                             (completeVideoUpload env id (status_fileSize status));;
         capturePlaybackUrl (complete_playbackUrl completeResult);;
         ret (id, complete_playbackUrl completeResult)
       else
         let startFromChunk :=
           calculateStartingChunkIndex (status_uploadedBytes status)
             (status_chunkSize status) in
         setState uploading;;
         uploadChunks env blob id (status_chunkSize status) startFromChunk
           accessToken;;
         setState completing;;
         completeResult <- call (CallComplete id (size blob))
                             (completeVideoUpload env id (size blob));;
         capturePlaybackUrl (complete_playbackUrl completeResult);;
         setState completed;;
         clearRecordingId;;
         ret (complete_recordingId completeResult,
              complete_playbackUrl completeResult))
      (fun message =>
         setError (Some message);;
         setState error;;
         throw message).

(** [reset()] *)
Definition reset : M World unit :=
  setState idle;;
  setProgress None;;
  setError None;;
  setRecordingId None;;
  setPlaybackUrl None;;
  clearRecordingId.

Close Scope session_scope.

(** Observations on a trace. *)
Definition fetchesOf (t : list Event) : list (ChunkCall * Z) :=
  omap (fun e => match e with Net (Fetch c _ a) => Some (c, a) | _ => None end) t.

Definition statesOf (t : list Event) : list UploadState :=
  omap (fun e => match e with SetState s => Some s | _ => None end) t.

Definition completionsOf (t : list Event) : list (string * Z) :=
  omap (fun e => match e with CallComplete id sz => Some (id, sz) | _ => None end) t.

Definition progressOf (t : list Event) : list UploadProgress :=
  omap (fun e => match e with OnProgress p => Some p | _ => None end) t.

(** ** Dual-stream session ([useDualUpload]) *)

Module Dual.

Inductive DualUploadState :=
| idle | initializing | uploading | completing | completed | error.

Record DualUploadProgress := mkDualProgress {
  screen : UploadProgress;
  webcam : UploadProgress
}.

Inductive Stream := ScreenStream | WebcamStream.

Record WebcamPosition := mkPosition { pos_x : Z; pos_y : Z }.

(** [webcamPositionToApiFormat] ([canvas-merger.ts]) *)
Definition webcamPositionToApiFormat (position : WebcamPosition) : Z :=
  let x := pos_x position in
  let y := pos_y position in
  if (x <? 50) && (y <? 50) then 0
  else if (50 <=? x) && (y <? 50) then 25
  else if (x <? 50) && (50 <=? y) then 50
  else 100.

Record Options := mkOptions {
  duration : Z;
  webcamPosition : option WebcamPosition
}.

Record DualCompleteResult := mkDualComplete {
  dc_recordingId : string;
  dc_status : string;
  dc_playbackUrl : option string;
  dc_fileSize : Z
}.

Record Backend := mkBackend {
  initDualUpload : Z -> Z -> Z -> Z -> Outcome InitResult;
  completeDualUpload : string -> Outcome DualCompleteResult;
  network : Network
}.

Inductive Event :=
| SetState (s : DualUploadState)
| CallInitDual (screenSize webcamSize : Z)
| CallCompleteDual (recordingId : string)
| Net (stream : Stream) (e : Effect)
| OnProgress (p : DualUploadProgress)
| OnError (message : string).

(** One of the two promises handed to [Promise.all]: the iterations of
    its walk that have not run yet, or its settlement. *)
Inductive Promise :=
| Pending (steps : list WalkStep)
| Fulfilled
| Rejected (message : string).

Definition DualReturn : Type := string * option string * Z.

Record World := mkWorld {
  state : DualUploadState;
  progress : option DualUploadProgress;
  errorMessage : option string;
  recordingId : option string;
  playbackUrl : option string;
  trace : list Event;
  screenWalk : Promise;
  webcamWalk : Promise;
  (** the promise returned by [upload]; [None] while it is pending *)
  returned : option (Outcome DualReturn)
}.

Definition useDualUpload : World :=
  mkWorld idle None None None None [] (Pending []) (Pending []) None.

Open Scope session_scope.

Definition emit (e : Event) : M World unit :=
  modify (fun w =>
    mkWorld (state w) (progress w) (errorMessage w) (recordingId w)
      (playbackUrl w) (trace w ++ [e]) (screenWalk w) (webcamWalk w)
      (returned w)).

Definition emitAll (es : list Event) : M World unit :=
  modify (fun w =>
    mkWorld (state w) (progress w) (errorMessage w) (recordingId w)
      (playbackUrl w) (trace w ++ es) (screenWalk w) (webcamWalk w)
      (returned w)).

Definition setState (s : DualUploadState) : M World unit :=
  modify (fun w =>
    mkWorld s (progress w) (errorMessage w) (recordingId w) (playbackUrl w)
      (trace w ++ [SetState s]) (screenWalk w) (webcamWalk w) (returned w)).

Definition setProgress (p : option DualUploadProgress) : M World unit :=
  modify (fun w =>
    mkWorld (state w) p (errorMessage w) (recordingId w) (playbackUrl w)
      (trace w) (screenWalk w) (webcamWalk w) (returned w)).

Definition setError (e : option string) : M World unit :=
  modify (fun w =>
    mkWorld (state w) (progress w) e (recordingId w) (playbackUrl w)
      (trace w) (screenWalk w) (webcamWalk w) (returned w)).

Definition setRecordingId (id : option string) : M World unit :=
  modify (fun w =>
    mkWorld (state w) (progress w) (errorMessage w) id (playbackUrl w)
      (trace w) (screenWalk w) (webcamWalk w) (returned w)).

Definition setPlaybackUrl (url : option string) : M World unit :=
  modify (fun w =>
    mkWorld (state w) (progress w) (errorMessage w) (recordingId w) url
      (trace w) (screenWalk w) (webcamWalk w) (returned w)).

Definition setWalk (stream : Stream) (p : Promise) : M World unit :=
  modify (fun w =>
    match stream with
    | ScreenStream =>
        mkWorld (state w) (progress w) (errorMessage w) (recordingId w)
          (playbackUrl w) (trace w) p (webcamWalk w) (returned w)
    | WebcamStream =>
        mkWorld (state w) (progress w) (errorMessage w) (recordingId w)
          (playbackUrl w) (trace w) (screenWalk w) p (returned w)
    end).

Definition walkOf (stream : Stream) (w : World) : Promise :=
  match stream with
  | ScreenStream => screenWalk w
  | WebcamStream => webcamWalk w
  end.

(** The [onProgress] callbacks of the two walks:
    [setProgress((prev) => { if (!prev) return null; ...;
       opts.onProgress?.(newProgress); return newProgress; })]. *)
Definition streamProgress (stream : Stream) (p : UploadProgress) : M World unit :=
  fun w =>
    match progress w with
    | None => setProgress None w
    | Some prev =>
        let newProgress :=
          match stream with
          | ScreenStream => mkDualProgress p (webcam prev)
          | WebcamStream => mkDualProgress (screen prev) p
          end in
        (emit (OnProgress newProgress);; setProgress (Some newProgress)) w
    end.

(** [uploadStreamChunks(blob, recordingId, chunkSize, uploadFn, onProgress)]:
    the iterations of its loop.  [uploadFn] is called with five
    arguments, so the transport's [accessToken] and [maxRetries] are
    [undefined]. *)
Definition uploadFnOf (stream : Stream) (net : Network) (id : string)
    (chunks : list Blob) (chunkSize totalSize : Z) (i : Z) : Transported :=
  match stream with
  | ScreenStream =>
      uploadScreenChunk net id (chunkAt chunks i) i chunkSize totalSize None
        ArgUndefined
  | WebcamStream =>
      uploadWebcamChunk net id (chunkAt chunks i) i chunkSize totalSize None
        ArgUndefined
  end.

Definition uploadStreamChunks (stream : Stream) (net : Network) (blob : Blob)
    (id : string) (chunkSize : Z) : option (list WalkStep) :=
  chunks ← slicedChunks blob chunkSize;
  Some (chunkWalk (uploadFnOf stream net id chunks chunkSize (size blob))
          (iterationsFrom chunks 0) 0).

(** A walk whose loop has no iteration left has returned. *)
Definition promiseOf (steps : list WalkStep) : Promise :=
  match steps with
  | [] => Fulfilled
  | _ => Pending steps
  end.

(** One iteration of a stream's loop: the transport call, then the
    progress callback, then the walk returns (after [done] or the last
    chunk), goes on, or rejects. *)
Definition advance (stream : Stream) (totalSize : Z) : M World unit :=
  fun w =>
    match walkOf stream w with
    | Pending (step :: steps) =>
        match step_outcome step with
        | Ok result =>
            (emitAll (Net stream <$> step_effects step);;
             streamProgress stream (progressData result totalSize);;
             setWalk stream (promiseOf steps)) w
        | Throw message =>
            (emitAll (Net stream <$> step_effects step);;
             setWalk stream (Rejected message)) w
        | Hang => (Ok tt, w)
        end
    | _ => (Ok tt, w)
    end.

Definition settle (o : Outcome DualReturn) : M World unit :=
  modify (fun w =>
    mkWorld (state w) (progress w) (errorMessage w) (recordingId w)
      (playbackUrl w) (trace w) (screenWalk w) (webcamWalk w) (Some o)).

(** The [catch] block of [upload]. *)
Definition catchBlock (message : string) : M World unit :=
  setError (Some message);;
  setState error;;
  emit (OnError message);;
  settle (Throw message).

(** What follows [await Promise.all([...])] inside the [try]. *)
Definition afterAll (env : Backend) (id : string) : M World unit :=
  setState completing;;
  emit (CallCompleteDual id);;
  fun w =>
    match completeDualUpload env id with
    | Ok completeResult =>
        ((if truthy (dc_playbackUrl completeResult)
          then setPlaybackUrl (dc_playbackUrl completeResult) else ret tt);;
         setState completed;;
         settle (Ok (dc_recordingId completeResult,
                     dc_playbackUrl completeResult,
                     dc_fileSize completeResult))) w
    | Throw message => catchBlock message w
    | Hang => settle Hang w
    end.

(** [Promise.all]: it rejects as soon as one walk rejects and fulfils
    once both walks have returned; it settles once. *)
Definition joinAll (env : Backend) (id : string) : M World unit :=
  fun w =>
    match returned w with
    | Some _ => (Ok tt, w)
    | None =>
        match screenWalk w, webcamWalk w with
        | Rejected message, _ => catchBlock message w
        | _, Rejected message => catchBlock message w
        | Fulfilled, Fulfilled => afterAll env id w
        | _, _ => (Ok tt, w)
        end
    end.

Definition sizeOf (stream : Stream) (screenBlob webcamBlob : Blob) : Z :=
  match stream with
  | ScreenStream => size screenBlob
  | WebcamStream => size webcamBlob
  end.

(** The event loop resumes the two walks in the order [schedule]. *)
Fixpoint run (env : Backend) (id : string) (screenBlob webcamBlob : Blob)
    (schedule : list Stream) : M World unit :=
  match schedule with
  | [] => ret tt
  | stream :: schedule' =>
      advance stream (sizeOf stream screenBlob webcamBlob);;
      joinAll env id;;
      run env id screenBlob webcamBlob schedule'
  end.

Definition initialProgress (screenBlob webcamBlob : Blob) : DualUploadProgress :=
  mkDualProgress (mkProgress 0 (size screenBlob) 0) (mkProgress 0 (size webcamBlob) 0).

(** A call of [upload] has promises of its own. *)
Definition beginCall : M World unit :=
  modify (fun w =>
    mkWorld (state w) (progress w) (errorMessage w) (recordingId w)
      (playbackUrl w) (trace w) (Pending []) (Pending []) None).

(** [upload(screenBlob, webcamBlob, options)] up to the point where both
    walks have been started and [Promise.all] awaits them.  The result is
    the session identity, or [None] when the call has settled before. *)
Definition launch (env : Backend) (screenBlob webcamBlob : Blob)
    (options : option Options) : M World (option string) :=
  beginCall;;
  match options with
  | None => settle (Throw "duration is required");; ret None
  | Some opts =>
      if duration opts =? 0 then settle (Throw "duration is required");; ret None
      else
        match webcamPosition opts with
        | None => settle (Throw "webcamPosition is required");; ret None
        | Some position =>
            setError None;;
            setProgress None;;
            setRecordingId None;;
            setPlaybackUrl None;;
            setState initializing;;
            emit (CallInitDual (size screenBlob) (size webcamBlob));;
            fun w =>
              match initDualUpload env (size screenBlob) (size webcamBlob)
                      (webcamPositionToApiFormat position) (duration opts) with
              | Ok initResult =>
                  let id := init_recordingId initResult in
                  let chunkSize := init_chunkSize initResult in
                  (setRecordingId (Some id);;
                   setState uploading;;
                   setProgress (Some (initialProgress screenBlob webcamBlob));;
                   match uploadStreamChunks ScreenStream (network env) screenBlob
                           id chunkSize,
                         uploadStreamChunks WebcamStream (network env) webcamBlob
                           id chunkSize with
                   | Some screenSteps, Some webcamSteps =>
                       setWalk ScreenStream (promiseOf screenSteps);;
                       setWalk WebcamStream (promiseOf webcamSteps);;
                       joinAll env id;;
                       ret (Some id)
                   | _, _ => hang
                   end) w
              | Throw message => (catchBlock message;; ret None) w
              | Hang => (Hang, w)
              end
        end
  end.

(** [upload(screenBlob, webcamBlob, options)], its two walks resumed in
    the order [schedule].  The outcome is [Hang] when slicing or the
    initiation call does not return; otherwise the promise returned by
    [upload] is the field [returned] of the final world. *)
Definition upload (env : Backend) (screenBlob webcamBlob : Blob)
    (options : option Options) (schedule : list Stream) : M World unit :=
  launched <- launch env screenBlob webcamBlob options;;
  match launched with
  | Some id => run env id screenBlob webcamBlob schedule
  | None => ret tt
  end.

(** [reset()] *)
Definition reset : M World unit :=
  setState idle;;
  setProgress None;;
  setError None;;
  setRecordingId None;;
  setPlaybackUrl None.

Close Scope session_scope.

Definition completionsOf (t : list Event) : list string :=
  omap (fun e => match e with CallCompleteDual id => Some id | _ => None end) t.

Definition statesOf (t : list Event) : list DualUploadState :=
  omap (fun e => match e with SetState s => Some s | _ => None end) t.

Definition isRejected (p : Promise) : bool :=
  match p with Rejected _ => true | _ => false end.

Definition isFulfilled (p : Promise) : bool :=
  match p with Fulfilled => true | _ => false end.

(** What holds of a call of [upload] whenever [Promise.all] has looked at
    the two walks; [t0] is the trace when [upload] was called. *)
Definition settledOrInFlight (id : string) (t0 : list Event) (w : World) : Prop :=
  exists t,
    trace w = t0 ++ t /\
    match returned w with
    | None =>
        state w = uploading /\ completionsOf t = [] /\
        (completed ∉ statesOf t) /\
        isRejected (screenWalk w) = false /\
        isRejected (webcamWalk w) = false /\
        isFulfilled (screenWalk w) && isFulfilled (webcamWalk w) = false
    | Some (Ok _) =>
        state w = completed /\ completionsOf t = [id] /\
        screenWalk w = Fulfilled /\ webcamWalk w = Fulfilled
    | Some (Throw _) =>
        state w = error /\ (completed ∉ statesOf t) /\
        ((completionsOf t = [] /\
          isRejected (screenWalk w) || isRejected (webcamWalk w) = true) \/
         (completionsOf t = [id] /\
          screenWalk w = Fulfilled /\ webcamWalk w = Fulfilled))
    | Some Hang =>
        state w = completing /\ (completed ∉ statesOf t) /\
        completionsOf t = [id] /\
        screenWalk w = Fulfilled /\ webcamWalk w = Fulfilled
    end.

(** The same between a step of a walk and the look of [Promise.all]. *)
Definition beforeJoin (id : string) (t0 : list Event) (w : World) : Prop :=
  match returned w with
  | None =>
      exists t,
        trace w = t0 ++ t /\ state w = uploading /\ completionsOf t = [] /\
        completed ∉ statesOf t
  | Some _ => settledOrInFlight id t0 w
  end.

(** Every iteration in [steps] was acknowledged. *)
Definition acknowledgedAll (steps : list WalkStep) : Prop :=
  Forall (fun step => exists result, step_outcome step = Ok result) steps.

(** How far the promise [p] of a walk is through the iterations [steps]
    of that walk. *)
Definition walkProgressed (steps : list WalkStep) (p : Promise) : Prop :=
  match p with
  | Pending rest => exists pre, steps = pre ++ rest /\ acknowledgedAll pre
  | Fulfilled => acknowledgedAll steps
  | Rejected message =>
      exists pre step rest,
        steps = pre ++ step :: rest /\ acknowledgedAll pre /\
        step_outcome step = Throw message
  end.


(** The iterations a walk has still to run. *)
Definition pendingSteps (p : Promise) : nat :=
  match p with
  | Pending steps => length steps
  | _ => 0%nat
  end.

(** A walk that is in flight has an iteration to run, and none of its
    transport calls stays unsettled. *)
Definition lively (p : Promise) : Prop :=
  match p with
  | Pending steps =>
      steps <> [] /\ Forall (fun step => step_outcome step <> Hang) steps
  | _ => True
  end.

(** The number of turns the event loop gives to [stream] in [schedule]. *)
Fixpoint turnsOf (stream : Stream) (schedule : list Stream) : nat :=
  match schedule with
  | [] => 0%nat
  | s :: schedule' =>
      match s, stream with
      | ScreenStream, ScreenStream | WebcamStream, WebcamStream =>
          S (turnsOf stream schedule')
      | _, _ => turnsOf stream schedule'
      end
  end.

(** What a trace shows of the network: the transport effects of the two
    streams, in order. *)
Definition netOf (t : list Event) : list (Stream * Effect) :=
  omap (fun e => match e with Net stream effect => Some (stream, effect) | _ => None end) t.

Definition progressReportsOf (t : list Event) : list DualUploadProgress :=
  omap (fun e => match e with OnProgress p => Some p | _ => None end) t.

(** Two worlds in which the same call of [upload] is equally far: the
    promises are the same and the same was sent and requested. *)
Definition sameFlight (w w' : World) : Prop :=
  screenWalk w = screenWalk w' /\ webcamWalk w = webcamWalk w' /\
  returned w = returned w' /\
  netOf (trace w) = netOf (trace w') /\
  completionsOf (trace w) = completionsOf (trace w').

(** The chunk indices a stream has put on the wire, in order. *)
Definition fetchedOf (stream : Stream) (t : list Event) : list Z :=
  omap (fun e =>
          match e with
          | Net ScreenStream (Fetch c _ _) =>
              match stream with ScreenStream => Some (call_chunkIndex c) | _ => None end
          | Net WebcamStream (Fetch c _ _) =>
              match stream with WebcamStream => Some (call_chunkIndex c) | _ => None end
          | _ => None
          end) t.

End Dual.

(** ** The chunk loop of [UploadManager] ([uploadManager.ts]) *)

Module Manager.

Inductive UploadStatus := uploading | completed | error | cancelled.

Definition maxRetries : Z := 3.
Definition retryDelays : list Z := [1000; 2000; 4000].

(** [state.uploadedBytes = result.uploadedBytes || endByte + 1] *)
Definition acknowledged (result : ChunkUploadResult) (endByte : Z) : Z :=
  if uploadedBytes result =? 0 then endByte + 1
  else uploadedBytes result.

(** The [UploadState] of one upload, without its callbacks. *)
Record UploadState := mkState {
  blob : Blob;
  chunkSize : Z;
  status : UploadStatus;
  uploadedBytes : Z;
  errorMessage : option string
}.

Inductive Event :=
| Fetch (chunkIndex : Z) (range : ContentRange) (attempt : Z)
| SetTimeout (ms : option Z)
| Progress (status : UploadStatus) (uploadedBytes : Z) (percent : Q)
| CallStatus
| CallComplete (size : Z)
| OnComplete
| OnError (message : string).

Record World := mkWorld { upload : UploadState; trace : list Event }.

(** The backend and the abort signal as the loop observes them:
    [abortedAtChunk i] is [signal.aborted] at the head of iteration [i],
    [abortedAtCatch i attempt] in the [catch] block of that attempt. *)
Record Env := mkEnv {
  getUploadStatus : Outcome StatusResult;
  fetchChunk : Z -> Z -> Response;
  completeCall : Outcome (option string);
  abortedAtChunk : Z -> bool;
  abortedAtCatch : Z -> Z -> bool
}.

Open Scope session_scope.

Definition emit (e : Event) : M World unit :=
  modify (fun w => mkWorld (upload w) (trace w ++ [e])).

Definition update (f : UploadState -> UploadState) : M World unit :=
  modify (fun w => mkWorld (f (upload w)) (trace w)).

Definition setStatus (s : UploadStatus) : M World unit :=
  update (fun u => mkState (blob u) (chunkSize u) s (uploadedBytes u) (errorMessage u)).

Definition setUploadedBytes (n : Z) : M World unit :=
  update (fun u => mkState (blob u) (chunkSize u) (status u) n (errorMessage u)).

Definition setErrorMessage (e : option string) : M World unit :=
  update (fun u => mkState (blob u) (chunkSize u) (status u) (uploadedBytes u) e).

(** [updateProgress] *)
Definition updateProgress : M World unit :=
  fun w =>
    let u := upload w in
    emit (Progress (status u) (uploadedBytes u)
            (percentageOf (uploadedBytes u) (size (blob u)))) w.

(** [completeUpload] *)
Definition completeUpload (env : Env) : M World unit :=
  fun w =>
    tryCatch
      (emit (CallComplete (size (blob (upload w))));;
       _ <- await (completeCall env);;
       setStatus completed;;
       setUploadedBytes (size (blob (upload w)));;
       updateProgress;;
       emit OnComplete)
      (fun message =>
         setStatus error;;
         setErrorMessage (Some message);;
         updateProgress;;
         emit (OnError message);;
         throw message) w.

(** How the retry loop of one chunk is left. *)
Inductive LoopExit :=
| Returned
| NextChunk (uploaded : bool) (lastError : option string).

(** The retry loop of chunk [i],
    [for (let attempt = 0; attempt < this.maxRetries; attempt++)];
    [remaining] is [maxRetries - attempt]. *)
Fixpoint attempts (env : Env) (i : Z) (range : ContentRange)
    (remaining : nat) (attempt : Z) (uploaded : bool) (lastError : option string)
  : M World LoopExit :=
  match remaining with
  | O => ret (NextChunk uploaded lastError)
  | S remaining' =>
      let catchBlock (uploaded : bool) (message : string) : M World LoopExit :=
        if abortedAtCatch env i attempt then ret Returned
        else
          (if attempt <? maxRetries - 1
           then emit (SetTimeout (retryDelays !! Z.to_nat attempt))
           else ret tt);;
          attempts env i range remaining' (attempt + 1) uploaded (Some message) in
      emit (Fetch i range attempt);;
      match fetchChunk env i attempt with
      | Failed message => catchBlock uploaded message
      | Accepted result =>
          setUploadedBytes (acknowledged result (lastByte range));;
          updateProgress;;
          fun w =>
            if done result || (size (blob (upload w)) <=? uploadedBytes (upload w))
            then
              match completeUpload env w with
              | (Ok _, w') => (Ok Returned, w')
              | (Throw message, w') => catchBlock true message w'
              | (Hang, w') => (Hang, w')
              end
            else (Ok (NextChunk true lastError), w)
      end
  end.

(** The loop over the chunks,
    [for (let i = startFromChunk; i < chunks.length; i++)];
    [remaining] is [chunks.length - i].  [true] is returned when the loop
    ran to its end and [false] when the function returned inside it. *)
Fixpoint chunkLoop (env : Env) (chunks : list Blob) (remaining : nat) (i : Z)
  : M World bool :=
  match remaining with
  | O => ret true
  | S remaining' =>
      if abortedAtChunk env i then ret false
      else
        fun w =>
          let u := upload w in
          let startByte := i * chunkSize u in
          let endByte :=
            Z.min (startByte + from_option size 0 (chunkAt chunks i) - 1)
              (size (blob u) - 1) in
          (_ <- (if chunkAt chunks i is Some _ then ret tt
                 else throw "TypeError: chunk is undefined");;
           exit <- attempts env i (mkRange startByte endByte (size (blob u)))
                     (Z.to_nat maxRetries) 0 false None;;
           match exit with
           | Returned => ret false
           | NextChunk true _ => chunkLoop env chunks remaining' (i + 1)
           | NextChunk false lastError =>
               setStatus error;;
               setErrorMessage
                 (Some (default "Chunk upload failed after retries" lastError));;
               updateProgress;;
               emit (OnError (default "Upload failed" lastError));;
               throw (default "Chunk upload failed" lastError)
           end) w
  end.

(** [uploadChunks(recordingId)] for an upload that is in the map. *)
Definition uploadChunks (env : Env) : M World unit :=
  emit CallStatus;;
  backendStatus <- await (getUploadStatus env);;
  fun w =>
    let u := upload w in
    let startFromBytes := status_uploadedBytes backendStatus in
    let startFromChunk := Math_floor_div startFromBytes (chunkSize u) in
    match slicedChunks (blob u) (chunkSize u) with
    | None => (Hang, w)
    | Some chunks =>
        (finished <- chunkLoop env chunks (iterationsFrom chunks startFromChunk)
                       startFromChunk;;
         if finished then completeUpload env else ret tt) w
    end.

Close Scope session_scope.

Definition attemptsOf (i : Z) (t : list Event) : list Z :=
  omap (fun e => match e with
                 | Fetch j _ a => if j =? i then Some a else None
                 | _ => None end) t.

Definition delaysOf (t : list Event) : list (option Z) :=
  omap (fun e => match e with SetTimeout ms => Some ms | _ => None end) t.

End Manager.

(** ** Starting and resuming an [UploadManager] upload

    [startUpload] and [resumeUpload] create or refresh the state of the
    upload and start [uploadChunks] without awaiting it; its rejection is
    handled by [.catch].  The result is what the call returns and the
    world the walk it started leaves when it is the only walk of the
    upload; there is no such world, [None], when no walk was started, or
    when the walk was started beside another one of the same upload. *)

Module ManagerCalls.

Import Manager.

Open Scope session_scope.

(** [this.uploadChunks(recordingId).catch((error) => { ... })] *)
Definition onRejected (message : string) : M World unit :=
  setStatus error;;
  setErrorMessage (Some message);;
  updateProgress;;
  emit (OnError message).

Definition background (env : Env) : M World unit :=
  tryCatch (uploadChunks env) onRejected.

(** [startUpload(blob, metadata, callbacks)]; [init] is the outcome of the
    initiation request. *)
Definition startUpload (env : Env) (init : Outcome InitResult) (b : Blob)
  : Outcome string * option World :=
  match init with
  | Ok initResult =>
      let uploadState := mkState b (init_chunkSize initResult) uploading 0 None in
      (Ok (init_recordingId initResult),
       Some (background env (mkWorld uploadState [])).2)
  | Throw message => (Throw message, None)
  | Hang => (Hang, None)
  end.

(** An upload in [this.uploads]: its state and what was observed of it so
    far, and whether a call of [uploadChunks] for it has not settled yet.
    The status does not tell: a walk that retries a chunk after a failed
    completion call runs on with the status [error]. *)
Record HeldUpload := mkHeld { heldWorld : World; walkRunning : bool }.

(** [resumeUpload(recordingId, blob, callbacks)]; [existing] is
    [this.uploads.get(recordingId)].  The state of a held upload is
    refreshed in place and gets a new [AbortController]; the old one is not
    aborted, and nothing is awaited before [uploadChunks] is called.  A
    walk that still runs therefore goes on, and the walk started here
    shares the state with it: their interleaving is not followed. *)
Definition resumeUpload (env : Env) (existing : option HeldUpload) (b : Blob)
  : Outcome unit * option World :=
  match existing with
  | Some held =>
      let existingState := upload (heldWorld held) in
      let refreshed :=
        mkState b (chunkSize existingState) uploading
          (uploadedBytes existingState) None in
      if walkRunning held then (Ok tt, None)
      else
        (Ok tt,
         Some (background env (mkWorld refreshed (trace (heldWorld held)))).2)
  | None =>
      match getUploadStatus env with
      | Ok backendStatus =>
          let uploadState :=
            mkState b (status_chunkSize backendStatus) uploading
              (status_uploadedBytes backendStatus) None in
          (Ok tt, Some (background env (mkWorld uploadState [CallStatus])).2)
      | Throw message => (Throw message, None)
      | Hang => (Hang, None)
      end
  end.

Close Scope session_scope.

Definition errorsOf (t : list Event) : list string :=
  omap (fun e => match e with OnError message => Some message | _ => None end) t.

Definition errorProgressOf (t : list Event) : list Z :=
  omap (fun e => match e with Progress error n _ => Some n | _ => None end) t.

End ManagerCalls.

(** ** Vocabulary of the statements *)

(** Every [PUT] in [effects] was answered by a failure. *)
Definition allFailed (net : Network) (effects : list Effect) : Prop :=
  forall c rng a, Fetch c rng a ∈ effects -> exists m, net c a = Failed m.

(** A transport call returns a result only from its final [PUT]; every
    earlier [PUT], and every [PUT] of a call that throws, failed. *)
Definition transportShape (net : Network) (call : ChunkCall) (t : Transported)
  : Prop :=
  match t.1 with
  | Ok r =>
      exists pre a,
        t.2 = pre ++ [Fetch call (contentRange call) a] /\
        net call a = Accepted r /\ allFailed net pre
  | _ => allFailed net t.2
  end.

(** The events [replayWalk] adds to the trace. *)
Fixpoint walkEvents (totalSize : Z) (steps : list WalkStep) : list Event :=
  match steps with
  | [] => []
  | step :: steps' =>
      (Net <$> step_effects step) ++
      match step_outcome step with
      | Ok result => OnProgress (progressData result totalSize) :: walkEvents totalSize steps'
      | _ => []
      end
  end.

(** The outcome of [replayWalk]: that of the first step that does not
    return a result. *)
Fixpoint walkOutcome (steps : list WalkStep) : Outcome unit :=
  match steps with
  | [] => Ok tt
  | step :: steps' =>
      match step_outcome step with
      | Ok _ => walkOutcome steps'
      | Throw message => Throw message
      | Hang => Hang
      end
  end.

(** The progress the hook shows after [replayWalk]: that of the last
    acknowledged step. *)
Fixpoint walkProgress (totalSize : Z) (steps : list WalkStep)
    (current : option UploadProgress) : option UploadProgress :=
  match steps with
  | [] => current
  | step :: steps' =>
      match step_outcome step with
      | Ok result => walkProgress totalSize steps' (Some (progressData result totalSize))
      | _ => current
      end
  end.

(** The acknowledgments in a trace: the results of its accepted [PUT]s. *)
Definition acksIn (net : Network) (t : list Event) : list ChunkUploadResult :=
  omap (fun e =>
          match e with
          | Net (Fetch c _ a) =>
              match net c a with Accepted r => Some r | Failed _ => None end
          | _ => None
          end) t.

(** What follows the first [PUT] that was acknowledged with [done]. *)
Fixpoint afterFirstDone (net : Network) (t : list Event) : list Event :=
  match t with
  | [] => []
  | Net (Fetch c _ a) :: t' =>
      match net c a with
      | Accepted r => if done r then t' else afterFirstDone net t'
      | Failed _ => afterFirstDone net t'
      end
  | _ :: t' => afterFirstDone net t'
  end.

Definition nondecreasing (l : list Z) : Prop :=
  forall (i j : nat) x y, (i <= j)%nat -> l !! i = Some x -> l !! j = Some y -> x <= y.

(** The backend's acknowledged-byte counts do not decrease from one chunk of
    a session to a later one.  [answers i a] is the backend's answer to
    attempt [a] of chunk [i] of the session, whose chunks are [first], ...,
    [count - 1]. *)
Definition monotoneBackend (answers : Z -> Z -> Response) (first count : Z)
  : Prop :=
  forall i j a a' r r',
    first <= i -> i <= j -> j < count ->
    answers i a = Accepted r -> answers j a' = Accepted r' ->
    uploadedBytes r <= uploadedBytes r'.

(** No acknowledgment of the session carries the count 0, which
    [UploadManager] would replace by its own [endByte + 1]. *)
Definition countingBackend (answers : Z -> Z -> Response) (first count : Z)
  : Prop :=
  forall i a r,
    first <= i -> i < count -> answers i a = Accepted r -> uploadedBytes r <> 0.

(** The counts [UploadManager] takes from the accepted [PUT]s of a trace. *)
Definition managerAcksIn (answers : Z -> Z -> Response) (t : list Manager.Event)
  : list Z :=
  omap (fun e =>
          match e with
          | Manager.Fetch i range a =>
              match answers i a with
              | Accepted r => Some (Manager.acknowledged r (lastByte range))
              | Failed _ => None
              end
          | _ => None
          end) t.

(** In a trace of the single-stream hook every accepted [PUT] is followed
    at once by a progress report: the count of the reply, the payload size
    and the percentage of it the count makes. *)
Fixpoint reportedAtOnce (net : Network) (totalSize : Z) (t : list Event) : Prop :=
  match t with
  | [] => True
  | Net (Fetch c _ a) :: t' =>
      match net c a with
      | Accepted r =>
          match t' with
          | OnProgress p :: _ =>
              p = mkProgress (uploadedBytes r) totalSize
                    (percentageOf (uploadedBytes r) totalSize)
          | _ => False
          end
      | Failed _ => True
      end /\ reportedAtOnce net totalSize t'
  | _ :: t' => reportedAtOnce net totalSize t'
  end.

(** The same in a trace of [UploadManager]: every accepted [PUT] is
    followed at once by a progress report that carries the count taken
    from its reply and the percentage of [totalSize] this count makes. *)
Fixpoint managerReportedAtOnce (answers : Z -> Z -> Response) (totalSize : Z)
    (t : list Manager.Event) : Prop :=
  match t with
  | [] => True
  | Manager.Fetch i range a :: t' =>
      match answers i a with
      | Accepted r =>
          match t' with
          | Manager.Progress _ n percent :: _ =>
              n = Manager.acknowledged r (lastByte range) /\
              percent = percentageOf n totalSize
          | _ => False
          end
      | Failed _ => True
      end /\ managerReportedAtOnce answers totalSize t'
  | _ :: t' => managerReportedAtOnce answers totalSize t'
  end.

(** The world [replayWalk] leaves behind. *)
Definition afterWalk (totalSize : Z) (steps : list WalkStep) (w : World) : World :=
  mkWorld
    (mkHook (state (hook w))
       (walkProgress totalSize steps (progress (hook w)))
       (errorMessage (hook w)) (recordingId (hook w)) (playbackUrl (hook w)))
    (sessionStorage w)
    (trace w ++ walkEvents totalSize steps).

(** ** Sample environments *)

(** A network on which every [PUT] fails with the same message. *)
Definition alwaysFailing (message : string) : Network :=
  fun _ _ => Failed message.

(** An [UploadManager] upload of 20 bytes in chunks of 8, and a backend that
    has acknowledged nothing and refuses every chunk. *)
Definition sampleManagerUpload : Manager.World :=
  Manager.mkWorld (Manager.mkState (mkBlob 0 20) 8 Manager.uploading 0 None) [].

Definition refusingManagerEnv : Manager.Env :=
  Manager.mkEnv (Ok (mkStatus 0 8 20))
    (fun _ _ => Failed "Chunk upload failed: 503 Service Unavailable")
    (Ok None) (fun _ => false) (fun _ _ => false).

(** An [UploadManager] backend that acknowledges every chunk, reports [done]
    on the last one, and then fails the completion call. *)
Definition completionFailingManagerEnv : Manager.Env :=
  Manager.mkEnv (Ok (mkStatus 0 8 20))
    (fun i _ => Accepted (mkResult (Z.min ((i + 1) * 8) 20) (20 <=? (i + 1) * 8)))
    (Throw "Failed to complete upload: 500 Internal Server Error")
    (fun _ => false) (fun _ _ => false).

(** A network that acknowledges every [PUT] with the whole payload and
    [done]. *)
Definition eagerNetwork : Network :=
  fun c _ => Accepted (mkResult (call_totalSize c) true).

(** The call [uploadChunk] makes for chunk [i] of the single-stream walk,
    and the calls of the two stream walks. *)
Definition hookCall (chunks : list Blob) (totalSize : Z) (recordingId : string)
    (chunkSize i : Z) : ChunkCall :=
  mkCall UPLOAD_CHUNK recordingId (chunkAt chunks i) i chunkSize totalSize None.

Definition streamCall (stream : Dual.Stream) (chunks : list Blob) (totalSize : Z)
    (recordingId : string) (chunkSize i : Z) : ChunkCall :=
  mkCall
    match stream with
    | Dual.ScreenStream => UPLOAD_SCREEN_CHUNK
    | Dual.WebcamStream => UPLOAD_WEBCAM_CHUNK
    end recordingId (chunkAt chunks i) i chunkSize totalSize None.

(** A backend of the single-stream hook whose access token reads as the
    number 3, so that [uploadChunk] is called with a budget of three. *)
Definition numericTokenBackend (net : Network) : Backend :=
  mkBackend true (Ok "3") (fun _ => Ok (mkInit "rec" 8))
    (fun _ => Ok (mkStatus 0 8 20))
    (fun id _ => Ok (mkComplete id "completed" (Some "https://playback")))
    net.

(** A network whose acknowledged-byte count shrinks from chunk to chunk. *)
Definition shrinkingNetwork : Network :=
  fun c _ => Accepted (mkResult (16 - 4 * call_chunkIndex c) false).

Definition shrinkingManagerEnv : Manager.Env :=
  Manager.mkEnv (Ok (mkStatus 0 8 20))
    (fun i _ => Accepted (mkResult (16 - 4 * i) false))
    (Ok None) (fun _ => false) (fun _ _ => false).

(** An [UploadManager] backend that acknowledges every chunk with the bytes
    up to its end, reports [done] on the last one and completes the
    upload. *)
Definition healthyManagerEnv : Manager.Env :=
  Manager.mkEnv (Ok (mkStatus 0 8 20))
    (fun i _ => Accepted (mkResult (Z.min ((i + 1) * 8) 20) (20 <=? (i + 1) * 8)))
    (Ok (Some "https://playback")) (fun _ => false) (fun _ _ => false).

Definition managerProgressOf (t : list Manager.Event) : list Z :=
  omap (fun e => match e with
                 | Manager.Progress Manager.uploading n _ => Some n
                 | _ => None
                 end) t.

Definition managerCompletionsOf (t : list Manager.Event) : list Z :=
  omap (fun e => match e with Manager.CallComplete n => Some n | _ => None end) t.

(** The [PUT]s of [UploadManager] in a trace: chunk index, [Content-Range]
    and attempt. *)
Definition managerFetchesOf (t : list Manager.Event)
  : list (Z * ContentRange * Z) :=
  omap (fun e => match e with
                 | Manager.Fetch i range attempt => Some (i, range, attempt)
                 | _ => None
                 end) t.

(** [n] is the count [UploadManager] takes from an accepted [PUT] of a
    chunk whose index satisfies [P]. *)
Definition takenFrom (answers : Z -> Z -> Response) (P : Z -> Prop) (n : Z)
  : Prop :=
  exists j a r e,
    P j /\ answers j a = Accepted r /\ n = Manager.acknowledged r e.

(** What a stretch [t] of the trace of [UploadManager] says about progress:
    every accepted [PUT] is reported at once; every report made while
    uploading is such a report; the accepted [PUT]s are those of chunks
    in [P]; and the counts do not decrease on a backend whose counts do
    not. *)
Definition progressReports (answers : Z -> Z -> Response)
    (totalSize first count : Z) (P : Z -> Prop) (t : list Manager.Event)
  : Prop :=
  managerReportedAtOnce answers totalSize t /\
  managerProgressOf t `sublist_of` managerAcksIn answers t /\
  Forall (takenFrom answers P) (managerAcksIn answers t) /\
  (countingBackend answers first count ->
   monotoneBackend answers first count ->
   (forall j, P j -> first <= j < count) ->
   nondecreasing (managerAcksIn answers t)).

(** A backend that has every byte of a 20-byte recording and completes
    it. *)
Definition completedBackend : Backend :=
  mkBackend true (Ok "eyJhbGciOiJSUzI1NiJ9.e30.c2ln") (fun _ => Ok (mkInit "rec" 8))
    (fun _ => Ok (mkStatus 20 8 20))
    (fun id _ => Ok (mkComplete id "completed" (Some "https://playback")))
    (alwaysFailing "offline").

(** The store of a tab that holds the identity of an interrupted upload. *)
Definition storedIdentity : gmap string string :=
  {[ SESSION_STORAGE_KEY := "rec" ]}.

(** Scenario C: the webcam stream is one chunk and is acknowledged; the
    screen stream is three chunks, its first is acknowledged and every
    [PUT] of its second fails. *)
Definition scenarioCNetwork : Network :=
  fun c _ =>
    match call_endpoint c with
    | UPLOAD_WEBCAM_CHUNK => Accepted (mkResult 8 true)
    | UPLOAD_SCREEN_CHUNK =>
        if call_chunkIndex c =? 0 then Accepted (mkResult 8 false)
        else Failed "Screen chunk upload failed: 503 Service Unavailable"
    | UPLOAD_CHUNK => Failed "not a dual endpoint"
    end.

(** A network that acknowledges the chunks of the screen stream and fails
    every [PUT] of the webcam stream. *)
Definition webcamFailingNetwork : Network :=
  fun c _ =>
    match call_endpoint c with
    | UPLOAD_WEBCAM_CHUNK =>
        Failed "Webcam chunk upload failed: 503 Service Unavailable"
    | _ =>
        Accepted (mkResult (Z.min ((call_chunkIndex c + 1) * call_chunkSize c)
                              (call_totalSize c)) false)
    end.

Definition dualBackend (net : Network) : Dual.Backend :=
  Dual.mkBackend (fun _ _ _ _ => Ok (mkInit "rec" 8))
    (fun id => Ok (Dual.mkDualComplete id "completed" (Some "https://playback") 28))
    net.

Definition dualOptions : option Dual.Options :=
  Some (Dual.mkOptions 12 (Some (Dual.mkPosition 60 60))).


(** A network that acknowledges every [PUT] with the bytes up to the end
    of its chunk and reports [done] on the last chunk. *)
Definition healthyNetwork : Network :=
  fun c _ =>
    let end_ := Z.min ((call_chunkIndex c + 1) * call_chunkSize c) (call_totalSize c) in
    Accepted (mkResult end_ (call_totalSize c <=? end_)).


(** ** Direct chunked upload ([chunked-upload.ts], [useChunkedUpload]) *)

Module Chunked.

(** What the resumable URL answers to one [PUT]: a status line with the
    body text ([None] when the body cannot be read), or a rejected
    [fetch]. *)
Inductive GcsResponse :=
| Status (code : Z) (statusText : string) (errorText : option string)
| Unreachable (message : string).

(** The storage service answers each chunk. *)
Definition Gcs := ChunkMetadata -> GcsResponse.

(** [response.ok] *)
Definition ok (code : Z) : bool := (200 <=? code) && (code <=? 299).

Inductive UploadState :=
| idle | initializing | chunking | uploading | completing | completed | error.

Record UploadProgress := mkProgress {
  uploadedBytes : Z;
  totalBytes : Z;
  (** [None] stands for the [NaN] or [Infinity] of a division by 0 *)
  percentage : option Q;
  p_chunkIndex : Z;
  p_totalChunks : Z
}.

Record InitVideoResult := mkInitVideo {
  iv_recordingId : string;
  iv_uploadUrl : string;
  iv_gcsFilePath : string
}.

Record Backend := mkBackend {
  initVideoUpload : Z -> Outcome InitVideoResult;
  completeVideoUpload : string -> Z -> Outcome CompleteResult;
  gcs : Gcs
}.

Inductive Event :=
| SetState (s : UploadState)
| CallInit (fileSize : Z)
| CallComplete (recordingId : string) (size : Z)
| Put (range : ContentRange) (contentLength : Z)
| OnProgress (p : UploadProgress)
| OnChunkComplete (chunkIndex totalChunks : Z)
| OnError (message : string) (chunkIndex : Z).

Record World := mkWorld {
  state : UploadState;
  progress : option UploadProgress;
  errorMessage : option string;
  recordingId : option string;
  playbackUrl : option string;
  trace : list Event
}.

Definition useChunkedUpload : World := mkWorld idle None None None None [].

Open Scope session_scope.

Definition emit (e : Event) : M World unit :=
  modify (fun w =>
    mkWorld (state w) (progress w) (errorMessage w) (recordingId w)
      (playbackUrl w) (trace w ++ [e])).

Definition setState (s : UploadState) : M World unit :=
  modify (fun w =>
    mkWorld s (progress w) (errorMessage w) (recordingId w) (playbackUrl w)
      (trace w ++ [SetState s])).

Definition setProgress (p : option UploadProgress) : M World unit :=
  modify (fun w =>
    mkWorld (state w) p (errorMessage w) (recordingId w) (playbackUrl w) (trace w)).

Definition setError (e : option string) : M World unit :=
  modify (fun w =>
    mkWorld (state w) (progress w) e (recordingId w) (playbackUrl w) (trace w)).

Definition setRecordingId (id : option string) : M World unit :=
  modify (fun w =>
    mkWorld (state w) (progress w) (errorMessage w) id (playbackUrl w) (trace w)).

Definition setPlaybackUrl (url : option string) : M World unit :=
  modify (fun w =>
    mkWorld (state w) (progress w) (errorMessage w) (recordingId w) url (trace w)).

(** The callbacks of [ChunkedUploadOptions]. *)
Record Callbacks := mkCallbacks {
  onProgress : UploadProgress -> M World unit;
  onChunkComplete : Z -> Z -> M World unit;
  onError : string -> Z -> M World unit
}.

(** [bytes start-end/total] of a chunk, [endByte] being exclusive. *)
Definition rangeOf (md : ChunkMetadata) : ContentRange :=
  mkRange (startByte md) (endByte md - 1) (totalSize md).

(** [uploadChunkToGCS(chunkData, resumableUrl)]: a status that is neither
    2xx nor 308 is an error. *)
Definition uploadChunkToGCS (store : Gcs) (chunkData : ChunkData) : M World unit :=
  let md := metadata chunkData in
  emit (Put (rangeOf md) (size (blob chunkData)));;
  match store md with
  | Unreachable message => throw message
  | Status code statusText errorText =>
      if negb (ok code) && negb (code =? 308) then
        throw ("Failed to upload chunk " +:+ pretty (chunkIndex md) +:+ ": "
               +:+ pretty code +:+ " " +:+ statusText +:+ " - "
               +:+ default "Unknown error" errorText)
      else ret tt
  end.

(** [(uploadedBytes / totalBytes) * 100] *)
Definition percentageOf' (uploadedBytes totalBytes : Z) : option Q :=
  if totalBytes =? 0 then None else Some (percentageOf uploadedBytes totalBytes).

(** The loop of [uploadChunksSequentially] from chunk [i], with
    [uploadedBytes] counted so far. *)
Fixpoint sequentialLoop (store : Gcs) (callbacks : Callbacks)
    (totalBytes totalChunks : Z) (chunks : list ChunkData) (i uploadedBytes : Z)
  : M World unit :=
  match chunks with
  | [] => ret tt
  | chunkData :: chunks' =>
      uploadedBytes' <-
        tryCatch
          (uploadChunkToGCS store chunkData;;
           let uploadedBytes' := uploadedBytes + md_chunkSize (metadata chunkData) in
           onProgress callbacks
             (mkProgress uploadedBytes' totalBytes
                (percentageOf' uploadedBytes' totalBytes) i totalChunks);;
           onChunkComplete callbacks i totalChunks;;
           ret uploadedBytes')
          (fun message => onError callbacks message i;; throw message);;
      sequentialLoop store callbacks totalBytes totalChunks chunks' (i + 1)
        uploadedBytes'
  end.

(** [uploadChunksSequentially(chunks, options)] *)
Definition uploadChunksSequentially (store : Gcs) (chunks : list ChunkData)
    (resumableUrl : option string) (callbacks : Callbacks) : M World unit :=
  if negb (truthy resumableUrl) then
    throw "Resumable URL is required for GCS upload"
  else
    let totalBytes := from_option (fun c => totalSize (metadata c)) 0 (head chunks) in
    sequentialLoop store callbacks totalBytes (Z.of_nat (length chunks)) chunks 0 0.

(** The callbacks [useChunkedUpload] passes: the progress is stored, then
    the caller's callbacks are called. *)
Definition hookCallbacks : Callbacks :=
  mkCallbacks
    (fun p => setProgress (Some p);; emit (OnProgress p))
    (fun i n => emit (OnChunkComplete i n))
    (fun message i => emit (OnError message i)).

(** [upload(blob, options)] of [useChunkedUpload] *)
Definition upload (env : Backend) (b : Blob) (optChunkSize : option Z)
  : M World UploadReturn :=
  setError None;;
  setProgress None;;
  setRecordingId None;;
  setPlaybackUrl None;;
  tryCatch
    (setState initializing;;
     emit (CallInit (size b));;
     initResult <- await (initVideoUpload env (size b));;
     setRecordingId (Some (iv_recordingId initResult));;
     setState chunking;;
     let chunks := chunkBlob b optChunkSize in
     setState uploading;;
     uploadChunksSequentially (gcs env) chunks (Some (iv_uploadUrl initResult))
       hookCallbacks;;
     setState completing;;
     emit (CallComplete (iv_recordingId initResult) (size b));;
     completeResult <- await (completeVideoUpload env (iv_recordingId initResult)
                                (size b));;
     (if truthy (complete_playbackUrl completeResult)
      then setPlaybackUrl (complete_playbackUrl completeResult) else ret tt);;
     setState completed;;
     ret (complete_recordingId completeResult,
          complete_playbackUrl completeResult))
    (fun message =>
       setError (Some message);;
       setState error;;
       throw message).

(** [reset()] *)
Definition reset : M World unit :=
  setState idle;;
  setProgress None;;
  setError None;;
  setRecordingId None;;
  setPlaybackUrl None.

Close Scope session_scope.

Definition putsOf (t : list Event) : list ContentRange :=
  omap (fun e => match e with Put r _ => Some r | _ => None end) t.

Definition statesOf (t : list Event) : list UploadState :=
  omap (fun e => match e with SetState s => Some s | _ => None end) t.

Definition progressOf (t : list Event) : list UploadProgress :=
  omap (fun e => match e with OnProgress p => Some p | _ => None end) t.

Definition errorsOf (t : list Event) : list (string * Z) :=
  omap (fun e => match e with OnError m i => Some (m, i) | _ => None end) t.

(** The storage service accepts the chunk [md]. *)
Definition accepts (store : Gcs) (md : ChunkMetadata) : bool :=
  match store md with
  | Status code _ _ => ok code || (code =? 308)
  | Unreachable _ => false
  end.

(** The error [uploadChunkToGCS] throws for a chunk that is not accepted. *)
Definition refusal (store : Gcs) (md : ChunkMetadata) : string :=
  match store md with
  | Status code statusText errorText =>
      "Failed to upload chunk " +:+ pretty (chunkIndex md) +:+ ": "
      +:+ pretty code +:+ " " +:+ statusText +:+ " - "
      +:+ default "Unknown error" errorText
  | Unreachable message => message
  end.

(** The sizes of the chunks summed. *)
Definition sumSizes (chunks : list ChunkData) : Z :=
  foldr Z.add 0 ((fun c => md_chunkSize (metadata c)) <$> chunks).

Definition completionsOf (t : list Event) : list (string * Z) :=
  omap (fun e => match e with CallComplete id sz => Some (id, sz) | _ => None end) t.

Definition chunksDoneOf (t : list Event) : list Z :=
  omap (fun e => match e with OnChunkComplete i _ => Some i | _ => None end) t.

(** The [Content-Range] headers of a chunk sequence. *)
Definition rangesOf (chunks : list ChunkData) : list ContentRange :=
  (fun c => rangeOf (metadata c)) <$> chunks.

(** The byte counts [uploadChunksSequentially] reaches chunk after chunk,
    starting from [uploaded]. *)
Fixpoint runningTotals (uploaded : Z) (chunks : list ChunkData) : list Z :=
  match chunks with
  | [] => []
  | c :: chunks' =>
      let uploaded' := uploaded + md_chunkSize (metadata c) in
      uploaded' :: runningTotals uploaded' chunks'
  end.

(** The progress the hook shows: the last one reported, if any. *)
Definition lastReported (t : list Event) (current : option UploadProgress)
  : option UploadProgress :=
  match last (progressOf t) with
  | Some p => Some p
  | None => current
  end.

(** Every chunk of [chunks] is accepted by the storage service. *)
Definition allAccepted (store : Gcs) (chunks : list ChunkData) : Prop :=
  Forall (fun c => accepts store (metadata c) = true) chunks.

(** A storage service that answers 308 to an intermediate chunk and 200 to
    the last one, and one that answers 503 to chunk [k]. *)
Definition resumableGcs : Gcs :=
  fun md =>
    if endByte md <? totalSize md then Status 308 "Resume Incomplete" None
    else Status 200 "OK" None.

Definition unavailableAt (k : Z) : Gcs :=
  fun md =>
    if chunkIndex md =? k then Status 503 "Service Unavailable" (Some "backend error")
    else resumableGcs md.

Definition sampleBackend (store : Gcs) : Backend :=
  mkBackend
    (fun _ => Ok (mkInitVideo "rec" "https://storage.example/upload" "recordings/rec.webm"))
    (fun id _ => Ok (mkComplete id "completed" (Some "https://playback")))
    store.

End Chunked.

(** * Properties of the slicer *)

Section Slicer.

Lemma Math_ceil_div_pos a b : 0 < b -> Math_ceil_div a b = (a + b - 1) / b.
Proof.
  intros Hb. unfold Math_ceil_div.
  assert (H1 : - a = b * (- a / b) + (- a) mod b) by (apply Z.div_mod; lia).
  pose proof (Z.mod_pos_bound (- a) b Hb) as H2.
  apply Z.div_unique_pos with (r := b - 1 - (- a) mod b); [lia | nia].
Qed.

Lemma Math_ceil_div_zero b : 0 < b -> Math_ceil_div 0 b = 0.
Proof. intros. unfold Math_ceil_div. simpl. rewrite Z.div_0_l; lia. Qed.

Lemma Math_ceil_div_small a b : 0 < a <= b -> Math_ceil_div a b = 1.
Proof.
  intros H. rewrite Math_ceil_div_pos by lia.
  symmetry. apply Z.div_unique_pos with (r := a - 1); lia.
Qed.

Lemma Math_ceil_div_step a b :
  0 < b -> Math_ceil_div (a + b) b = 1 + Math_ceil_div a b.
Proof.
  intros H. rewrite !Math_ceil_div_pos by lia.
  replace (a + b + b - 1) with (a + b - 1 + 1 * b) by lia.
  rewrite Z.div_add by lia. lia.
Qed.

Lemma Math_ceil_div_bounds a b :
  0 < b -> (Math_ceil_div a b - 1) * b < a <= Math_ceil_div a b * b.
Proof.
  intros Hb. unfold Math_ceil_div.
  assert (H1 : - a = b * (- a / b) + (- a) mod b) by (apply Z.div_mod; lia).
  pose proof (Z.mod_pos_bound (- a) b Hb) as H2. nia.
Qed.

Lemma Math_ceil_div_nonneg a b : 0 < b -> 0 <= a -> 0 <= Math_ceil_div a b.
Proof. intros Hb Ha. pose proof (Math_ceil_div_bounds a b Hb). nia. Qed.

Lemma slice_in_range b s e :
  0 <= s <= e -> e <= size b -> slice b s e = mkBlob (offset b + s) (e - s).
Proof.
  intros Hs He. unfold slice, relativePos.
  destruct (Z.ltb_spec s 0), (Z.ltb_spec e 0); try lia.
  f_equal; lia.
Qed.

Lemma Math_ceil_div_unique a b n :
  0 < b -> (n - 1) * b < a <= n * b -> Math_ceil_div a b = n.
Proof.
  intros Hb H. pose proof (Math_ceil_div_bounds a b Hb). nia.
Qed.

Lemma sliceLoop_spec fuel : forall b chunkSize k,
  0 < chunkSize -> 0 <= k -> k * chunkSize <= size b ->
  (Z.to_nat (Math_ceil_div (size b) chunkSize - k) < fuel)%nat ->
  sliceLoop fuel b chunkSize (k * chunkSize)
  = Some (nthChunk b chunkSize <$>
            seqZ k (Math_ceil_div (size b) chunkSize - k)).
Proof.
  induction fuel as [|fuel IH]; intros b c k Hc Hk Hle Hfuel; [lia|].
  pose proof (Math_ceil_div_bounds (size b) c Hc) as Hn.
  set (n := Math_ceil_div (size b) c) in *.
  cbn [sliceLoop]. destruct (Z.ltb_spec (k * c) (size b)) as [Hlt|Hge].
  - assert (Hkn : k < n) by nia.
    rewrite (seqZ_cons k (n - k)) by lia. cbn [fmap list_fmap].
    rewrite slice_in_range by lia.
    destruct (Z.le_gt_cases ((k + 1) * c) (size b)) as [Hnext|Hlast].
    + replace (Z.min (k * c + c) (size b)) with ((k + 1) * c) by lia.
      rewrite IH by (fold n; lia). fold n. cbn.
      replace (Z.succ k) with (k + 1) by lia.
      replace (Z.pred (n - k)) with (n - (k + 1)) by lia.
      unfold nthChunk at 2.
      replace (Z.min c (size b - k * c)) with ((k + 1) * c - k * c) by lia.
      reflexivity.
    + replace (Z.min (k * c + c) (size b)) with (size b) by lia.
      assert (n = k + 1).
      { apply Math_ceil_div_unique; [lia|].
        replace (k + 1 - 1) with k by lia. lia. }
      subst n.
      destruct fuel as [|fuel]; [lia|]. cbn [sliceLoop].
      rewrite Z.ltb_irrefl. cbn.
      replace (Z.pred (Math_ceil_div (size b) c - k)) with 0 by lia.
      cbn. unfold nthChunk.
      replace (Z.min c (size b - k * c)) with (size b - k * c) by lia.
      reflexivity.
  - assert (n = k) by (apply Math_ceil_div_unique; nia).
    replace (n - k) with 0 by lia. reflexivity.
Qed.

Lemma sliceBlobIntoChunks_spec fuel b chunkSize :
  0 < chunkSize -> 0 <= size b ->
  (Z.to_nat (Math_ceil_div (size b) chunkSize) < fuel)%nat ->
  sliceBlobIntoChunks fuel b chunkSize
  = Some (nthChunk b chunkSize <$> seqZ 0 (Math_ceil_div (size b) chunkSize)).
Proof.
  intros Hc Hs Hfuel. unfold sliceBlobIntoChunks.
  change 0 with (0 * chunkSize) at 1.
  rewrite sliceLoop_spec by lia. do 3 f_equal. lia.
Qed.

Lemma nthChunk_lookup b chunkSize n (k : nat) c :
  (nthChunk b chunkSize <$> seqZ 0 n) !! k = Some c <->
  Z.of_nat k < n /\ c = nthChunk b chunkSize (Z.of_nat k).
Proof.
  rewrite list_lookup_fmap, fmap_Some. split.
  - intros (j & Hj & ->). apply lookup_seqZ in Hj as [-> ?].
    split; [lia|]. f_equal.
  - intros [Hk ->]. exists (Z.of_nat k). split; [|reflexivity].
    apply lookup_seqZ. lia.
Qed.

Lemma totalLength_nthChunks b chunkSize (m : nat) : forall k,
  0 < chunkSize -> 0 <= k -> k * chunkSize <= size b ->
  Math_ceil_div (size b) chunkSize - k = Z.of_nat m ->
  totalLength (nthChunk b chunkSize <$> seqZ k (Z.of_nat m))
  = size b - k * chunkSize.
Proof.
  induction m as [|m IH]; intros k Hc Hk Hle Hn;
    pose proof (Math_ceil_div_bounds (size b) chunkSize Hc) as Hb.
  - assert (E : Math_ceil_div (size b) chunkSize = k) by lia.
    rewrite E in Hb. rewrite seqZ_nil by lia. cbn. lia.
  - rewrite seqZ_cons by lia. unfold totalLength in *. cbn.
    replace (Z.pred (Z.of_nat (S m))) with (Z.of_nat m) by lia.
    destruct (Z.le_gt_cases ((k + 1) * chunkSize) (size b)) as [Hnext|Hlast].
    + replace (Z.succ k) with (k + 1) by lia.
      rewrite IH by lia. lia.
    + assert (Math_ceil_div (size b) chunkSize = k + 1).
      { apply Math_ceil_div_unique; [lia|].
        replace (k + 1 - 1) with k by lia. nia. }
      assert (m = 0%nat) by lia. subst m.
      rewrite seqZ_nil by lia. cbn. lia.
Qed.

End Slicer.

(** [chunkBlob] in closed form. *)
Lemma chunkBlob_spec b chunkSize :
  0 < chunkSize -> 0 <= size b ->
  let n := Math_ceil_div (size b) chunkSize in
  chunkBlob b (Some chunkSize)
  = (fun k =>
       let end_ := Z.min (k * chunkSize + chunkSize) (size b) in
       mkChunkData
         (mkChunkMetadata k n (end_ - k * chunkSize) (size b) (k * chunkSize) end_)
         (nthChunk b chunkSize k)) <$> seqZ 0 n.
Proof.
  intros HC HS n.
  pose proof (Math_ceil_div_bounds (size b) chunkSize HC) as Hb. fold n in Hb.
  unfold chunkBlob.
  assert (Hcs : chunkSizeOption (Some chunkSize) = chunkSize).
  { cbn. destruct (Z.eqb_spec chunkSize 0); [lia|reflexivity]. }
  rewrite Hcs. fold n.
  apply list_fmap_ext. intros i k [-> Hk]%lookup_seqZ.
  rewrite Z.add_0_l. cbv zeta.
  assert (H0 : 0 <= Z.of_nat i * chunkSize) by nia.
  assert (H1 : Z.of_nat i * chunkSize < size b) by nia.
  rewrite slice_in_range by lia. unfold nthChunk. cbn [size].
  f_equal. f_equal. lia.
Qed.

(** C1. For a payload of size [S >= 0] and a chunk size [C > 0] the slicer
    [sliceBlobIntoChunks] returns (given fuel for its [ceil(S/C)]
    iterations) exactly [ceil(S/C)] chunks, and [chunkBlob] returns the
    same chunks, each with metadata that gives its index, the chunk count,
    the payload size and its byte range [[startByte, endByte)] with
    [startByte = k * C] and [endByte = min(startByte + C, S)], which is the
    span of its blob.  Chunk [k] starts at offset [k * C], so the chunks
    are ordered by ascending start offset; each chunk starts where its
    predecessor ends, the first starts at the payload's start and the last
    ends at its end; earlier chunks end before later ones start; the
    lengths sum to [S]; and the last chunk has length
    [S - (ceil(S/C) - 1) * C]. *)
Theorem slicer_partitions_payload (fuel : nat) (b : Blob) (chunkSize : Z) :
  0 < chunkSize -> 0 <= size b ->
  (Z.to_nat (Math_ceil_div (size b) chunkSize) < fuel)%nat ->
  exists chunks,
    sliceBlobIntoChunks fuel b chunkSize = Some chunks /\
    blob <$> chunkBlob b (Some chunkSize) = chunks /\
    (forall (k : nat) chunkData,
       chunkBlob b (Some chunkSize) !! k = Some chunkData ->
       let md := metadata chunkData in
       chunkIndex md = Z.of_nat k /\
       totalChunks md = Math_ceil_div (size b) chunkSize /\
       totalSize md = size b /\
       startByte md = Z.of_nat k * chunkSize /\
       endByte md = Z.min (startByte md + chunkSize) (size b) /\
       md_chunkSize md = endByte md - startByte md /\
       offset (blob chunkData) = offset b + startByte md /\
       blobEnd (blob chunkData) = offset b + endByte md) /\
    Z.of_nat (length chunks) = Math_ceil_div (size b) chunkSize /\
    (forall (k : nat) c, chunks !! k = Some c ->
       offset c = offset b + Z.of_nat k * chunkSize /\ 0 < size c <= chunkSize) /\
    (forall (k : nat) c c', chunks !! k = Some c -> chunks !! S k = Some c' ->
       offset c' = blobEnd c) /\
    (forall (i j : nat) ci cj, (i < j)%nat ->
       chunks !! i = Some ci -> chunks !! j = Some cj ->
       blobEnd ci <= offset cj) /\
    (forall c, head chunks = Some c -> offset c = offset b) /\
    (forall c, last chunks = Some c ->
       blobEnd c = blobEnd b /\
       size c = size b - (Math_ceil_div (size b) chunkSize - 1) * chunkSize) /\
    totalLength chunks = size b.
Proof.
  intros Hc Hs Hfuel.
  pose proof (Math_ceil_div_bounds (size b) chunkSize Hc) as Hb.
  pose proof (Math_ceil_div_nonneg (size b) chunkSize Hc Hs) as Hn0.
  pose proof (chunkBlob_spec b chunkSize Hc Hs) as Hchunked. cbv zeta in Hchunked.
  set (n := Math_ceil_div (size b) chunkSize) in *.
  exists (nthChunk b chunkSize <$> seqZ 0 n).
  assert (Hlen : Z.of_nat (length (nthChunk b chunkSize <$> seqZ 0 n)) = n).
  { rewrite length_fmap, length_seqZ. lia. }
  assert (Hsz : forall k : nat, Z.of_nat k < n ->
            0 < size (nthChunk b chunkSize (Z.of_nat k)) <= chunkSize).
  { intros k Hk. unfold nthChunk. cbn. nia. }
  split; [apply sliceBlobIntoChunks_spec; assumption|].
  split; [rewrite Hchunked, <- list_fmap_compose; reflexivity|].
  split.
  { intros k chunkData. rewrite Hchunked, list_lookup_fmap, fmap_Some.
    intros (i & [-> Hk]%lookup_seqZ & ->). rewrite Z.add_0_l.
    unfold blobEnd, nthChunk. cbn. repeat split; nia. }
  split; [exact Hlen|].
  split; [|split; [|split; [|split; [|split]]]].
  - intros k c [Hk ->]%nthChunk_lookup. split; [reflexivity|auto].
  - intros k c c' [Hk ->]%nthChunk_lookup [Hk' ->]%nthChunk_lookup.
    unfold blobEnd, nthChunk. cbn [offset size]. nia.
  - intros i j ci cj Hij [Hi ->]%nthChunk_lookup [Hj ->]%nthChunk_lookup.
    unfold blobEnd, nthChunk. cbn [offset size]. nia.
  - intros c. rewrite head_lookup. intros [_ ->]%nthChunk_lookup.
    unfold nthChunk. cbn. lia.
  - intros c. rewrite last_lookup. intros [Hk ->]%nthChunk_lookup.
    assert (Hk' : Z.of_nat (Init.Nat.pred (length (nthChunk b chunkSize <$> seqZ 0 n)))
                  = n - 1) by lia.
    rewrite Hk'. unfold blobEnd, nthChunk. cbn [offset size]. nia.
  - replace n with (Z.of_nat (Z.to_nat n)) by lia.
    rewrite totalLength_nthChunks; fold n; lia.
Qed.

(** Witness for C1: scenario A, 20,000,000 bytes in chunks of 8,000,000,
    cut by both slicers. *)
Lemma slicer_partitions_payload_witness :
  exists chunks,
    sliceBlobIntoChunks 4 (mkBlob 0 20000000) 8000000 = Some chunks /\
    blob <$> chunkBlob (mkBlob 0 20000000) (Some 8000000) = chunks /\
    Z.of_nat (length chunks) = Math_ceil_div 20000000 8000000 /\
    totalLength chunks = 20000000.
Proof.
  destruct (slicer_partitions_payload 4 (mkBlob 0 20000000) 8000000)
    as (chunks & H1 & H2 & _ & H3 & _ & _ & _ & _ & _ & H4).
  - lia.
  - simpl; lia.
  - vm_compute; lia.
  - exists chunks. auto.
Defined.

(** Scenario A: the three chunks of a 20,000,000-byte payload. *)
Example scenario_A_chunks :
  sliceBlobIntoChunks 4 (mkBlob 0 20000000) 8000000
  = Some [mkBlob 0 8000000; mkBlob 8000000 8000000; mkBlob 16000000 4000000].
Proof. reflexivity. Qed.

(** * Properties of the resume calculator *)

Lemma calculateStartingChunkIndex_floor uploadedBytes chunkSize :
  0 < chunkSize ->
  calculateStartingChunkIndex uploadedBytes chunkSize * chunkSize <= uploadedBytes
  /\ uploadedBytes < (calculateStartingChunkIndex uploadedBytes chunkSize + 1) * chunkSize.
Proof.
  intros Hc. unfold calculateStartingChunkIndex, Math_floor_div.
  destruct (Z.eqb_spec uploadedBytes 0) as [->|_]; [lia|].
  pose proof (Z.div_mod uploadedBytes chunkSize ltac:(lia)).
  pose proof (Z.mod_pos_bound uploadedBytes chunkSize Hc). nia.
Qed.




(** * JavaScript numbers *)

(** What [Number(s)] returns for some strings. *)
Example StringToNumber_samples :
  StringToNumber "3" = Num 3 /\
  StringToNumber "1e1" = Num 10 /\
  StringToNumber "0x2" = Num 2 /\
  StringToNumber " 2 " = Num 2 /\
  StringToNumber "+3" = Num 3 /\
  StringToNumber "2.0" = Num 2 /\
  StringToNumber "" = Num 0 /\
  StringToNumber "-Infinity" = Infinity true /\
  StringToNumber "Infinity" = Infinity false /\
  StringToNumber "2.5" = NonInteger (5 # 2) /\
  StringToNumber "0.1" = NonInteger (3602879701896397 # 36028797018963968) /\
  StringToNumber "9007199254740993" = Num 9007199254740992 /\
  StringToNumber "1e400" = Infinity false /\
  StringToNumber "1_0" = NaN /\
  StringToNumber "12px" = NaN /\
  StringToNumber "-0x1" = NaN /\
  StringToNumber "eyJhbGciOiJSUzI1NiJ9.e30.c2ln" = NaN.
Proof. vm_compute. repeat split; reflexivity. Qed.

(** A percentage is a double: a third of the payload is reported as
    33.33333333333333, the double [2345624805922133 / 2^46], and not as
    [100 / 3]. *)
Example percentageOf_samples :
  percentageOf 1 3 = (2345624805922133 # 70368744177664)%Q /\
  percentageOf 8 20 = 40%Q /\
  percentageOf 16 20 = 80%Q /\
  percentageOf 20 20 = 100%Q.
Proof. vm_compute. repeat split; reflexivity. Qed.

(** * Properties of the chunk transport *)

Section Transport.

Variable net : Network.

Lemma allFailed_nil : allFailed net [].
Proof. intros c rng a H. inversion H. Qed.

Lemma allFailed_cons_fetch c rng a m effects :
  net c a = Failed m -> allFailed net effects ->
  allFailed net (Fetch c rng a :: effects).
Proof.
  intros Hm Hall c' rng' a' [Heq|Hin]%elem_of_cons; [|eauto].
  injection Heq as -> -> ->. eauto.
Qed.

Lemma allFailed_cons_timeout ms effects :
  allFailed net effects -> allFailed net (SetTimeout ms :: effects).
Proof.
  intros Hall c rng a [Heq|Hin]%elem_of_cons; [discriminate|eauto].
Qed.

Lemma attemptLoop_shape call maxRetries fallback fuel :
  forall attempt lastError,
    transportShape net call
      (attemptLoop net call maxRetries fallback fuel attempt lastError).
Proof.
  induction fuel as [|fuel IH]; intros attempt lastError; cbn [attemptLoop].
  - apply allFailed_nil.
  - destruct (lessThan attempt maxRetries); [|apply allFailed_nil].
    destruct (net call attempt) as [r|m] eqn:Hnet.
    + exists [], attempt. split; [reflexivity|]. split; [assumption|].
      apply allFailed_nil.
    + destruct (isLastAttempt attempt maxRetries).
      * unfold transportShape. cbn.
        eapply allFailed_cons_fetch; [eassumption|apply allFailed_nil].
      * specialize (IH (attempt + 1) (Some m)).
        destruct (attemptLoop net call maxRetries fallback fuel (attempt + 1)
                    (Some m)) as [o effects].
        unfold transportShape in *. cbn [fst snd] in *.
        destruct o as [r| |].
        -- destruct IH as (pre & a & -> & Ha & Hpre).
           exists (Fetch call (contentRange call) attempt
                     :: SetTimeout (2 ^ attempt * 1000) :: pre), a.
           split; [reflexivity|]. split; [assumption|].
           eapply allFailed_cons_fetch; [eassumption|].
           apply allFailed_cons_timeout. assumption.
        -- eapply allFailed_cons_fetch; [eassumption|].
           apply allFailed_cons_timeout. assumption.
        -- eapply allFailed_cons_fetch; [eassumption|].
           apply allFailed_cons_timeout. assumption.
Qed.

Lemma putWithRetry_shape call maxRetries fallback :
  transportShape net call (putWithRetry net call maxRetries fallback).
Proof. apply attemptLoop_shape. Qed.

(** The loop is entered with enough fuel: a transport call settles. *)
Lemma attemptLoop_settles call n fallback fuel :
  forall attempt lastError,
    (Z.to_nat (n - attempt) < fuel)%nat ->
    (attemptLoop net call (Num n) fallback fuel attempt lastError).1 <> Hang.
Proof.
  induction fuel as [|fuel IH]; intros attempt lastError Hfuel; [lia|].
  cbn [attemptLoop lessThan isLastAttempt].
  destruct (Z.ltb_spec attempt n); [|discriminate].
  destruct (net call attempt); [discriminate|].
  destruct (attempt =? n - 1); [discriminate|].
  specialize (IH (attempt + 1) (Some message) ltac:(lia)).
  destruct (attemptLoop net call (Num n) fallback fuel (attempt + 1)
              (Some message)). exact IH.
Qed.

Lemma attemptLoop_settles_fraction call q fallback fuel :
  forall attempt lastError,
    (Z.to_nat (1 + Qnum q / Z.pos (Qden q) - attempt) < fuel)%nat ->
    (attemptLoop net call (NonInteger q) fallback fuel attempt lastError).1 <> Hang.
Proof.
  induction fuel as [|fuel IH]; intros attempt lastError Hfuel; [lia|].
  cbn [attemptLoop lessThan isLastAttempt].
  unfold Qle_bool. cbn [Qnum Qden inject_Z].
  destruct (Z.leb_spec (Qnum q * 1) (attempt * Z.pos (Qden q))) as [|Hlt];
    cbn [negb]; [discriminate|].
  destruct (net call attempt); [discriminate|].
  assert (attempt <= Qnum q / Z.pos (Qden q)).
  { apply Z.div_le_lower_bound; lia. }
  specialize (IH (attempt + 1) (Some message) ltac:(lia)).
  destruct (attemptLoop net call (NonInteger q) fallback fuel (attempt + 1)
              (Some message)). exact IH.
Qed.

(** Unless the budget is [Infinity], a transport call settles. *)
Lemma putWithRetry_settles call maxRetries fallback :
  ToNumber (defaultArg maxRetries 3) <> Infinity false ->
  (putWithRetry net call maxRetries fallback).1 <> Hang.
Proof.
  unfold putWithRetry.
  destruct (ToNumber (defaultArg maxRetries 3)) as [n| |q|[]]; intros Hfinite;
    cbn [loopFuel].
  - apply attemptLoop_settles. lia.
  - cbn. discriminate.
  - apply attemptLoop_settles_fraction. lia.
  - cbn. discriminate.
  - congruence.
Qed.

(** With a budget that is not a number no [PUT] is made at all. *)
Lemma putWithRetry_NaN call maxRetries fallback :
  ToNumber (defaultArg maxRetries 3) = NaN ->
  putWithRetry net call maxRetries fallback = (Throw fallback, []).
Proof. intros H. unfold putWithRetry. rewrite H. reflexivity. Qed.

(** The default budget: at most three [PUT]s, after which the error of
    the third is thrown; the waits are 1000 ms and 2000 ms. *)
Lemma putWithRetry_default call fallback :
  let rng := contentRange call in
  putWithRetry net call ArgUndefined fallback =
  match net call 0 with
  | Accepted r => (Ok r, [Fetch call rng 0])
  | Failed _ =>
      match net call 1 with
      | Accepted r => (Ok r, [Fetch call rng 0; SetTimeout 1000; Fetch call rng 1])
      | Failed _ =>
          match net call 2 with
          | Accepted r =>
              (Ok r, [Fetch call rng 0; SetTimeout 1000; Fetch call rng 1;
                      SetTimeout 2000; Fetch call rng 2])
          | Failed m =>
              (Throw m, [Fetch call rng 0; SetTimeout 1000; Fetch call rng 1;
                         SetTimeout 2000; Fetch call rng 2])
          end
      end
  end.
Proof.
  intros rng. unfold putWithRetry.
  change (ToNumber (defaultArg ArgUndefined 3)) with (Num 3).
  change (loopFuel (Num 3)) with 4%nat.
  cbn [attemptLoop lessThan isLastAttempt].
  change (0 <? 3) with true. change (0 =? 3 - 1) with false.
  change (0 + 1) with 1. change (1 <? 3) with true.
  change (1 =? 3 - 1) with false. change (1 + 1) with 2.
  change (2 <? 3) with true. change (2 =? 3 - 1) with true.
  change (2 ^ 0 * 1000) with 1000. change (2 ^ 1 * 1000) with 2000.
  cbv iota. fold rng.
  destruct (net call 0); [reflexivity|].
  destruct (net call 1); [reflexivity|].
  destruct (net call 2); reflexivity.
Qed.

End Transport.

(** C4 (evaluation of the code where claim and code part ways).  With the
    default budget a transport call makes at most three [PUT]s and never
    waits 4000 ms; on a network that refuses every [PUT] it makes three
    [PUT]s, waits 1000 ms and 2000 ms between them and throws the error of
    the third, and the loop of [UploadManager] does the same, its third
    delay [retryDelays[2]] unused. *)
Theorem transport_stops_after_third_attempt :
  (forall net call fallback,
     let t := putWithRetry net call ArgUndefined fallback in
     (length (attemptsOf t.2) <= 3)%nat /\ 4000 ∉ delaysOf t.2) /\
  (forall message id chunk i chunkSize totalSize,
     let t := uploadChunk (alwaysFailing message) id chunk i chunkSize totalSize
                ArgUndefined in
     t.1 = Throw message /\
     attemptsOf t.2 = [0; 1; 2] /\ delaysOf t.2 = [1000; 2000]) /\
  (forall message id chunk i chunkSize totalSize,
     let t := uploadScreenChunk (alwaysFailing message) id chunk i chunkSize
                totalSize None ArgUndefined in
     t.1 = Throw message /\
     attemptsOf t.2 = [0; 1; 2] /\ delaysOf t.2 = [1000; 2000]) /\
  (let r := Manager.uploadChunks refusingManagerEnv sampleManagerUpload in
   r.1 = Throw "Chunk upload failed: 503 Service Unavailable" /\
   Manager.attemptsOf 0 (Manager.trace r.2) = [0; 1; 2] /\
   Manager.delaysOf (Manager.trace r.2) = [Some 1000; Some 2000] /\
   Manager.status (Manager.upload r.2) = Manager.error).
Proof.
  split; [|split; [|split]].
  - intros net call fallback t. subst t.
    rewrite putWithRetry_default.
    assert (Hno : forall l : list Z, l `sublist_of` [1000; 2000] -> 4000 ∉ l).
    { intros l Hl Hin. eapply elem_of_sublist in Hin; [|exact Hl].
      rewrite !elem_of_cons, elem_of_nil in Hin. lia. }
    destruct (net call 0);
      [cbn; split; [lia|apply Hno; repeat constructor]|].
    destruct (net call 1);
      [cbn; split; [lia|apply Hno; repeat constructor]|].
    destruct (net call 2); cbn; (split; [lia|apply Hno; repeat constructor]).
  - intros message id chunk i chunkSize totalSize t. subst t.
    unfold uploadChunk. rewrite putWithRetry_default. cbn. auto.
  - intros message id chunk i chunkSize totalSize t. subst t.
    unfold uploadScreenChunk. rewrite putWithRetry_default. cbn. auto.
  - vm_compute. auto.
Qed.

(** * Properties of the sequential chunk walk *)

Lemma world_eta (w : World) :
  w = mkWorld
        (mkHook (state (hook w)) (progress (hook w)) (errorMessage (hook w))
           (recordingId (hook w)) (playbackUrl (hook w)))
        (sessionStorage w) (trace w).
Proof. destruct w as [[] ? ?]. reflexivity. Qed.

Lemma replayWalk_spec totalSize steps : forall w,
  replayWalk totalSize steps w = (walkOutcome steps, afterWalk totalSize steps w).
Proof.
  induction steps as [|step steps IH]; intros w.
  - cbn. unfold ret, afterWalk. cbn. rewrite app_nil_r.
    f_equal. apply world_eta.
  - cbn [replayWalk walkOutcome]. unfold bind at 1. cbn [emitAll modify].
    unfold bind at 1. unfold await at 1.
    destruct (step_outcome step) as [result| |] eqn:Hout.
    + unfold bind at 1. cbn. rewrite IH. f_equal.
      unfold afterWalk. cbn. rewrite Hout. cbn.
      rewrite <- !app_assoc. reflexivity.
    + unfold afterWalk. cbn. rewrite Hout, app_nil_r.
      destruct w as [[] ? ?]. reflexivity.
    + unfold afterWalk. cbn. rewrite Hout, app_nil_r.
      destruct w as [[] ? ?]. reflexivity.
Qed.

Lemma uploadChunks_spec env blob id chunkSize start token w :
  uploadChunks env blob id chunkSize start token w =
  match slicedChunks blob chunkSize with
  | None => (Hang, w)
  | Some chunks =>
      let steps := hookWalk (network env) chunks (size blob) id chunkSize start token in
      (walkOutcome steps, afterWalk (size blob) steps w)
  end.
Proof.
  unfold uploadChunks. destruct (slicedChunks blob chunkSize); [|reflexivity].
  apply replayWalk_spec.
Qed.

Section Walk.

Variable net : Network.
Variable uploadFn : Z -> Transported.
Variable callOf : Z -> ChunkCall.
Hypothesis uploadFn_shape : forall i, transportShape net (callOf i) (uploadFn i).

Lemma afterFirstDone_failed pre rest :
  allFailed net pre ->
  afterFirstDone net ((Net <$> pre) ++ rest) = afterFirstDone net rest.
Proof.
  induction pre as [|e pre IH]; intros Hall; [reflexivity|].
  assert (Hpre : allFailed net pre).
  { intros c rng a Hin. apply (Hall c rng a). apply elem_of_cons. auto. }
  destruct e as [c rng a|ms]; cbn.
  - destruct (Hall c rng a) as [m Hm]; [apply elem_of_cons; auto|].
    rewrite Hm. auto.
  - auto.
Qed.

Lemma fetchesOf_failed pre :
  allFailed net pre -> acksIn net (Net <$> pre) = [].
Proof.
  induction pre as [|e pre IH]; intros Hall; [reflexivity|].
  assert (Hpre : allFailed net pre).
  { intros c rng a Hin. apply (Hall c rng a). apply elem_of_cons. auto. }
  destruct e as [c rng a|ms]; cbn.
  - destruct (Hall c rng a) as [m Hm]; [apply elem_of_cons; auto|].
    rewrite Hm. auto.
  - auto.
Qed.

(** Nothing is put on the wire after the first acknowledgment with
    [done]. *)
Lemma chunkWalk_afterFirstDone totalSize remaining : forall i,
  fetchesOf (afterFirstDone net (walkEvents totalSize (chunkWalk uploadFn remaining i)))
  = [].
Proof.
  induction remaining as [|remaining IH]; intros i; [reflexivity|].
  cbn [chunkWalk]. pose proof (uploadFn_shape i) as Hshape.
  destruct (uploadFn i) as [outcome effects]. unfold transportShape in Hshape.
  cbn [fst snd] in Hshape. cbn [walkEvents step_effects step_outcome].
  destruct outcome as [result| |].
  - destruct Hshape as (pre & a & -> & Ha & Hpre).
    rewrite fmap_app, <- app_assoc, afterFirstDone_failed by assumption.
    cbn. rewrite Ha. destruct (done result); [reflexivity|]. apply IH.
  - rewrite afterFirstDone_failed by exact Hshape. reflexivity.
  - rewrite afterFirstDone_failed by exact Hshape. reflexivity.
Qed.

Lemma acksIn_app t1 t2 : acksIn net (t1 ++ t2) = acksIn net t1 ++ acksIn net t2.
Proof. apply omap_app. Qed.

Lemma progressOf_app t1 t2 : progressOf (t1 ++ t2) = progressOf t1 ++ progressOf t2.
Proof. apply omap_app. Qed.

Lemma progressOf_net effects : progressOf (Net <$> effects) = [].
Proof. induction effects as [|e effects IH]; [reflexivity|]. cbn. exact IH. Qed.

Lemma acksIn_shape_ok totalSize pre a result rest :
  allFailed net pre -> net (callOf a.1) a.2 = Accepted result ->
  acksIn net
    ((Net <$> pre ++ [Fetch (callOf a.1) (contentRange (callOf a.1)) a.2])
       ++ OnProgress (progressData result totalSize) :: rest)
  = result :: acksIn net rest.
Proof.
  intros Hpre Ha. rewrite fmap_app, !acksIn_app, fetchesOf_failed by assumption.
  cbn. rewrite Ha. reflexivity.
Qed.

(** The acknowledgments of a walk that starts at chunk [i] answer calls
    for chunks [i] and later, in ascending order of chunk. *)
Lemma chunkWalk_acks_sorted totalSize first count remaining :
  monotoneBackend (fun i => net (callOf i)) first count ->
  forall i,
    first <= i -> i + Z.of_nat remaining <= count ->
    nondecreasing
      (uploadedBytes <$> acksIn net (walkEvents totalSize (chunkWalk uploadFn remaining i)))
    /\ Forall (fun r => exists j a, i <= j /\ j < count /\ net (callOf j) a = Accepted r)
         (acksIn net (walkEvents totalSize (chunkWalk uploadFn remaining i))).
Proof.
  intros Hmono.
  induction remaining as [|remaining IH]; intros i Hfirst Hcount.
  - split; [intros j k x y _ Hx; inversion Hx|constructor].
  - cbn [chunkWalk]. pose proof (uploadFn_shape i) as Hshape.
    destruct (uploadFn i) as [outcome effects]. unfold transportShape in Hshape.
    cbn [fst snd] in Hshape. cbn [walkEvents step_effects step_outcome].
    destruct outcome as [result| |].
    + destruct Hshape as (pre & a & -> & Ha & Hpre).
      rewrite (acksIn_shape_ok totalSize pre (i, a)) by assumption.
      assert (Htail :
        nondecreasing (uploadedBytes <$> acksIn net
           (walkEvents totalSize
              (if done result then [] else chunkWalk uploadFn remaining (i + 1))))
        /\ Forall (fun r => exists j a, i + 1 <= j /\ j < count /\
                                      net (callOf j) a = Accepted r)
             (acksIn net (walkEvents totalSize
                (if done result then [] else chunkWalk uploadFn remaining (i + 1))))).
      { destruct (done result); [|apply IH; lia].
        split; [intros j k x y _ Hx; inversion Hx|constructor]. }
      destruct Htail as [Hsorted Hall]. split.
      * intros j k x y Hjk Hx Hy.
        destruct j as [|j], k as [|k]; cbn in Hx, Hy; try lia.
        -- injection Hx as <-. injection Hy as <-. lia.
        -- injection Hx as <-.
           apply list_lookup_fmap_Some in Hy as (r' & -> & Hr').
           eapply Forall_lookup_1 in Hall as (j' & a' & Hj' & Hlt & Hnet);
             [|exact Hr'].
           apply (Hmono i j' a a'); [lia|lia|lia|exact Ha|exact Hnet].
        -- apply (Hsorted j k); [lia|assumption|assumption].
      * constructor.
        -- exists i, a. split; [lia|]. split; [lia|assumption].
        -- eapply Forall_impl; [exact Hall|].
           intros r (j' & a' & Hj' & Hlt & Hnet). exists j', a'.
           split; [lia|]. split; assumption.
    + rewrite app_nil_r, fetchesOf_failed by exact Hshape. cbn.
      split; [intros j k x y _ Hx; inversion Hx|constructor].
    + rewrite app_nil_r, fetchesOf_failed by exact Hshape. cbn.
      split; [intros j k x y _ Hx; inversion Hx|constructor].
Qed.

(** A walk reports one progress per acknowledgment, computed from the
    count in the acknowledgment. *)
Lemma chunkWalk_progress totalSize remaining : forall i,
  progressOf (walkEvents totalSize (chunkWalk uploadFn remaining i))
  = (fun r => progressData r totalSize)
      <$> acksIn net (walkEvents totalSize (chunkWalk uploadFn remaining i)).
Proof.
  induction remaining as [|remaining IH]; intros i; [reflexivity|].
  cbn [chunkWalk]. pose proof (uploadFn_shape i) as Hshape.
  destruct (uploadFn i) as [outcome effects]. unfold transportShape in Hshape.
  cbn [fst snd] in Hshape. cbn [walkEvents step_effects step_outcome].
  destruct outcome as [result| |].
  - destruct Hshape as (pre & a & -> & Ha & Hpre).
    rewrite (acksIn_shape_ok totalSize pre (i, a)) by assumption.
    rewrite progressOf_app, progressOf_net. cbn. f_equal.
    destruct (done result); [reflexivity|]. apply IH.
  - rewrite app_nil_r, fetchesOf_failed, progressOf_net by exact Hshape.
    reflexivity.
  - rewrite app_nil_r, fetchesOf_failed, progressOf_net by exact Hshape.
    reflexivity.
Qed.

Lemma reportedAtOnce_failed totalSize pre rest :
  allFailed net pre -> reportedAtOnce net totalSize rest ->
  reportedAtOnce net totalSize ((Net <$> pre) ++ rest).
Proof.
  induction pre as [|e pre IH]; intros Hall Hrest; [exact Hrest|].
  assert (Hpre : allFailed net pre).
  { intros c rng a Hin. apply (Hall c rng a). apply elem_of_cons. auto. }
  destruct e as [c rng a|ms]; cbn.
  - destruct (Hall c rng a) as [m Hm]; [apply elem_of_cons; auto|].
    rewrite Hm. auto.
  - auto.
Qed.

(** Every acknowledgment of a walk is reported at once. *)
Lemma chunkWalk_reportedAtOnce totalSize remaining : forall i,
  reportedAtOnce net totalSize (walkEvents totalSize (chunkWalk uploadFn remaining i)).
Proof.
  induction remaining as [|remaining IH]; intros i; [exact I|].
  cbn [chunkWalk]. pose proof (uploadFn_shape i) as Hshape.
  destruct (uploadFn i) as [outcome effects]. unfold transportShape in Hshape.
  cbn [fst snd] in Hshape. cbn [walkEvents step_effects step_outcome].
  destruct outcome as [result| |].
  - destruct Hshape as (pre & a & -> & Ha & Hpre).
    rewrite fmap_app, <- app_assoc.
    apply reportedAtOnce_failed; [exact Hpre|].
    cbn. rewrite Ha. split; [reflexivity|].
    destruct (done result); [exact I|apply IH].
  - apply reportedAtOnce_failed; [exact Hshape|exact I].
  - apply reportedAtOnce_failed; [exact Hshape|exact I].
Qed.

End Walk.

(** An iteration that is acknowledged with [done] is the last of its walk. *)
Lemma chunkWalk_done_last uploadFn remaining : forall i (k : nat) step result,
  chunkWalk uploadFn remaining i !! k = Some step ->
  step_outcome step = Ok result -> done result = true ->
  length (chunkWalk uploadFn remaining i) = S k.
Proof.
  induction remaining as [|remaining IH]; intros i k step result Hk Hout Hdone;
    [inversion Hk|].
  cbn [chunkWalk] in *. destruct (uploadFn i) as [outcome effects].
  destruct k as [|k]; cbn in Hk.
  - injection Hk as <-. cbn in Hout. subst outcome. rewrite Hdone. reflexivity.
  - destruct outcome as [r| |]; try (inversion Hk; fail).
    destruct (done r); [inversion Hk|].
    cbn. f_equal. eapply IH; eassumption.
Qed.

(** The iterations of a walk that starts at [i] are those of chunks [i],
    [i + 1], ... in this order. *)
Lemma chunkWalk_indices uploadFn remaining : forall i (k : nat) step,
  chunkWalk uploadFn remaining i !! k = Some step ->
  step_index step = i + Z.of_nat k /\
  (step_outcome step, step_effects step) = uploadFn (i + Z.of_nat k).
Proof.
  induction remaining as [|remaining IH]; intros i k step Hk; [inversion Hk|].
  cbn [chunkWalk] in Hk. destruct (uploadFn i) as [outcome effects] eqn:Hfn.
  destruct k as [|k]; cbn in Hk.
  - injection Hk as <-. cbn. rewrite Z.add_0_r, Hfn. auto.
  - destruct outcome as [r| |]; try (inversion Hk; fail).
    destruct (done r); [inversion Hk|].
    apply IH in Hk as [Hi Hf].
    replace (i + Z.of_nat (S k)) with (i + 1 + Z.of_nat k) by lia. auto.
Qed.

Lemma chunkWalk_length uploadFn remaining i :
  (length (chunkWalk uploadFn remaining i) <= remaining)%nat.
Proof.
  revert i. induction remaining as [|remaining IH]; intros i; [reflexivity|].
  cbn [chunkWalk]. destruct (uploadFn i) as [outcome effects].
  destruct outcome as [r| |]; cbn; try lia.
  destruct (done r); cbn; [lia|]. specialize (IH (i + 1)). lia.
Qed.

Lemma hookWalk_shape net chunks totalSize id chunkSize token i :
  transportShape net (hookCall chunks totalSize id chunkSize i)
    (uploadChunk net id (chunkAt chunks i) i chunkSize totalSize (ArgString token)).
Proof. apply putWithRetry_shape. Qed.

Lemma streamWalk_shape stream net chunks totalSize id chunkSize i :
  transportShape net (streamCall stream chunks totalSize id chunkSize i)
    (Dual.uploadFnOf stream net id chunks chunkSize totalSize i).
Proof. destruct stream; apply putWithRetry_shape. Qed.

(** If nothing is fetched after the first [done], nothing is fetched after
    any acknowledgment with [done]. *)
Lemma afterFirstDone_split net t1 : forall c rng a t2 result,
  fetchesOf (afterFirstDone net (t1 ++ Net (Fetch c rng a) :: t2)) = [] ->
  net c a = Accepted result -> done result = true ->
  fetchesOf t2 = [].
Proof.
  induction t1 as [|e t1 IH]; intros c rng a t2 result Hnone Hnet Hdone.
  - cbn in Hnone. rewrite Hnet, Hdone in Hnone. exact Hnone.
  - assert (Hin : fetchesOf (t1 ++ Net (Fetch c rng a) :: t2) <> []).
    { unfold fetchesOf. rewrite omap_app. cbn.
      intros Heq. apply app_eq_nil in Heq as [_ Heq]. discriminate. }
    cbn in Hnone.
    destruct e as [| | | | |[c' rng' a'|ms]| | |]; try (eapply IH; eassumption).
    destruct (net c' a') as [r'|m'] eqn:Hnet'; [|eapply IH; eassumption].
    destruct (done r'); [contradiction|eapply IH; eassumption].
Qed.

(** The single-stream walk sends nothing after an acknowledgment with
    [done]. *)
Lemma uploadChunks_done_stops env blob id chunkSize start token w
    t1 c rng a t2 result :
  trace (uploadChunks env blob id chunkSize start token w).2
  = trace w ++ t1 ++ Net (Fetch c rng a) :: t2 ->
  network env c a = Accepted result -> done result = true ->
  fetchesOf t2 = [].
Proof.
  rewrite uploadChunks_spec.
  destruct (slicedChunks blob chunkSize) as [chunks|]; cbn [snd].
  - unfold afterWalk. cbn [trace]. intros Heq%app_inv_head Hnet Hdone.
    eapply afterFirstDone_split; [|exact Hnet|exact Hdone].
    rewrite <- Heq. unfold hookWalk.
    apply (chunkWalk_afterFirstDone (network env) _
             (hookCall chunks (size blob) id chunkSize)).
    intros i. apply hookWalk_shape.
  - intros Heq. rewrite <- (app_nil_r (trace w)) in Heq at 1.
    apply app_inv_head in Heq. destruct t1; discriminate.
Qed.

(** A stream walk of the dual hook has no iteration after one that is
    acknowledged with [done]. *)
Lemma uploadStreamChunks_done_last stream net blob id chunkSize steps
    (k : nat) step result :
  Dual.uploadStreamChunks stream net blob id chunkSize = Some steps ->
  steps !! k = Some step -> step_outcome step = Ok result -> done result = true ->
  length steps = S k.
Proof.
  unfold Dual.uploadStreamChunks.
  destruct (slicedChunks blob chunkSize) as [chunks|]; [|discriminate].
  cbn. intros [= <-]. apply chunkWalk_done_last.
Qed.

(** C10 (the hooks, and an evaluation of [UploadManager] where it departs
    from the claim).  In the single-stream walk nothing is put on the wire
    after a [PUT] that was acknowledged with [done], and a stream walk of
    the dual hook has no iteration after such an acknowledgment, whatever
    the number of chunks.  In [UploadManager] the completion call is awaited
    inside the retry loop's [try]: when the last chunk is acknowledged with
    [done] and the completion call fails, the chunk is put on the wire two
    more times and the completion call is made four times. *)
Theorem done_ends_walk_in_hooks :
  (forall env blob id chunkSize start token w t1 c rng a t2 result,
     trace (uploadChunks env blob id chunkSize start token w).2
     = trace w ++ t1 ++ Net (Fetch c rng a) :: t2 ->
     network env c a = Accepted result -> done result = true ->
     fetchesOf t2 = []) /\
  (forall stream net blob id chunkSize steps (k : nat) step result,
     Dual.uploadStreamChunks stream net blob id chunkSize = Some steps ->
     steps !! k = Some step -> step_outcome step = Ok result ->
     done result = true ->
     length steps = S k) /\
  (let r := Manager.uploadChunks completionFailingManagerEnv sampleManagerUpload in
   Manager.attemptsOf 0 (Manager.trace r.2) = [0] /\
   Manager.attemptsOf 1 (Manager.trace r.2) = [0] /\
   Manager.attemptsOf 2 (Manager.trace r.2) = [0; 1; 2] /\
   managerCompletionsOf (Manager.trace r.2) = [20; 20; 20; 20]).
Proof.
  split; [|split].
  - intros. eapply uploadChunks_done_stops; eassumption.
  - intros. eapply uploadStreamChunks_done_last; eassumption.
  - vm_compute. auto.
Qed.

(** Witness for C10: a payload of three chunks whose first chunk is
    acknowledged with [done]; after that [PUT] only the progress report
    follows. *)
Lemma done_ends_walk_in_hooks_witness :
  fetchesOf [OnProgress (mkProgress 20 20 (percentageOf 20 20))] = [].
Proof.
  eapply (proj1 done_ends_walk_in_hooks
            (numericTokenBackend eagerNetwork) (mkBlob 0 20) "rec" 8 0 "3"
            (useResumableUpload ∅) []
            (hookCall [mkBlob 0 8; mkBlob 8 8; mkBlob 16 4] 20 "rec" 8 0)
            (mkRange 0 7 20) 0 _ (mkResult 20 true)).
  - vm_compute. reflexivity.
  - reflexivity.
  - reflexivity.
Defined.

(** * Progress *)

Lemma nondecreasing_nil : nondecreasing [].
Proof. intros i j x y _ Hx. inversion Hx. Qed.

Lemma nondecreasing_app l1 l2 :
  nondecreasing l1 -> nondecreasing l2 ->
  (forall x y, x ∈ l1 -> y ∈ l2 -> x <= y) ->
  nondecreasing (l1 ++ l2).
Proof.
  intros H1 H2 H12 i j x y Hij Hx Hy.
  apply lookup_app_Some in Hx as [Hx|[Hi Hx]];
    apply lookup_app_Some in Hy as [Hy|[Hj Hy]].
  - eapply H1; eassumption.
  - apply H12; eapply list_elem_of_lookup_2; eassumption.
  - apply lookup_lt_Some in Hy. lia.
  - eapply (H2 (i - length l1)%nat (j - length l1)%nat); [lia|eassumption..].
Qed.

Lemma nondecreasing_tail x l : nondecreasing (x :: l) -> nondecreasing l.
Proof. intros H i j a b Hij Ha Hb. apply (H (S i) (S j)); [lia|exact Ha|exact Hb]. Qed.

Lemma nondecreasing_head x l y : nondecreasing (x :: l) -> y ∈ l -> x <= y.
Proof.
  intros H [j Hj]%list_elem_of_lookup_1.
  apply (H 0%nat (S j)); [lia|reflexivity|exact Hj].
Qed.

Lemma nondecreasing_sublist l1 l2 :
  l1 `sublist_of` l2 -> nondecreasing l2 -> nondecreasing l1.
Proof.
  induction 1 as [|x l1 l2 Hsub IH|x l1 l2 Hsub IH]; intros H2.
  - apply nondecreasing_nil.
  - apply (nondecreasing_app [x] l1).
    + intros [|i] [|j] a b Hij Ha Hb; try discriminate; try lia.
      cbn in Ha, Hb. injection Ha as <-. injection Hb as <-. lia.
    + apply IH. eapply nondecreasing_tail. exact H2.
    + intros a b Ha%list_elem_of_singleton Hb. subst a.
      eapply nondecreasing_head; [exact H2|].
      eapply elem_of_sublist; eassumption.
  - apply IH. eapply nondecreasing_tail. exact H2.
Qed.

Lemma uploadChunks_trace env blob id chunkSize start token w :
  exists t,
    trace (uploadChunks env blob id chunkSize start token w).2 = trace w ++ t /\
    reportedAtOnce (network env) (size blob) t /\
    progressOf t
    = (fun r => progressData r (size blob)) <$> acksIn (network env) t /\
    (forall chunks,
       slicedChunks blob chunkSize = Some chunks ->
       monotoneBackend
         (fun i => network env (hookCall chunks (size blob) id chunkSize i))
         start (Z.of_nat (length chunks)) ->
       nondecreasing (uploadedBytes <$> acksIn (network env) t)).
Proof.
  rewrite uploadChunks_spec.
  destruct (slicedChunks blob chunkSize) as [chunks|]; cbn [snd].
  - eexists. split; [reflexivity|]. unfold hookWalk. split; [|split].
    + apply (chunkWalk_reportedAtOnce (network env) _
               (hookCall chunks (size blob) id chunkSize)).
      intros i. apply hookWalk_shape.
    + apply (chunkWalk_progress (network env) _
               (hookCall chunks (size blob) id chunkSize)).
      intros i. apply hookWalk_shape.
    + intros chunks' [= <-] Hmono.
      destruct (Z.le_gt_cases start (Z.of_nat (length chunks))) as [Hle|Hgt].
      * apply (chunkWalk_acks_sorted (network env) _
                 (hookCall chunks (size blob) id chunkSize)
                 ltac:(intros i; apply hookWalk_shape)
                 (size blob) start (Z.of_nat (length chunks)));
          [exact Hmono|lia|unfold iterationsFrom; lia].
      * unfold iterationsFrom.
        replace (Z.to_nat (Z.of_nat (length chunks) - start)) with 0%nat by lia.
        apply nondecreasing_nil.
  - exists []. rewrite app_nil_r. split; [reflexivity|]. split; [exact I|].
    split; [reflexivity|]. intros chunks [=].
Qed.

(** In the dual hook an acknowledged iteration replaces its stream's half
    of the progress in the same way. *)
Lemma advance_progress stream totalSize w step steps result prev :
  Dual.walkOf stream w = Dual.Pending (step :: steps) ->
  step_outcome step = Ok result ->
  Dual.progress w = Some prev ->
  Dual.progress (Dual.advance stream totalSize w).2
  = Some match stream with
         | Dual.ScreenStream =>
             Dual.mkDualProgress (progressData result totalSize) (Dual.webcam prev)
         | Dual.WebcamStream =>
             Dual.mkDualProgress (Dual.screen prev) (progressData result totalSize)
         end.
Proof.
  intros Hwalk Hout Hprev. unfold Dual.advance. rewrite Hwalk, Hout.
  unfold bind, Dual.emitAll, Dual.streamProgress, modify. cbn.
  rewrite Hprev. destruct stream; reflexivity.
Qed.

(** ** Progress reports of [UploadManager] *)

Lemma acknowledged_nonzero v d e :
  v <> 0 -> Manager.acknowledged (mkResult v d) e = v.
Proof.
  intros Hv. unfold Manager.acknowledged. cbn [uploadedBytes].
  destruct (Z.eqb_spec v 0); [contradiction|reflexivity].
Qed.

Lemma takenFrom_le answers first count P1 P2 x y :
  countingBackend answers first count ->
  monotoneBackend answers first count ->
  (forall j, P1 j -> first <= j < count) ->
  (forall j, P2 j -> first <= j < count) ->
  (forall j1 j2, P1 j1 -> P2 j2 -> j1 <= j2) ->
  takenFrom answers P1 x -> takenFrom answers P2 y -> x <= y.
Proof.
  intros Hcounting Hmono Hb1 Hb2 Hle (j1 & a1 & [v1 d1] & e1 & Hj1 & Hr1 & ->)
    (j2 & a2 & [v2 d2] & e2 & Hj2 & Hr2 & ->).
  pose proof (Hb1 j1 Hj1). pose proof (Hb2 j2 Hj2).
  rewrite !acknowledged_nonzero.
  - apply (Hmono j1 j2 a1 a2 _ _ ltac:(lia) (Hle j1 j2 Hj1 Hj2) ltac:(lia) Hr1 Hr2).
  - apply (Hcounting j2 a2 _ ltac:(lia) ltac:(lia) Hr2).
  - apply (Hcounting j1 a1 _ ltac:(lia) ltac:(lia) Hr1).
Qed.

Lemma managerAcksIn_app answers t1 t2 :
  managerAcksIn answers (t1 ++ t2)
  = managerAcksIn answers t1 ++ managerAcksIn answers t2.
Proof. apply omap_app. Qed.

Lemma managerReportedAtOnce_app answers totalSize t1 t2 :
  managerReportedAtOnce answers totalSize t1 -> managerReportedAtOnce answers totalSize t2 ->
  managerReportedAtOnce answers totalSize (t1 ++ t2).
Proof.
  induction t1 as [|e t1 IH]; intros H1 H2; [exact H2|].
  destruct e as [i range a| | | | | |]; cbn in H1 |- *; try (apply IH; assumption).
  destruct H1 as [Hhead Htail]. split; [|apply IH; assumption].
  destruct (answers i a); [|exact I].
  destruct t1 as [|[] t1]; try contradiction. exact Hhead.
Qed.

Section ProgressReports.

Variable answers : Z -> Z -> Response.
Variables totalSize first count : Z.

Lemma progressReports_nil P : progressReports answers totalSize first count P [].
Proof.
  split; [exact I|]. split; [constructor|]. split; [constructor|].
  intros _ _ _. apply nondecreasing_nil.
Qed.

Lemma progressReports_app P1 P2 P t1 t2 :
  progressReports answers totalSize first count P1 t1 ->
  progressReports answers totalSize first count P2 t2 ->
  (forall j, P1 j -> P j) -> (forall j, P2 j -> P j) ->
  (forall j1 j2, P1 j1 -> P2 j2 -> j1 <= j2) ->
  progressReports answers totalSize first count P (t1 ++ t2).
Proof.
  intros (Hr1 & Hs1 & Hf1 & Hm1) (Hr2 & Hs2 & Hf2 & Hm2) HP1 HP2 Hle.
  split; [apply managerReportedAtOnce_app; assumption|]. split.
  { unfold managerProgressOf. rewrite omap_app, managerAcksIn_app.
    apply sublist_app; assumption. }
  split.
  { rewrite managerAcksIn_app. apply Forall_app. split.
    - eapply Forall_impl; [exact Hf1|].
      intros n (j & a & r & e & Hj & Hr & Hn). exists j, a, r, e. auto.
    - eapply Forall_impl; [exact Hf2|].
      intros n (j & a & r & e & Hj & Hr & Hn). exists j, a, r, e. auto. }
  intros Hcounting Hmono Hbounds. rewrite managerAcksIn_app.
  apply nondecreasing_app.
  - apply Hm1; auto.
  - apply Hm2; auto.
  - intros x y Hx Hy.
    eapply (takenFrom_le answers first count P1 P2); eauto.
    + eapply Forall_forall in Hf1; eassumption.
    + eapply Forall_forall in Hf2; eassumption.
Qed.

Lemma progressReports_weaken (P Q : Z -> Prop) t :
  (forall j, P j -> Q j) ->
  progressReports answers totalSize first count P t ->
  progressReports answers totalSize first count Q t.
Proof.
  intros HPQ (Hr & Hs & Hf & Hm).
  split; [exact Hr|]. split; [exact Hs|]. split.
  - eapply Forall_impl; [exact Hf|].
    intros n (j & a & r & e & Hj & Hr' & Hn). exists j, a, r, e. auto.
  - intros Hcounting Hmono Hbounds. apply Hm; auto.
Qed.

(** Two stretches about the same chunk. *)
Lemma progressReports_same i t1 t2 :
  progressReports answers totalSize first count (eq i) t1 ->
  progressReports answers totalSize first count (eq i) t2 ->
  progressReports answers totalSize first count (eq i) (t1 ++ t2).
Proof.
  intros H1 H2.
  apply (progressReports_app (eq i) (eq i) (eq i)); auto. intros; lia.
Qed.

(** An accepted [PUT] and its report. *)
Lemma progressReports_ack i range a r s :
  answers i a = Accepted r ->
  let n := Manager.acknowledged r (lastByte range) in
  progressReports answers totalSize first count (eq i)
    [Manager.Fetch i range a; Manager.Progress s n (percentageOf n totalSize)].
Proof.
  intros Ha n. split; [|split; [|split]].
  - cbn. rewrite Ha. auto.
  - unfold managerAcksIn, managerProgressOf. cbn. rewrite Ha.
    destruct s; cbn; repeat constructor.
  - unfold managerAcksIn. cbn. rewrite Ha. cbn. constructor; [|constructor].
    exists i, a, r, (lastByte range). auto.
  - intros _ _ _. unfold managerAcksIn. cbn. rewrite Ha. cbn.
    intros [|j] [|k] x y Hjk Hx Hy; try discriminate; try lia.
    cbn in Hx, Hy. injection Hx as <-. injection Hy as <-. lia.
Qed.

(** A refused [PUT]. *)
Lemma progressReports_failed P i range a m :
  answers i a = Failed m ->
  progressReports answers totalSize first count P [Manager.Fetch i range a].
Proof.
  intros Ha. split; [|split; [|split]].
  - cbn. rewrite Ha. auto.
  - unfold managerAcksIn, managerProgressOf. cbn. rewrite Ha. constructor.
  - unfold managerAcksIn. cbn. rewrite Ha. constructor.
  - intros _ _ _. unfold managerAcksIn. cbn. rewrite Ha. apply nondecreasing_nil.
Qed.

(** An event that is neither a [PUT] nor a report made while uploading. *)
Lemma progressReports_event P e :
  match e with
  | Manager.Fetch _ _ _ | Manager.Progress Manager.uploading _ _ => False
  | _ => True
  end ->
  progressReports answers totalSize first count P [e].
Proof.
  intros He. apply (progressReports_weaken (fun _ => False)); [contradiction|].
  destruct e as [| |[]| | | |]; try contradiction;
    (split; [exact I|]; split; [constructor|]; split; [constructor|];
     intros _ _ _; apply nondecreasing_nil).
Qed.

End ProgressReports.

Module ManagerReports.

Import Manager.

Ltac run_reports :=
  cbv beta iota zeta delta
    [bind ret await throw modify tryCatch emit update setStatus
     setUploadedBytes setErrorMessage updateProgress completeUpload
     fst snd upload trace blob chunkSize status uploadedBytes errorMessage].

Lemma completeUpload_eq env b cs st ub em tr :
  completeUpload env (mkWorld (mkState b cs st ub em) tr)
  = match completeCall env with
    | Ok _ =>
        (Ok tt,
         mkWorld (mkState b cs completed (size b) em)
           (tr ++ [CallComplete (size b);
                   Progress completed (size b) (percentageOf (size b) (size b));
                   OnComplete]))
    | Throw m =>
        (Throw m,
         mkWorld (mkState b cs error ub (Some m))
           (tr ++ [CallComplete (size b);
                   Progress error ub (percentageOf ub (size b)); OnError m]))
    | Hang => (Hang, mkWorld (mkState b cs st ub em) (tr ++ [CallComplete (size b)]))
    end.
Proof.
  run_reports. destruct (completeCall env); run_reports;
    rewrite <- ?app_assoc; reflexivity.
Qed.

(** One turn of the retry loop. *)
Lemma attempts_step env i range remaining attempt uploaded lastError
    b cs st ub em tr :
  let retry (uploaded : bool) (m : string) (w : World) :=
    if abortedAtCatch env i attempt then (Ok Returned, w)
    else
      attempts env i range remaining (attempt + 1) uploaded (Some m)
        (if attempt <? maxRetries - 1
         then mkWorld (upload w)
                (trace w ++ [SetTimeout (retryDelays !! Z.to_nat attempt)])
         else w) in
  attempts env i range (S remaining) attempt uploaded lastError
    (mkWorld (mkState b cs st ub em) tr)
  = match fetchChunk env i attempt with
    | Failed m =>
        retry uploaded m
          (mkWorld (mkState b cs st ub em) (tr ++ [Fetch i range attempt]))
    | Accepted res =>
        let ack := acknowledged res (lastByte range) in
        let w1 :=
          mkWorld (mkState b cs st ack em)
            (tr ++ [Fetch i range attempt;
                    Progress st ack (percentageOf ack (size b))]) in
        if done res || (size b <=? ack) then
          match completeUpload env w1 with
          | (Ok _, w') => (Ok Returned, w')
          | (Throw m, w') => retry true m w'
          | (Hang, w') => (Hang, w')
          end
        else (Ok (NextChunk true lastError), w1)
    end.
Proof.
  intros retry. subst retry. cbn [attempts].
  destruct (fetchChunk env i attempt) as [res|m].
  - cbv zeta. rewrite completeUpload_eq. run_reports.
    rewrite <- !app_assoc. cbn [app].
    destruct (done res || (size b <=? acknowledged res (lastByte range)));
      [|reflexivity].
    destruct (completeCall env); run_reports; rewrite <- ?app_assoc; cbn [app];
      try reflexivity.
    destruct (abortedAtCatch env i attempt); [reflexivity|].
    destruct (attempt <? maxRetries - 1); run_reports;
      rewrite <- ?app_assoc; cbn [app]; reflexivity.
  - run_reports.
    destruct (abortedAtCatch env i attempt); [reflexivity|].
    destruct (attempt <? maxRetries - 1); run_reports; reflexivity.
Qed.

Lemma attempts_reports env first count i range remaining :
  forall attempt uploaded lastError w,
    exists t,
      trace (attempts env i range remaining attempt uploaded lastError w).2
      = trace w ++ t /\
      blob (upload (attempts env i range remaining attempt uploaded lastError w).2)
      = blob (upload w) /\
      chunkSize
        (upload (attempts env i range remaining attempt uploaded lastError w).2)
      = chunkSize (upload w) /\
      progressReports (fetchChunk env) (size (blob (upload w))) first count
        (eq i) t.
Proof.
  induction remaining as [|remaining IH];
    intros attempt uploaded lastError [[b cs st ub em] tr].
  - exists []. cbn. rewrite app_nil_r.
    split; [reflexivity|]. split; [reflexivity|]. split; [reflexivity|].
    apply progressReports_nil.
  - assert (Hretry : forall upl m st' ub' em' tl,
      progressReports (fetchChunk env) (size b) first count (eq i) tl ->
      let r :=
        if abortedAtCatch env i attempt
        then (Ok Returned, mkWorld (mkState b cs st' ub' em') (tr ++ tl))
        else
          attempts env i range remaining (attempt + 1) upl (Some m)
            (if attempt <? maxRetries - 1
             then mkWorld (mkState b cs st' ub' em')
                    ((tr ++ tl) ++ [SetTimeout (retryDelays !! Z.to_nat attempt)])
             else mkWorld (mkState b cs st' ub' em') (tr ++ tl)) in
      exists t,
        trace r.2 = tr ++ t /\ blob (upload r.2) = b /\
        chunkSize (upload r.2) = cs /\
        progressReports (fetchChunk env) (size b) first count (eq i) t).
    { intros upl m st' ub' em' tl Htl r. subst r.
      destruct (abortedAtCatch env i attempt).
      { exists tl. cbn. auto. }
      destruct (attempt <? maxRetries - 1).
      - destruct (IH (attempt + 1) upl (Some m)
                    (mkWorld (mkState b cs st' ub' em')
                       ((tr ++ tl) ++ [SetTimeout (retryDelays !! Z.to_nat attempt)])))
          as (t & Ht & Hb & Hc & Hrep).
        cbn [upload trace blob chunkSize] in Ht, Hb, Hc, Hrep.
        exists (tl ++ [SetTimeout (retryDelays !! Z.to_nat attempt)] ++ t).
        rewrite Ht, Hb, Hc, <- !app_assoc.
        split; [reflexivity|]. split; [reflexivity|]. split; [reflexivity|].
        apply progressReports_same; [exact Htl|].
        apply (progressReports_same _ _ _ _ i [_]); [|exact Hrep].
        apply progressReports_event; exact I.
      - destruct (IH (attempt + 1) upl (Some m)
                    (mkWorld (mkState b cs st' ub' em') (tr ++ tl)))
          as (t & Ht & Hb & Hc & Hrep).
        cbn [upload trace blob chunkSize] in Ht, Hb, Hc, Hrep.
        exists (tl ++ t). rewrite Ht, Hb, Hc, <- !app_assoc.
        split; [reflexivity|]. split; [reflexivity|]. split; [reflexivity|].
        apply progressReports_same; assumption. }
    rewrite attempts_step. cbv zeta. cbn [upload trace blob chunkSize].
    destruct (fetchChunk env i attempt) as [res|m] eqn:Hfetch.
    + pose proof (progressReports_ack (fetchChunk env) (size b) first count
                    i range attempt res st Hfetch) as Hack.
      cbv zeta in Hack.
      destruct (done res || (size b <=? acknowledged res (lastByte range))).
      * rewrite completeUpload_eq. destruct (completeCall env) as [url|m|].
        -- eexists. cbn [fst snd upload trace blob chunkSize].
           rewrite <- !app_assoc.
           split; [reflexivity|]. split; [reflexivity|]. split; [reflexivity|].
           apply (progressReports_same _ _ _ _ i [_; _]); [exact Hack|].
           apply (progressReports_same _ _ _ _ i [_]);
             [apply progressReports_event; exact I|].
           apply (progressReports_same _ _ _ _ i [_] [_]);
             apply progressReports_event; exact I.
        -- cbv beta iota. cbn [upload trace]. rewrite <- (app_assoc tr).
           apply Hretry.
           apply (progressReports_same _ _ _ _ i [_; _]); [exact Hack|].
           apply (progressReports_same _ _ _ _ i [_]);
             [apply progressReports_event; exact I|].
           apply (progressReports_same _ _ _ _ i [_] [_]);
             apply progressReports_event; exact I.
        -- eexists. cbn [fst snd upload trace blob chunkSize].
           rewrite <- !app_assoc.
           split; [reflexivity|]. split; [reflexivity|]. split; [reflexivity|].
           apply (progressReports_same _ _ _ _ i [_; _]); [exact Hack|].
           apply progressReports_event; exact I.
      * eexists. cbn [fst snd upload trace blob chunkSize].
        split; [reflexivity|]. split; [reflexivity|]. split; [reflexivity|].
        exact Hack.
    + cbv beta iota. cbn [upload trace]. apply Hretry.
      eapply progressReports_failed. exact Hfetch.
Qed.

Lemma chunkLoop_reports env first count chunks remaining :
  forall i w,
    exists t,
      trace (chunkLoop env chunks remaining i w).2 = trace w ++ t /\
      blob (upload (chunkLoop env chunks remaining i w).2) = blob (upload w) /\
      chunkSize (upload (chunkLoop env chunks remaining i w).2)
      = chunkSize (upload w) /\
      progressReports (fetchChunk env) (size (blob (upload w))) first count
        (fun j => i <= j /\ is_Some (chunkAt chunks j)) t.
Proof.
  induction remaining as [|remaining IH]; intros i [[b cs st ub em] tr].
  - exists []. cbn. rewrite app_nil_r.
    split; [reflexivity|]. split; [reflexivity|]. split; [reflexivity|].
    apply progressReports_nil.
  - cbn [chunkLoop]. destruct (abortedAtChunk env i).
    { exists []. cbn. rewrite app_nil_r.
      split; [reflexivity|]. split; [reflexivity|]. split; [reflexivity|].
      apply progressReports_nil. }
    cbv beta iota zeta delta [bind ret throw]. cbn [upload blob chunkSize].
    destruct (chunkAt chunks i) as [c|] eqn:Hchunk.
    2:{ exists []. cbn. rewrite app_nil_r.
        split; [reflexivity|]. split; [reflexivity|]. split; [reflexivity|].
        apply progressReports_nil. }
    cbv beta iota. cbn [from_option].
    match goal with
    | |- context [attempts env i ?range ?n 0 false None ?W] =>
        destruct (attempts_reports env first count i range n 0 false None W)
          as (t1 & Ht1 & Hb1 & Hc1 & Hrep1);
        destruct (attempts env i range n 0 false None W)
          as [exit [[b1 cs1 st1 ub1 em1] tr1]]
    end.
    cbn [fst snd upload trace blob chunkSize] in Ht1, Hb1, Hc1, Hrep1.
    subst b1 cs1 tr1.
    assert (Hhere : progressReports (fetchChunk env) (size b) first count
                      (fun j => i <= j /\ is_Some (chunkAt chunks j)) t1).
    { eapply progressReports_weaken; [|exact Hrep1].
      intros j <-. split; [lia|]. rewrite Hchunk. eauto. }
    destruct exit as [[|[] lastError]| |].
    + exists t1. cbn. auto.
    + destruct (IH (i + 1) (mkWorld (mkState b cs st1 ub1 em1) (tr ++ t1)))
        as (t2 & Ht2 & Hb2 & Hc2 & Hrep2).
      cbn [fst snd upload trace blob chunkSize] in Ht2, Hb2, Hc2, Hrep2.
      exists (t1 ++ t2). rewrite Ht2, Hb2, Hc2, <- app_assoc.
      split; [reflexivity|]. split; [reflexivity|]. split; [reflexivity|].
      apply (progressReports_app _ _ _ _ (eq i)
               (fun j => i + 1 <= j /\ is_Some (chunkAt chunks j))
               (fun j => i <= j /\ is_Some (chunkAt chunks j)));
        [exact Hrep1|exact Hrep2| | |].
      * intros j <-. split; [lia|]. rewrite Hchunk. eauto.
      * intros j [Hj Hsome]. split; [lia|exact Hsome].
      * intros j1 j2 <- [Hj _]. lia.
    + cbv beta iota zeta delta
        [bind ret throw modify emit update setStatus setErrorMessage
         updateProgress fst snd upload trace blob chunkSize status
         uploadedBytes errorMessage].
      eexists. rewrite <- !app_assoc.
      split; [reflexivity|]. split; [reflexivity|]. split; [reflexivity|].
      apply (progressReports_app _ _ _ _
               (fun j => i <= j /\ is_Some (chunkAt chunks j))
               (fun _ => False)
               (fun j => i <= j /\ is_Some (chunkAt chunks j)));
        [exact Hhere| |auto|contradiction|contradiction].
      apply (progressReports_app _ _ _ _ (fun _ => False) (fun _ => False)
               (fun _ => False) [_] [_]);
        [apply progressReports_event; exact I
        |apply progressReports_event; exact I|auto|auto|contradiction].
    + exists t1. cbn. auto.
    + exists t1. cbn. auto.
Qed.

Lemma uploadChunks_reports env first count w :
  exists t,
    trace (uploadChunks env w).2 = trace w ++ t /\
    progressReports (fetchChunk env) (size (blob (upload w))) first count
      (fun j => exists chunks,
                  slicedChunks (blob (upload w)) (chunkSize (upload w))
                  = Some chunks /\ is_Some (chunkAt chunks j)) t.
Proof.
  destruct w as [[b cs st ub em] tr]. unfold uploadChunks.
  cbv beta iota zeta delta
    [bind ret await modify emit fst snd upload trace blob chunkSize].
  destruct (getUploadStatus env) as [backendStatus| |].
  2,3: exists [CallStatus]; split; [reflexivity|];
       apply progressReports_event; exact I.
  destruct (slicedChunks b cs) as [chunks|] eqn:Hchunks.
  2:{ exists [CallStatus]. split; [reflexivity|].
      apply progressReports_event; exact I. }
  match goal with
  | |- context [chunkLoop env chunks ?n ?i ?W] =>
      destruct (chunkLoop_reports env first count chunks n i W)
        as (t1 & Ht1 & Hb1 & Hc1 & Hrep1);
      destruct (chunkLoop env chunks n i W)
        as [finished [[b1 cs1 st1 ub1 em1] tr1]]
  end.
  cbn [fst snd upload trace blob chunkSize] in Ht1, Hb1, Hc1, Hrep1.
  subst b1 cs1 tr1. rewrite <- app_assoc in *.
  assert (Hloop : progressReports (fetchChunk env) (size b) first count
                    (fun j => exists chunks',
                                Some chunks = Some chunks' /\
                                is_Some (chunkAt chunks' j))
                    ([CallStatus] ++ t1)).
  { eapply (progressReports_app _ _ _ _ (fun _ => False) _ _ [_]);
      [apply progressReports_event; exact I|exact Hrep1|contradiction| 
      |contradiction].
    intros j [_ Hsome]. eauto. }
  destruct finished as [[| ]| |].
  - rewrite completeUpload_eq.
    destruct (completeCall env) as [url|m|]; cbn [fst snd trace];
      eexists; rewrite <- ?app_assoc; (split; [reflexivity|]);
      rewrite (app_assoc [CallStatus]);
      (apply (progressReports_app _ _ _ _ _ (fun _ => False) _ _ _ Hloop);
       [|auto|contradiction|contradiction]).
    + apply (progressReports_app _ _ _ _ (fun _ => False) (fun _ => False)
               (fun _ => False) [_] [_; _]);
        [apply progressReports_event; exact I| |auto|auto|contradiction].
      apply (progressReports_app _ _ _ _ (fun _ => False) (fun _ => False)
               (fun _ => False) [_] [_]);
        [apply progressReports_event; exact I
        |apply progressReports_event; exact I|auto|auto|contradiction].
    + apply (progressReports_app _ _ _ _ (fun _ => False) (fun _ => False)
               (fun _ => False) [_] [_; _]);
        [apply progressReports_event; exact I| |auto|auto|contradiction].
      apply (progressReports_app _ _ _ _ (fun _ => False) (fun _ => False)
               (fun _ => False) [_] [_]);
        [apply progressReports_event; exact I
        |apply progressReports_event; exact I|auto|auto|contradiction].
    + apply progressReports_event; exact I.
  - exists ([CallStatus] ++ t1). cbn [fst snd trace]. auto.
  - exists ([CallStatus] ++ t1). cbn [fst snd trace]. auto.
  - exists ([CallStatus] ++ t1). cbn [fst snd trace]. auto.
Qed.

End ManagerReports.

(** C9 (as amended).  Progress is recomputed after every chunk
    acknowledgment, from the backend's reply.  In the single-stream walk
    every accepted [PUT] is followed at once by a Progress report, and
    these are all its reports, one per acknowledgment and in order: the
    acknowledged bytes are the count in the reply, the total is the
    payload size and the percentage is acknowledged / total * 100 in
    double arithmetic.  In [UploadManager] every accepted [PUT] is followed
    at once by a report of the count taken from its reply ([uploadedBytes],
    or [endByte + 1] when that is 0) and of the percentage of the payload
    size it makes, and every report made while uploading is such a report.
    Neither client enforces monotonicity: the reported counts are
    non-decreasing when the counts the backend returns for the chunks of
    the session do not decrease from a chunk to a later one (and, for
    [UploadManager], are not 0). *)
Theorem progress_follows_acknowledgments :
  (forall env blob id chunkSize start token w,
     exists t,
       trace (uploadChunks env blob id chunkSize start token w).2 = trace w ++ t /\
       reportedAtOnce (network env) (size blob) t /\
       progressOf t
       = (fun r => mkProgress (uploadedBytes r) (size blob)
                     (percentageOf (uploadedBytes r) (size blob)))
           <$> acksIn (network env) t /\
       (forall chunks,
          slicedChunks blob chunkSize = Some chunks ->
          monotoneBackend
            (fun i => network env (hookCall chunks (size blob) id chunkSize i))
            start (Z.of_nat (length chunks)) ->
          nondecreasing (p_uploadedBytes <$> progressOf t))) /\
  (forall env w,
     let u := Manager.upload w in
     exists t,
       Manager.trace (Manager.uploadChunks env w).2 = Manager.trace w ++ t /\
       managerReportedAtOnce (Manager.fetchChunk env) (size (Manager.blob u)) t /\
       managerProgressOf t `sublist_of` managerAcksIn (Manager.fetchChunk env) t /\
       (forall chunks,
          slicedChunks (Manager.blob u) (Manager.chunkSize u) = Some chunks ->
          countingBackend (Manager.fetchChunk env) 0 (Z.of_nat (length chunks)) ->
          monotoneBackend (Manager.fetchChunk env) 0 (Z.of_nat (length chunks)) ->
          nondecreasing (managerAcksIn (Manager.fetchChunk env) t) /\
          nondecreasing (managerProgressOf t))).
Proof.
  split.
  - intros env blob id chunkSize start token w.
    destruct (uploadChunks_trace env blob id chunkSize start token w)
      as (t & Ht & Hr & Hp & Hmono).
    exists t. split; [exact Ht|]. split; [exact Hr|]. split; [exact Hp|].
    intros chunks Hchunks H. rewrite Hp, <- list_fmap_compose.
    apply (Hmono chunks Hchunks H).
  - intros env w u. subst u.
    destruct (ManagerReports.uploadChunks_reports env 0
                (from_option (fun chunks => Z.of_nat (length chunks)) 0
                   (slicedChunks (Manager.blob (Manager.upload w))
                      (Manager.chunkSize (Manager.upload w)))) w)
      as (t & Ht & Hr & Hs & Hf & Hm).
    exists t. split; [exact Ht|]. split; [exact Hr|]. split; [exact Hs|].
    intros chunks Hchunks Hcounting Hmono. rewrite Hchunks in Hm.
    cbn [from_option] in Hm.
    assert (Hacks : nondecreasing (managerAcksIn (Manager.fetchChunk env) t)).
    { apply Hm; [exact Hcounting|exact Hmono|].
      intros j (chunks' & [= <-] & Hsome). unfold chunkAt in Hsome.
      destruct (Z.ltb_spec j 0) as [Hneg|Hpos].
      - destruct Hsome as [c Hc]. discriminate.
      - apply lookup_lt_is_Some in Hsome. lia. }
    split; [exact Hacks|]. eapply nondecreasing_sublist; eassumption.
Qed.

(** Witness for C9: a backend that acknowledges the bytes up to the end of
    each chunk, for the hook and for [UploadManager]. *)
Lemma progress_follows_acknowledgments_witness :
  (exists t,
     trace (uploadChunks (numericTokenBackend healthyNetwork) (mkBlob 0 20)
              "rec" 8 0 "3" (useResumableUpload ∅)).2
     = trace (useResumableUpload ∅) ++ t /\
     nondecreasing (p_uploadedBytes <$> progressOf t)) /\
  (exists t,
     Manager.trace (Manager.uploadChunks healthyManagerEnv sampleManagerUpload).2
     = Manager.trace sampleManagerUpload ++ t /\
     nondecreasing (managerProgressOf t)).
Proof.
  split.
  - destruct (proj1 progress_follows_acknowledgments
                (numericTokenBackend healthyNetwork)
                (mkBlob 0 20) "rec" 8 0 "3" (useResumableUpload ∅))
      as (t & Ht & _ & _ & Hmono).
    exists t. split; [exact Ht|].
    apply (Hmono [mkBlob 0 8; mkBlob 8 8; mkBlob 16 4]); [reflexivity|].
    intros i j a a' r r' Hi Hij Hj [= <-] [= <-]. cbn. lia.
  - destruct (proj2 progress_follows_acknowledgments healthyManagerEnv
                sampleManagerUpload)
      as (t & Ht & _ & _ & Hmono).
    exists t. split; [exact Ht|].
    apply (Hmono [mkBlob 0 8; mkBlob 8 8; mkBlob 16 4]).
    + reflexivity.
    + intros i a r Hi Hlt [= <-]. cbn. lia.
    + intros i j a a' r r' Hi Hij Hj [= <-] [= <-]. cbn. lia.
Defined.

(** Counterexample to C9 as stated: the backend acknowledges 16, 12 and 8
    bytes for chunks 0, 1 and 2; the Progress reported by the single-stream
    hook and by [UploadManager] decreases. *)
Lemma progress_can_decrease :
  ~ nondecreasing
      (p_uploadedBytes <$>
         progressOf
           (trace (upload (numericTokenBackend shrinkingNetwork) (mkBlob 0 20)
                     (useResumableUpload ∅)).2)) /\
  ~ nondecreasing
      (managerProgressOf
         (Manager.trace
            (Manager.uploadChunks shrinkingManagerEnv sampleManagerUpload).2)).
Proof.
  split; intros H.
  - specialize (H 0%nat 1%nat 16 12 ltac:(lia)).
    assert (16 <= 12) by (apply H; vm_compute; reflexivity). lia.
  - specialize (H 0%nat 1%nat 16 12 ltac:(lia)).
    assert (16 <= 12) by (apply H; vm_compute; reflexivity). lia.
Qed.

(** * The single-stream session *)

Ltac run_session :=
  cbv beta iota zeta delta
    [bind tryCatch call await ret throw hang emit emitAll
     setState setProgress setError setRecordingId setPlaybackUrl
     saveRecordingId clearRecordingId capturePlaybackUrl updateHook modify
     fst snd hook sessionStorage trace state progress errorMessage
     recordingId playbackUrl negb].

(** [resume] when the backend has every byte: no chunk is sent, the state
    is set to [completed] before the completion call is made, and the
    stored identity is left as it was. *)
Lemma resume_already_complete env id blob w token status :
  isAuthenticated env = true ->
  getAccessToken env = Ok token ->
  getUploadStatus env id = Ok status ->
  status_fileSize status <= status_uploadedBytes status ->
  let r := resume env id blob w in
  sessionStorage r.2 = sessionStorage w /\
  exists tail,
    trace r.2
    = trace w ++ [CallGetAccessToken; SetState initializing;
                  CallGetUploadStatus id; SetState completed;
                  CallComplete id (status_fileSize status)] ++ tail /\
    match completeVideoUpload env id (status_fileSize status) with
    | Ok result =>
        tail = [] /\ state (hook r.2) = completed /\
        r.1 = Ok (id, complete_playbackUrl result)
    | Throw message =>
        tail = [SetState error] /\ state (hook r.2) = error /\ r.1 = Throw message
    | Hang => tail = [] /\ state (hook r.2) = completed /\ r.1 = Hang
    end.
Proof.
  intros Hauth Htoken Hstatus Hle r. subst r. unfold resume.
  assert (Hb : (status_fileSize status <=? status_uploadedBytes status) = true)
    by lia.
  rewrite Hauth. run_session. rewrite Htoken. run_session.
  rewrite Hstatus. run_session. rewrite Hb. run_session.
  destruct (completeVideoUpload env id (status_fileSize status))
    as [result|message|] eqn:Hcomplete; run_session.
  - destruct (truthy (complete_playbackUrl result)); run_session;
      (split; [reflexivity|]); exists []; rewrite <- !app_assoc; cbn; auto.
  - split; [reflexivity|]. exists [SetState error].
    rewrite <- !app_assoc. cbn. auto.
  - split; [reflexivity|]. exists []. rewrite <- !app_assoc. cbn. auto.
Qed.


Lemma slicedChunks_spec b chunkSize :
  0 < chunkSize -> 0 <= size b ->
  slicedChunks b chunkSize
  = Some (nthChunk b chunkSize <$> seqZ 0 (Math_ceil_div (size b) chunkSize)).
Proof.
  intros Hc Hs. unfold slicedChunks, sliceFuel.
  apply sliceBlobIntoChunks_spec; [assumption|assumption|lia].
Qed.

(** With a chunk size that is not positive the loop of the slicer never
    ends on a non-empty blob. *)
Lemma sliceLoop_diverges b chunkSize fuel : forall start,
  chunkSize <= 0 -> start < size b -> sliceLoop fuel b chunkSize start = None.
Proof.
  induction fuel as [|fuel IH]; intros start Hc Hs; [reflexivity|].
  cbn [sliceLoop]. destruct (Z.ltb_spec start (size b)); [|lia].
  rewrite IH by lia. reflexivity.
Qed.

(** C3. For a payload of size [S], a chunk size [C > 0] and an acknowledged
    count in [0, S]: below [S] the resume calculator returns an index in
    [0, ceil(S/C) - 1], the slicer's sequence has a chunk at that index and
    this chunk holds the first byte that is not acknowledged; at [S] the
    resume path signals that the upload is already complete, setting the
    state to [completed] and asking for no chunk. *)
Theorem resume_index_is_valid (S C acknowledgedBytes : Z) :
  0 < C -> 0 <= acknowledgedBytes <= S ->
  let i := calculateStartingChunkIndex acknowledgedBytes C in
  (acknowledgedBytes < S ->
     0 <= i <= Math_ceil_div S C - 1 /\
     forall o, exists chunks chunk,
       slicedChunks (mkBlob o S) C = Some chunks /\
       chunkAt chunks i = Some chunk /\
       (Z.to_nat i < length chunks)%nat /\
       offset chunk <= o + acknowledgedBytes < blobEnd chunk) /\
  (acknowledgedBytes = S ->
     forall env id blob w token,
       isAuthenticated env = true -> getAccessToken env = Ok token ->
       getUploadStatus env id = Ok (mkStatus acknowledgedBytes C S) ->
       exists tail,
         trace (resume env id blob w).2
         = trace w ++ [CallGetAccessToken; SetState initializing;
                       CallGetUploadStatus id; SetState completed;
                       CallComplete id S] ++ tail /\
         fetchesOf tail = []).
Proof.
  intros HC Hack i.
  pose proof (calculateStartingChunkIndex_floor acknowledgedBytes C HC) as Hfloor.
  fold i in Hfloor.
  pose proof (Math_ceil_div_bounds S C HC) as Hceil.
  split.
  - intros Hlt.
    assert (Hi : 0 <= i <= Math_ceil_div S C - 1) by nia.
    split; [exact Hi|]. intros o.
    exists (nthChunk (mkBlob o S) C <$> seqZ 0 (Math_ceil_div S C)),
           (nthChunk (mkBlob o S) C i).
    split; [apply (slicedChunks_spec (mkBlob o S)); cbn; lia|].
    assert (Hlook : (nthChunk (mkBlob o S) C <$> seqZ 0 (Math_ceil_div S C))
                      !! Z.to_nat i = Some (nthChunk (mkBlob o S) C i)).
    { apply nthChunk_lookup. rewrite Z2Nat.id by lia. split; [lia|reflexivity]. }
    split; [|split].
    + unfold chunkAt. destruct (Z.ltb_spec i 0); [lia|exact Hlook].
    + apply lookup_lt_Some in Hlook. exact Hlook.
    + unfold blobEnd, nthChunk. cbn [offset size]. nia.
  - intros -> env id blob w token Hauth Htoken Hstatus.
    destruct (resume_already_complete env id blob w token _ Hauth Htoken Hstatus)
      as (_ & tail & Htrace & Htail); [cbn; lia|].
    exists tail. split; [exact Htrace|]. cbn [status_fileSize] in Htail.
    destruct (completeVideoUpload env id S); destruct Htail as (-> & _);
      reflexivity.
Qed.

(** Witness for C3: 8,000,000 of 20,000,000 bytes acknowledged. *)
Lemma resume_index_is_valid_witness :
  0 <= calculateStartingChunkIndex 8000000 8000000
    <= Math_ceil_div 20000000 8000000 - 1.
Proof.
  destruct (resume_index_is_valid 20000000 8000000 8000000) as [H _];
    [lia|lia|].
  apply H. lia.
Defined.



(** ** The order of the [PUT]s of a walk *)



Section WalkOrder.

Variable net : Network.
Variable uploadFn : Z -> Transported.
Variable callOf : Z -> ChunkCall.
Variable totalSize : Z.
Hypothesis uploadFn_shape : forall i, transportShape net (callOf i) (uploadFn i).
Hypothesis uploadFn_calls :
  forall i c rng a, Fetch c rng a ∈ (uploadFn i).2 -> c = callOf i.
Hypothesis callOf_inj : forall i j, callOf i = callOf j -> i = j.
Hypothesis uploadFn_budget :
  (forall i, (uploadFn i).2 = []) \/
  (forall i, exists rest,
     (uploadFn i).2 = Fetch (callOf i) (contentRange (callOf i)) 0 :: rest).

Local Abbreviation sent remaining i :=
  (fetchesOf (walkEvents totalSize (chunkWalk uploadFn remaining i))).










End WalkOrder.









(** * The persisted identity *)

(** [upload] once the session is granted: completion removes the stored
    identity; a chunk that exhausts its budget or a failed completion call
    sets [error] and leaves the identity that was stored at initiation. *)
Lemma upload_settles env blob w token init :
  isAuthenticated env = true ->
  getAccessToken env = Ok token ->
  initResumableUpload env (size blob) = Ok init ->
  let r := upload env blob w in
  match r.1 with
  | Ok _ =>
      state (hook r.2) = completed /\
      sessionStorage r.2 = delete SESSION_STORAGE_KEY (sessionStorage w)
  | Throw message =>
      state (hook r.2) = error /\
      errorMessage (hook r.2) = Some message /\
      sessionStorage r.2
      = <[SESSION_STORAGE_KEY := init_recordingId init]> (sessionStorage w)
  | Hang =>
      sessionStorage r.2
      = <[SESSION_STORAGE_KEY := init_recordingId init]> (sessionStorage w)
  end.
Proof.
  intros Hauth Htoken Hinit r. subst r. unfold upload.
  rewrite Hauth. run_session. rewrite Htoken. run_session.
  rewrite Hinit. run_session. rewrite uploadChunks_spec.
  destruct (slicedChunks blob (init_chunkSize init)) as [chunks|];
    [|run_session; reflexivity].
  cbv zeta.
  destruct (walkOutcome _) as [[]|message|]; unfold afterWalk; run_session;
    [|auto|reflexivity].
  destruct (completeVideoUpload env (init_recordingId init) (size blob))
    as [result|message|]; run_session; [|auto|reflexivity].
  destruct (truthy (complete_playbackUrl result)); run_session;
    (split; [reflexivity|apply delete_insert_eq]).
Qed.

(** A failure before the session is granted sets [error] and does not
    touch the store. *)
Lemma upload_not_granted env blob w :
  isAuthenticated env = true ->
  (exists message, getAccessToken env = Throw message) \/
  (exists token message,
     getAccessToken env = Ok token /\
     initResumableUpload env (size blob) = Throw message) ->
  let r := upload env blob w in
  state (hook r.2) = error /\ sessionStorage r.2 = sessionStorage w.
Proof.
  intros Hauth Hfail r. subst r. unfold upload. rewrite Hauth. run_session.
  destruct Hfail as [[message Htoken]|(token & message & Htoken & Hinit)].
  - rewrite Htoken. run_session. auto.
  - rewrite Htoken. run_session. rewrite Hinit. run_session. auto.
Qed.

(** [resume] that has chunks to send: completion removes the stored
    identity, every failure leaves it. *)
Lemma resume_settles env id blob w token status :
  isAuthenticated env = true ->
  getAccessToken env = Ok token ->
  getUploadStatus env id = Ok status ->
  status_uploadedBytes status < status_fileSize status ->
  let r := resume env id blob w in
  match r.1 with
  | Ok _ =>
      state (hook r.2) = completed /\
      sessionStorage r.2 = delete SESSION_STORAGE_KEY (sessionStorage w)
  | Throw message =>
      state (hook r.2) = error /\ sessionStorage r.2 = sessionStorage w
  | Hang => sessionStorage r.2 = sessionStorage w
  end.
Proof.
  intros Hauth Htoken Hstatus Hlt r. subst r. unfold resume.
  assert (Hb : (status_fileSize status <=? status_uploadedBytes status) = false)
    by lia.
  rewrite Hauth. run_session. rewrite Htoken. run_session.
  rewrite Hstatus. run_session. rewrite Hb. run_session.
  rewrite uploadChunks_spec.
  destruct (slicedChunks blob (status_chunkSize status)) as [chunks|];
    [|run_session; reflexivity].
  cbv zeta.
  destruct (walkOutcome _) as [[]|message|]; unfold afterWalk; run_session;
    [|auto|reflexivity].
  destruct (completeVideoUpload env id (size blob))
    as [result|message|]; run_session; [|auto|reflexivity].
  destruct (truthy (complete_playbackUrl result)); run_session; auto.
Qed.

(** [reset] sets [idle] and removes the stored identity. *)
Lemma reset_clears w :
  state (hook (reset w).2) = idle /\
  sessionStorage (reset w).2 = delete SESSION_STORAGE_KEY (sessionStorage w).
Proof. unfold reset. run_session. auto. Qed.

(** C6 (evaluation of the code where it departs from the claim).  A tab
    holds the identity of an interrupted upload whose bytes the backend has
    all acknowledged.  [resume] returns the playback reference and leaves
    the session in [completed], and the identity is still in the store: a
    hook mounted afterwards finds it and starts in [paused]. *)
Theorem completed_resume_keeps_identity :
  let r := resume completedBackend "rec" (mkBlob 0 20)
             (useResumableUpload storedIdentity) in
  r.1 = Ok ("rec", Some "https://playback") /\
  state (hook r.2) = completed /\
  (ClearRecordingId ∉ trace r.2) /\
  (sessionStorage r.2) !! SESSION_STORAGE_KEY = Some "rec" /\
  state (hook (useResumableUpload (sessionStorage r.2))) = paused.
Proof.
  intros r.
  destruct (resume_already_complete completedBackend "rec" (mkBlob 0 20)
              (useResumableUpload storedIdentity) _ _ eq_refl eq_refl eq_refl)
    as (Hstore & tail & Htrace & Htail); [cbn; lia|].
  fold r in Hstore, Htrace, Htail. cbn in Htail.
  destruct Htail as (-> & Hstate & Hret).
  split; [exact Hret|]. split; [exact Hstate|]. split.
  - rewrite Htrace. cbn. intros H. rewrite !elem_of_cons, elem_of_nil in H.
    intuition discriminate.
  - rewrite Hstore. split; reflexivity.
Qed.

(** * The dual-stream session *)

Module DualProofs.

Import Dual.

Ltac run_dual :=
  cbv beta iota zeta delta
    [bind ret await throw hang modify tryCatch
     emit emitAll setState setProgress setError setRecordingId setPlaybackUrl
     setWalk settle catchBlock streamProgress walkOf beginCall
     fst snd state progress errorMessage recordingId playbackUrl trace
     screenWalk webcamWalk returned].

Lemma statesOf_app t1 t2 : statesOf (t1 ++ t2) = statesOf t1 ++ statesOf t2.
Proof. apply omap_app. Qed.

Lemma completionsOf_app t1 t2 :
  completionsOf (t1 ++ t2) = completionsOf t1 ++ completionsOf t2.
Proof. apply omap_app. Qed.

Lemma statesOf_net stream effects : statesOf (Net stream <$> effects) = [].
Proof. induction effects as [|e effects IH]; [reflexivity|]. cbn. exact IH. Qed.

Lemma completionsOf_net stream effects :
  completionsOf (Net stream <$> effects) = [].
Proof. induction effects as [|e effects IH]; [reflexivity|]. cbn. exact IH. Qed.

(** What an iteration of a walk does to the world: it extends the trace by
    transport events and progress reports, replaces the promise of its
    stream and leaves the state and the promise of [upload] alone. *)
Lemma advance_frame stream totalSize w :
  let w' := (advance stream totalSize w).2 in
  (advance stream totalSize w).1 = Ok tt /\
  state w' = state w /\ returned w' = returned w /\
  (exists t, trace w' = trace w ++ t /\ statesOf t = [] /\ completionsOf t = []) /\
  (forall other, other <> stream -> walkOf other w' = walkOf other w) /\
  (walkOf stream w' = walkOf stream w \/
   exists step steps,
     walkOf stream w = Pending (step :: steps) /\
     match step_outcome step with
     | Ok _ => walkOf stream w' = promiseOf steps
     | Throw message => walkOf stream w' = Rejected message
     | Hang => False
     end).
Proof.
  intros w'. subst w'. unfold advance.
  destruct w as [st pr err rid url tr sw ww ret].
  destruct stream; cbn [walkOf screenWalk webcamWalk].
  - destruct sw as [[|step steps]| |];
      try (cbn; repeat split; auto; exists []; rewrite app_nil_r; auto; fail).
    destruct (step_outcome step) as [result|message|] eqn:Hout;
      try (cbn; repeat split; auto; exists []; rewrite app_nil_r; auto; fail).
    + run_dual. destruct pr as [prev|]; run_dual.
      * repeat split.
        -- eexists. rewrite <- app_assoc. split; [reflexivity|].
           rewrite statesOf_app, completionsOf_app, statesOf_net,
             completionsOf_net. auto.
        -- intros other Hne. destruct other; [congruence|reflexivity].
        -- right. exists step, steps. rewrite Hout. auto.
      * repeat split.
        -- eexists. split; [reflexivity|].
           rewrite statesOf_net, completionsOf_net. auto.
        -- intros other Hne. destruct other; [congruence|reflexivity].
        -- right. exists step, steps. rewrite Hout. auto.
    + run_dual. repeat split.
      * eexists. split; [reflexivity|].
        rewrite statesOf_net, completionsOf_net. auto.
      * intros other Hne. destruct other; [congruence|reflexivity].
      * right. exists step, steps. rewrite Hout. auto.
  - destruct ww as [[|step steps]| |];
      try (cbn; repeat split; auto; exists []; rewrite app_nil_r; auto; fail).
    destruct (step_outcome step) as [result|message|] eqn:Hout;
      try (cbn; repeat split; auto; exists []; rewrite app_nil_r; auto; fail).
    + run_dual. destruct pr as [prev|]; run_dual.
      * repeat split.
        -- eexists. rewrite <- app_assoc. split; [reflexivity|].
           rewrite statesOf_app, completionsOf_app, statesOf_net,
             completionsOf_net. auto.
        -- intros other Hne. destruct other; [reflexivity|congruence].
        -- right. exists step, steps. rewrite Hout. auto.
      * repeat split.
        -- eexists. split; [reflexivity|].
           rewrite statesOf_net, completionsOf_net. auto.
        -- intros other Hne. destruct other; [reflexivity|congruence].
        -- right. exists step, steps. rewrite Hout. auto.
    + run_dual. repeat split.
      * eexists. split; [reflexivity|].
        rewrite statesOf_net, completionsOf_net. auto.
      * intros other Hne. destruct other; [reflexivity|congruence].
      * right. exists step, steps. rewrite Hout. auto.
Qed.

Lemma advance_walk_stable stream totalSize w s :
  (forall step steps, walkOf s w <> Pending (step :: steps)) ->
  walkOf s (advance stream totalSize w).2 = walkOf s w.
Proof.
  intros Hsettled.
  destruct (advance_frame stream totalSize w)
    as (_ & _ & _ & _ & Hother & Hwalk).
  destruct s, stream; try (apply Hother; discriminate).
  - destruct Hwalk as [Heq|(step & steps & Hp & _)]; [exact Heq|].
    exfalso. eapply Hsettled. exact Hp.
  - destruct Hwalk as [Heq|(step & steps & Hp & _)]; [exact Heq|].
    exfalso. eapply Hsettled. exact Hp.
Qed.

Lemma not_in_app_quiet t t' :
  completed ∉ statesOf t -> statesOf t' = [] -> completed ∉ statesOf (t ++ t').
Proof. intros Ht Ht'. rewrite statesOf_app, Ht', app_nil_r. exact Ht. Qed.

Lemma advance_keeps id t0 stream totalSize w :
  settledOrInFlight id t0 w ->
  beforeJoin id t0 (advance stream totalSize w).2.
Proof.
  intros (t & Ht & Hcase).
  destruct (advance_frame stream totalSize w)
    as (_ & Hstate & Hret & (t' & Htrace & Hs & Hc) & _).
  assert (Hstable : forall s,
            walkOf s w = Fulfilled \/ isRejected (walkOf s w) = true ->
            walkOf s (advance stream totalSize w).2 = walkOf s w).
  { intros s Hs'. apply advance_walk_stable. intros step steps Heq.
    rewrite Heq in Hs'. destruct Hs'; discriminate. }
  assert (Htr : trace (advance stream totalSize w).2 = t0 ++ (t ++ t')).
  { rewrite Htrace, Ht, app_assoc. reflexivity. }
  assert (Hcs : completionsOf (t ++ t') = completionsOf t).
  { rewrite completionsOf_app, Hc, app_nil_r. reflexivity. }
  unfold beforeJoin, settledOrInFlight. rewrite Hret.
  destruct (returned w) as [[r|m|]|].
  - destruct Hcase as (Hst & Hcompl & Hsw & Hww).
    exists (t ++ t'). split; [exact Htr|]. rewrite Hstate, Hcs.
    pose proof (Hstable ScreenStream (or_introl Hsw)) as H1.
    pose proof (Hstable WebcamStream (or_introl Hww)) as H2.
    cbn [walkOf] in H1, H2. rewrite H1, H2. auto.
  - destruct Hcase as (Hst & Hnot & Hdisj).
    exists (t ++ t'). split; [exact Htr|]. rewrite Hstate, Hcs.
    split; [exact Hst|]. split; [apply not_in_app_quiet; assumption|].
    destruct Hdisj as [[Hcompl Hrej]|(Hcompl & Hsw & Hww)].
    + left. split; [exact Hcompl|].
      apply orb_true_iff in Hrej as [Hrej|Hrej].
      * pose proof (Hstable ScreenStream (or_intror Hrej)) as H1.
        cbn [walkOf] in H1. rewrite H1, Hrej. reflexivity.
      * pose proof (Hstable WebcamStream (or_intror Hrej)) as H2.
        cbn [walkOf] in H2. rewrite H2, Hrej. apply orb_true_r.
    + right. split; [exact Hcompl|].
      pose proof (Hstable ScreenStream (or_introl Hsw)) as H1.
      pose proof (Hstable WebcamStream (or_introl Hww)) as H2.
      cbn [walkOf] in H1, H2. rewrite H1, H2. auto.
  - destruct Hcase as (Hst & Hnot & Hcompl & Hsw & Hww).
    exists (t ++ t'). split; [exact Htr|]. rewrite Hstate, Hcs.
    pose proof (Hstable ScreenStream (or_introl Hsw)) as H1.
    pose proof (Hstable WebcamStream (or_introl Hww)) as H2.
    cbn [walkOf] in H1, H2. rewrite H1, H2.
    split; [exact Hst|]. split; [apply not_in_app_quiet; assumption|]. auto.
  - destruct Hcase as (Hst & Hcompl & Hnot & _).
    exists (t ++ t'). split; [exact Htr|]. rewrite Hstate, Hcs.
    split; [exact Hst|]. split; [exact Hcompl|].
    apply not_in_app_quiet; assumption.
Qed.

Ltac not_completed Hnot :=
  rewrite statesOf_app; cbn; rewrite elem_of_app;
  let H := fresh in
  intros [H|H]; [exact (Hnot H)|];
  rewrite ?elem_of_cons, elem_of_nil in H; intuition discriminate.

Lemma joinAll_settles env id t0 w :
  beforeJoin id t0 w ->
  settledOrInFlight id t0 (joinAll env id w).2 /\
  (joinAll env id w).1 = Ok tt /\
  screenWalk (joinAll env id w).2 = screenWalk w /\
  webcamWalk (joinAll env id w).2 = webcamWalk w.
Proof.
  destruct w as [st pr err rid url tr sw ww ret].
  unfold beforeJoin, joinAll. cbn [returned screenWalk webcamWalk].
  destruct ret as [o|]; [intros H; cbn; auto|].
  intros (t & Ht & Hst & Hc & Hnot). cbn in Ht, Hst. subst tr st.
  assert (Hreject : forall m sw' ww',
            isRejected sw' || isRejected ww' = true ->
            let w := mkWorld uploading pr err rid url (t0 ++ t) sw' ww' None in
            settledOrInFlight id t0 (catchBlock m w).2 /\
            (catchBlock m w).1 = Ok tt /\
            screenWalk (catchBlock m w).2 = sw' /\
            webcamWalk (catchBlock m w).2 = ww').
  { intros m sw' ww' Hrej. run_dual. split; [|auto].
    exists (t ++ [SetState error; OnError m]). cbn.
    split; [rewrite <- !app_assoc; reflexivity|].
    split; [reflexivity|]. split; [not_completed Hnot|].
    left. split; [|exact Hrej]. rewrite completionsOf_app, Hc. reflexivity. }
  assert (Hwait : forall sw' ww',
            isRejected sw' = false -> isRejected ww' = false ->
            isFulfilled sw' && isFulfilled ww' = false ->
            let w := mkWorld uploading pr err rid url (t0 ++ t) sw' ww' None in
            settledOrInFlight id t0 w).
  { intros sw' ww' H1 H2 H3. exists t. cbn. auto 10. }
  destruct sw as [ss| |ms]; destruct ww as [ws| |mw];
    try (apply Hreject; reflexivity);
    try (split; [apply Hwait; reflexivity|auto]; fail).
  unfold afterAll. run_dual.
  destruct (completeDualUpload env id) as [result|message|]; run_dual.
  - assert (Hdone : forall url',
              settledOrInFlight id t0
                (mkWorld completed pr err rid url'
                   (((t0 ++ t) ++ [SetState completing]) ++ [CallCompleteDual id]
                      ++ [SetState completed])
                   Fulfilled Fulfilled
                   (Some (Ok (dc_recordingId result, dc_playbackUrl result,
                              dc_fileSize result))))).
    { intros url'.
      exists (t ++ [SetState completing; CallCompleteDual id; SetState completed]).
      cbn. split; [rewrite <- !app_assoc; reflexivity|].
      split; [reflexivity|]. rewrite completionsOf_app, Hc. auto. }
    destruct (truthy (dc_playbackUrl result)); run_dual;
      (split; [|auto]); rewrite <- !(app_assoc _ [CallCompleteDual id]);
      apply Hdone.
  - split; [|auto].
    exists (t ++ [SetState completing; CallCompleteDual id; SetState error;
                  OnError message]).
    cbn. split; [rewrite <- !app_assoc; reflexivity|].
    split; [reflexivity|]. split; [not_completed Hnot|].
    right. rewrite completionsOf_app, Hc. auto.
  - split; [|auto].
    exists (t ++ [SetState completing; CallCompleteDual id]).
    cbn. split; [rewrite <- !app_assoc; reflexivity|].
    split; [reflexivity|]. split; [not_completed Hnot|].
    rewrite completionsOf_app, Hc. auto.
Qed.

Lemma joinAll_ok env id w :
  (joinAll env id w).1 = Ok tt /\
  screenWalk (joinAll env id w).2 = screenWalk w /\
  webcamWalk (joinAll env id w).2 = webcamWalk w.
Proof.
  destruct w as [st pr err rid url tr sw ww ret].
  unfold joinAll. cbn [returned screenWalk webcamWalk].
  destruct ret as [o|]; [cbn; auto|].
  destruct sw as [ss| |ms]; destruct ww as [ws| |mw]; try (run_dual; auto; fail).
  unfold afterAll. run_dual.
  destruct (completeDualUpload env id) as [result|message|]; run_dual; auto.
  destruct (truthy (dc_playbackUrl result)); run_dual; auto.
Qed.

Lemma run_cons env id sb wb stream schedule w :
  run env id sb wb (stream :: schedule) w
  = run env id sb wb schedule
      (joinAll env id (advance stream (sizeOf stream sb wb) w).2).2.
Proof.
  cbn [run]. unfold bind.
  destruct (advance_frame stream (sizeOf stream sb wb) w) as (Hok & _).
  destruct (advance stream (sizeOf stream sb wb) w) as [o w1]. cbn in Hok.
  subst o. cbn [snd].
  destruct (joinAll_ok env id w1) as (Hok & _).
  destruct (joinAll env id w1) as [o w2]. cbn in Hok. subst o. reflexivity.
Qed.

Lemma run_app env id sb wb s1 : forall s2 w,
  run env id sb wb (s1 ++ s2) w = run env id sb wb s2 (run env id sb wb s1 w).2.
Proof.
  induction s1 as [|stream s1 IH]; intros s2 w; [reflexivity|].
  rewrite <- app_comm_cons, !run_cons. apply IH.
Qed.

Lemma run_ok env id sb wb schedule : forall w,
  (run env id sb wb schedule w).1 = Ok tt.
Proof.
  induction schedule as [|stream schedule IH]; intros w; [reflexivity|].
  rewrite run_cons. apply IH.
Qed.

Lemma run_settles env id sb wb t0 schedule : forall w,
  settledOrInFlight id t0 w ->
  settledOrInFlight id t0 (run env id sb wb schedule w).2.
Proof.
  induction schedule as [|stream schedule IH]; intros w Hw; [exact Hw|].
  rewrite run_cons. apply IH.
  apply joinAll_settles, advance_keeps, Hw.
Qed.

(** An iteration moves the promise of its walk one step through the
    walk's iterations. *)
Lemma advance_progressed stream totalSize w s steps :
  walkProgressed steps (walkOf s w) ->
  walkProgressed steps (walkOf s (advance stream totalSize w).2).
Proof.
  intros Hp.
  destruct (advance_frame stream totalSize w)
    as (_ & _ & _ & _ & Hother & Hwalk).
  assert (Hsame : s <> stream ->
            walkProgressed steps (walkOf s (advance stream totalSize w).2)).
  { intros Hne. rewrite Hother by exact Hne. exact Hp. }
  assert (Hmine : walkProgressed steps (walkOf stream w) ->
            walkProgressed steps (walkOf stream (advance stream totalSize w).2)).
  { clear Hp. intros Hp.
    destruct Hwalk as [->|(step & rest & Hpending & Hcase)]; [exact Hp|].
    rewrite Hpending in Hp. destruct Hp as (pre & -> & Hpre).
    destruct (step_outcome step) as [result|message|] eqn:Hout; [| |contradiction].
    - rewrite Hcase.
      assert (Hpre' : acknowledgedAll (pre ++ [step])).
      { apply Forall_app. split; [exact Hpre|]. constructor; [eauto|constructor]. }
      destruct rest as [|step' rest]; cbn.
      + exact Hpre'.
      + exists (pre ++ [step]). rewrite <- app_assoc. auto.
    - rewrite Hcase. exists pre, step, rest. auto. }
  destruct s, stream; auto; apply Hsame; discriminate.
Qed.

Lemma run_progressed env id sb wb schedule s steps : forall w,
  walkProgressed steps (walkOf s w) ->
  walkProgressed steps (walkOf s (run env id sb wb schedule w).2).
Proof.
  induction schedule as [|stream schedule IH]; intros w Hw; [exact Hw|].
  rewrite run_cons. apply IH.
  destruct (joinAll_ok env id (advance stream (sizeOf stream sb wb) w).2)
    as (_ & Hs & Hw').
  apply (advance_progressed stream (sizeOf stream sb wb) w s steps) in Hw.
  destruct s; cbn [walkOf] in *; [rewrite Hs|rewrite Hw']; exact Hw.
Qed.

(** A settled walk stays as it is. *)
Lemma run_rejected env id sb wb schedule s message : forall w,
  walkOf s w = Rejected message ->
  walkOf s (run env id sb wb schedule w).2 = Rejected message.
Proof.
  induction schedule as [|stream schedule IH]; intros w Hw; [exact Hw|].
  rewrite run_cons. apply IH.
  destruct (joinAll_ok env id (advance stream (sizeOf stream sb wb) w).2)
    as (_ & Hs & Hw').
  assert (Hadv : walkOf s (advance stream (sizeOf stream sb wb) w).2
                 = Rejected message).
  { rewrite advance_walk_stable; [exact Hw|].
    intros step steps Heq. congruence. }
  destruct s; cbn [walkOf] in *; congruence.
Qed.

Lemma promiseOf_progressed steps : walkProgressed steps (promiseOf steps).
Proof.
  destruct steps as [|step steps]; cbn; [constructor|].
  exists []. split; [reflexivity|constructor].
Qed.

(** [launch] either settles the call without starting a walk, or starts
    both walks and lets [Promise.all] look at them. *)
Lemma launch_cases env sb wb options w0 :
  let r := launch env sb wb options w0 in
  ((forall id, r.1 <> Ok (Some id)) /\
   screenWalk r.2 = Pending [] /\ webcamWalk r.2 = Pending [] /\
   exists t, trace r.2 = trace w0 ++ t /\ completionsOf t = []) \/
  (exists opts position init screenSteps webcamSteps,
     options = Some opts /\ webcamPosition opts = Some position /\
     initDualUpload env (size sb) (size wb) (webcamPositionToApiFormat position)
       (duration opts) = Ok init /\
     uploadStreamChunks ScreenStream (network env) sb (init_recordingId init)
       (init_chunkSize init) = Some screenSteps /\
     uploadStreamChunks WebcamStream (network env) wb (init_recordingId init)
       (init_chunkSize init) = Some webcamSteps /\
     r.1 = Ok (Some (init_recordingId init)) /\
     settledOrInFlight (init_recordingId init) (trace w0) r.2 /\
     walkProgressed screenSteps (screenWalk r.2) /\
     walkProgressed webcamSteps (webcamWalk r.2)).
Proof.
  destruct w0 as [st pr err rid url tr sw ww ret].
  intros r. subst r. unfold launch.
  destruct options as [opts|];
    [|run_dual; left; repeat split; try discriminate;
      exists []; rewrite app_nil_r; auto].
  destruct (duration opts =? 0);
    [run_dual; left; repeat split; try discriminate;
     exists []; rewrite app_nil_r; auto|].
  destruct (webcamPosition opts) as [position|] eqn:Hposition;
    [|run_dual; left; repeat split; try discriminate;
      exists []; rewrite app_nil_r; auto].
  run_dual.
  destruct (initDualUpload env (size sb) (size wb)
              (webcamPositionToApiFormat position) (duration opts))
    as [init|message|] eqn:Hinit; run_dual.
  - destruct (uploadStreamChunks ScreenStream (network env) sb
                (init_recordingId init) (init_chunkSize init))
      as [screenSteps|] eqn:Hscreen;
      [|run_dual; left; repeat split; try discriminate;
        eexists; rewrite <- !app_assoc; split; [reflexivity|reflexivity]].
    destruct (uploadStreamChunks WebcamStream (network env) wb
                (init_recordingId init) (init_chunkSize init))
      as [webcamSteps|] eqn:Hwebcam;
      [|run_dual; left; repeat split; try discriminate;
        eexists; rewrite <- !app_assoc; split; [reflexivity|reflexivity]].
    run_dual. right.
    exists opts, position, init, screenSteps, webcamSteps.
    match goal with
    | |- context [joinAll env ?i ?W] =>
        destruct (joinAll_settles env i tr W) as (Hinv & Hok & Hs & Hw);
        [|destruct (joinAll env i W) as [o w2]]
    end.
    + cbn. eexists. rewrite <- !app_assoc. split; [reflexivity|].
      split; [reflexivity|]. split; [reflexivity|].
      cbn. intros H. rewrite !elem_of_cons, elem_of_nil in H.
      intuition discriminate.
    + cbn [fst snd screenWalk webcamWalk] in Hok, Hs, Hw, Hinv. subst o.
      cbv beta iota zeta. cbn [fst snd].
      split; [reflexivity|]. split; [exact Hposition|].
      split; [exact Hinit|]. split; [exact Hscreen|]. split; [exact Hwebcam|].
      split; [reflexivity|]. split; [exact Hinv|].
      change (walkProgressed screenSteps (screenWalk w2) /\
              walkProgressed webcamSteps (webcamWalk w2)).
      rewrite Hs, Hw. split; apply promiseOf_progressed.
  - left. repeat split; try discriminate.
    eexists. rewrite <- !app_assoc. split; [reflexivity|reflexivity].
  - left. repeat split; try discriminate.
    eexists. rewrite <- !app_assoc. split; [reflexivity|reflexivity].
Qed.

Lemma upload_run env sb wb options schedule w0 :
  upload env sb wb options schedule w0
  = match (launch env sb wb options w0).1 with
    | Ok (Some id) => run env id sb wb schedule (launch env sb wb options w0).2
    | Ok None => (Ok tt, (launch env sb wb options w0).2)
    | Throw message => (Throw message, (launch env sb wb options w0).2)
    | Hang => (Hang, (launch env sb wb options w0).2)
    end.
Proof.
  unfold upload, bind. destruct (launch env sb wb options w0) as [[[id|]| |] w1];
    reflexivity.
Qed.

(** With the default budget a transport call throws only after its three
    [PUT]s have failed, and it throws the error of the third. *)
Lemma default_exhausted net call fallback message :
  (putWithRetry net call ArgUndefined fallback).1 = Throw message ->
  exists m0 m1,
    net call 0 = Failed m0 /\ net call 1 = Failed m1 /\
    net call 2 = Failed message.
Proof.
  rewrite putWithRetry_default.
  destruct (net call 0) as [r0|m0]; [discriminate|].
  destruct (net call 1) as [r1|m1]; [discriminate|].
  destruct (net call 2) as [r2|m2]; [discriminate|].
  cbn. intros [= <-]. eauto.
Qed.

(** A stream walk rejects only when the three [PUT]s of one of its chunks
    have failed. *)
Lemma rejected_after_exhaustion stream net blob id chunkSize steps message :
  uploadStreamChunks stream net blob id chunkSize = Some steps ->
  walkProgressed steps (Rejected message) ->
  exists chunks i m0 m1,
    slicedChunks blob chunkSize = Some chunks /\
    let call := streamCall stream chunks (size blob) id chunkSize i in
    net call 0 = Failed m0 /\ net call 1 = Failed m1 /\
    net call 2 = Failed message.
Proof.
  unfold uploadStreamChunks.
  destruct (slicedChunks blob chunkSize) as [chunks|]; [|discriminate].
  cbn. intros [= <-] (pre & step & rest & Hsteps & _ & Hout).
  assert (Hlook : chunkWalk (uploadFnOf stream net id chunks chunkSize (size blob))
                    (iterationsFrom chunks 0) 0 !! length pre = Some step).
  { rewrite Hsteps. rewrite lookup_app_r by lia.
    replace (length pre - length pre)%nat with 0%nat by lia. reflexivity. }
  apply chunkWalk_indices in Hlook as [_ Hfn].
  exists chunks, (0 + Z.of_nat (length pre)).
  assert (Hthrow : (uploadFnOf stream net id chunks chunkSize (size blob)
                      (0 + Z.of_nat (length pre))).1 = Throw message).
  { rewrite <- Hfn. exact Hout. }
  destruct stream; apply default_exhausted in Hthrow as (m0 & m1 & H);
    exists m0, m1; split; auto.
Qed.



(** Once a stream's walk has rejected, the session is in [error] and
    stays there however the walks are resumed afterwards: [upload] has
    rejected, and since the call neither [completed] was set nor the
    completion call was made. *)
Lemma rejected_walk_fails_session
    env sb wb options schedule more w0 stream message :
  walkOf stream (upload env sb wb options schedule w0).2 = Rejected message ->
  let r := upload env sb wb options (schedule ++ more) w0 in
  state r.2 = error /\
  (exists m, returned r.2 = Some (Throw m)) /\
  (exists t,
     trace r.2 = trace w0 ++ t /\ (completed ∉ statesOf t) /\
     completionsOf t = []) /\
  (exists init chunks i m0 m1,
     slicedChunks
       match stream with ScreenStream => sb | WebcamStream => wb end
       (init_chunkSize init) = Some chunks /\
     let call :=
       streamCall stream chunks
         (size match stream with ScreenStream => sb | WebcamStream => wb end)
         (init_recordingId init) (init_chunkSize init) i in
     network env call 0 = Failed m0 /\ network env call 1 = Failed m1 /\
     network env call 2 = Failed message).
Proof.
  rewrite !upload_run.
  destruct (launch_cases env sb wb options w0)
    as [(Hnot & Hsw & Hww & _)|
        (opts & position & init & ss & ws & _ & _ & _ & Hss & Hws & Hok & Hinv
           & Hps & Hpw)].
  - destruct (launch env sb wb options w0) as [[[id|]| |] w1]; cbn in *;
      try (exfalso; eapply Hnot; reflexivity);
      intros Hrej; destruct stream; cbn in Hrej; congruence.
  - destruct (launch env sb wb options w0) as [o w1]. cbn in Hok. subst o.
    cbn [fst snd] in *. intros Hrej. cbv zeta. rewrite run_app.
    set (w2 := (run env (init_recordingId init) sb wb schedule w1).2) in *.
    set (w3 := (run env (init_recordingId init) sb wb more w2).2).
    assert (Hrej3 : walkOf stream w3 = Rejected message)
      by (apply run_rejected; exact Hrej).
    assert (Hinv3 : settledOrInFlight (init_recordingId init) (trace w0) w3)
      by (do 2 apply run_settles; exact Hinv).
    assert (Hsteps : walkProgressed
                       match stream with ScreenStream => ss | WebcamStream => ws end
                       (Rejected message)).
    { rewrite <- Hrej. destruct stream; apply run_progressed; assumption. }
    destruct Hinv3 as (t & Ht & Hcase).
    assert (Hrej' : isRejected (walkOf stream w3) = true) by (rewrite Hrej3; reflexivity).
    destruct (returned w3) as [[res|m|]|].
    + destruct Hcase as (_ & _ & H1 & H2).
      destruct stream; cbn in Hrej3; congruence.
    + destruct Hcase as (Hst & Hnotc & [[Hc _]|(_ & H1 & H2)]);
        [|destruct stream; cbn in Hrej3; congruence].
      split; [exact Hst|]. split; [eauto|]. split; [eauto|].
      destruct stream.
      * destruct (rejected_after_exhaustion ScreenStream (network env) sb _ _ ss
                    message Hss Hsteps) as (chunks & i & m0 & m1 & Hc' & H).
        exists init, chunks, i, m0, m1. auto.
      * destruct (rejected_after_exhaustion WebcamStream (network env) wb _ _ ws
                    message Hws Hsteps) as (chunks & i & m0 & m1 & Hc' & H).
        exists init, chunks, i, m0, m1. auto.
    + destruct Hcase as (_ & _ & _ & H1 & H2).
      destruct stream; cbn in Hrej3; congruence.
    + destruct Hcase as (_ & _ & _ & H1 & H2 & _).
      destruct stream; cbn in Hrej'; congruence.
Qed.

(** Scenario C, evaluated: the webcam walk is fulfilled, the screen walk is
    rejected on its second chunk, the session ends in [error] and the
    completion call is never made. *)
Example scenario_C :
  let r := upload (dualBackend scenarioCNetwork) (mkBlob 0 20) (mkBlob 0 8)
             dualOptions [WebcamStream; ScreenStream; ScreenStream] useDualUpload in
  webcamWalk r.2 = Fulfilled /\
  screenWalk r.2 = Rejected "Screen chunk upload failed: 503 Service Unavailable" /\
  fetchedOf ScreenStream (trace r.2) = [0; 1; 1; 1] /\
  statesOf (trace r.2) = [initializing; uploading; error] /\
  completionsOf (trace r.2) = [] /\
  state r.2 = error.
Proof. vm_compute. auto 10. Qed.




End DualProofs.

(** * Further properties *)

(** ** The chunker with metadata and the direct chunked upload *)

Module ChunkedProofs.

Import Chunked.

Lemma Math_ceil_div_negative a b : 0 <= a -> b < 0 -> Math_ceil_div a b <= 0.
Proof.
  intros Ha Hb. unfold Math_ceil_div.
  replace (- a / b) with (a / - b)
    by (rewrite <- (Z.opp_involutive b) at 2; rewrite Z.div_opp_opp; [reflexivity|lia]).
  pose proof (Z.div_pos a (- b) Ha ltac:(lia)). lia.
Qed.

(** X1.  For a chunk size [C > 0], [chunkBlob] cuts a blob into the chunks
    the slicer of the resumable upload returns, and the metadata of chunk
    [k] says so: index [k], the count of chunks, start byte [k * C], end
    byte [min((k + 1) * C, S)], and a chunk size that is the size of the
    chunk's blob. *)
Theorem chunkBlob_matches_slicer (b : Blob) (C : Z) :
  0 < C -> 0 <= size b ->
  Some (blob <$> chunkBlob b (Some C)) = slicedChunks b C /\
  forall (k : nat) chunkData,
    chunkBlob b (Some C) !! k = Some chunkData ->
    let md := metadata chunkData in
    chunkIndex md = Z.of_nat k /\
    totalChunks md = Z.of_nat (length (chunkBlob b (Some C))) /\
    totalSize md = size b /\
    startByte md = Z.of_nat k * C /\
    endByte md = Z.min ((Z.of_nat k + 1) * C) (size b) /\
    md_chunkSize md = endByte md - startByte md /\
    0 < md_chunkSize md <= C /\
    blob chunkData = mkBlob (offset b + startByte md) (md_chunkSize md).
Proof.
  intros HC HS.
  pose proof (Math_ceil_div_bounds (size b) C HC) as Hb.
  pose proof (Math_ceil_div_nonneg (size b) C HC HS) as Hn.
  assert (Hcs : chunkSizeOption (Some C) = C).
  { cbn. destruct (Z.eqb_spec C 0); [lia|reflexivity]. }
  split.
  - rewrite slicedChunks_spec by assumption. f_equal.
    unfold chunkBlob. rewrite Hcs, <- list_fmap_compose.
    apply list_fmap_ext. intros i k [-> Hk]%lookup_seqZ. cbn.
    rewrite Z.add_0_l.
    assert (H0 : 0 <= Z.of_nat i * C) by nia.
    assert (H1 : Z.of_nat i * C < size b) by nia.
    rewrite slice_in_range by lia. unfold nthChunk. f_equal; lia.
  - intros k chunkData. unfold chunkBlob. rewrite Hcs.
    rewrite list_lookup_fmap, fmap_Some.
    intros (i & [-> Hk]%lookup_seqZ & ->).
    rewrite Z.add_0_l. cbv zeta.
    assert (H0 : 0 <= Z.of_nat k * C) by nia.
    assert (H1 : Z.of_nat k * C < size b) by nia.
    rewrite length_fmap, length_seqZ, slice_in_range by lia. cbn.
    repeat split; lia.
Qed.

Lemma chunkBlob_matches_slicer_witness :
  Some (blob <$> chunkBlob (mkBlob 0 20) (Some 8)) = slicedChunks (mkBlob 0 20) 8.
Proof.
  apply (chunkBlob_matches_slicer (mkBlob 0 20) 8); cbn; lia.
Defined.

Ltac run_chunked :=
  cbv beta iota zeta delta
    [bind ret await throw modify tryCatch emit setState setProgress setError
     setRecordingId setPlaybackUrl hookCallbacks onProgress onChunkComplete
     onError uploadChunkToGCS fst snd state progress errorMessage recordingId
     playbackUrl trace negb].

Lemma putsOf_app t1 t2 : putsOf (t1 ++ t2) = putsOf t1 ++ putsOf t2.
Proof. apply omap_app. Qed.

Lemma chunked_progressOf_app t1 t2 :
  progressOf (t1 ++ t2) = progressOf t1 ++ progressOf t2.
Proof. apply omap_app. Qed.

Lemma errorsOf_app t1 t2 : errorsOf (t1 ++ t2) = errorsOf t1 ++ errorsOf t2.
Proof. apply omap_app. Qed.

Lemma chunksDoneOf_app t1 t2 :
  chunksDoneOf (t1 ++ t2) = chunksDoneOf t1 ++ chunksDoneOf t2.
Proof. apply omap_app. Qed.

Lemma chunked_statesOf_app t1 t2 : statesOf (t1 ++ t2) = statesOf t1 ++ statesOf t2.
Proof. apply omap_app. Qed.

Lemma chunked_completionsOf_app t1 t2 :
  completionsOf (t1 ++ t2) = completionsOf t1 ++ completionsOf t2.
Proof. apply omap_app. Qed.

(** One iteration of the loop on a chunk the storage service accepts. *)
Lemma sequentialLoop_accepted store total n c chunks i uploaded w :
  accepts store (metadata c) = true ->
  let uploaded' := uploaded + md_chunkSize (metadata c) in
  let p := mkProgress uploaded' total (percentageOf' uploaded' total) i n in
  sequentialLoop store hookCallbacks total n (c :: chunks) i uploaded w
  = sequentialLoop store hookCallbacks total n chunks (i + 1) uploaded'
      (mkWorld (state w) (Some p) (errorMessage w) (recordingId w) (playbackUrl w)
         (trace w ++ [Put (rangeOf (metadata c)) (size (blob c)); OnProgress p;
                      OnChunkComplete i n])).
Proof.
  intros Hacc uploaded' p. destruct w as [st pr er id url t].
  cbn [sequentialLoop]. unfold accepts in Hacc. run_chunked.
  destruct (store (metadata c)) as [code statusText errorText|message];
    [|discriminate].
  destruct (ok code), (code =? 308); try discriminate; cbn [andb negb];
    run_chunked; rewrite <- !app_assoc; reflexivity.
Qed.

(** One iteration on a chunk that is not accepted. *)
Lemma sequentialLoop_refused store total n c chunks i uploaded w :
  accepts store (metadata c) = false ->
  sequentialLoop store hookCallbacks total n (c :: chunks) i uploaded w
  = (Throw (refusal store (metadata c)),
     mkWorld (state w) (progress w) (errorMessage w) (recordingId w) (playbackUrl w)
       (trace w ++ [Put (rangeOf (metadata c)) (size (blob c));
                    OnError (refusal store (metadata c)) i])).
Proof.
  intros Hacc. destruct w as [st pr er id url t].
  cbn [sequentialLoop]. unfold accepts in Hacc. unfold refusal. run_chunked.
  destruct (store (metadata c)) as [code statusText errorText|message].
  - destruct (ok code), (code =? 308); try discriminate; cbn [andb negb];
      run_chunked; rewrite <- !app_assoc; reflexivity.
  - rewrite <- !app_assoc; reflexivity.
Qed.

Lemma lastReported_step r len p i n t current :
  lastReported (Put r len :: OnProgress p :: OnChunkComplete i n :: t) current
  = lastReported t (Some p).
Proof.
  unfold lastReported.
  change (progressOf (Put r len :: OnProgress p :: OnChunkComplete i n :: t))
    with (p :: progressOf t).
  destruct (progressOf t) as [|q qs]; [reflexivity|].
  change (last (p :: q :: qs)) with (last (q :: qs)).
  destruct (last (q :: qs)) eqn:E; [reflexivity|].
  apply last_None in E. discriminate.
Qed.

(** The loop over chunks that are all accepted. *)
Lemma sequentialLoop_all_accepted store total n chunks : forall i uploaded w,
  allAccepted store chunks ->
  exists t,
    sequentialLoop store hookCallbacks total n chunks i uploaded w
    = (Ok tt,
       mkWorld (state w) (lastReported t (progress w)) (errorMessage w)
         (recordingId w) (playbackUrl w) (trace w ++ t)) /\
    putsOf t = rangesOf chunks /\
    uploadedBytes <$> progressOf t = runningTotals uploaded chunks /\
    chunksDoneOf t = seqZ i (Z.of_nat (length chunks)) /\
    errorsOf t = [] /\ statesOf t = [] /\ completionsOf t = [] /\
    Forall (fun p => totalBytes p = total /\
                     percentage p = percentageOf' (uploadedBytes p) total)
      (progressOf t).
Proof.
  induction chunks as [|c chunks IH]; intros i uploaded w Hall.
  - exists []. destruct w. cbn. rewrite app_nil_r. auto 10.
  - apply Forall_cons in Hall as [Hc Hall].
    rewrite sequentialLoop_accepted by assumption. cbv zeta.
    edestruct IH as (t & -> & Hputs & Hprog & Hdone & Herr & Hst & Hcompl & Htot);
      [exact Hall|].
    eexists (_ :: _ :: _ :: t). cbn [state progress errorMessage recordingId playbackUrl trace].
    rewrite <- app_assoc.
    split; [|split; [|split; [|split; [|split; [|split; [|split]]]]]].
    + rewrite lastReported_step. reflexivity.
    + change (putsOf (_ :: _ :: _ :: t)) with (rangeOf (metadata c) :: putsOf t).
      rewrite Hputs. reflexivity.
    + match goal with
      | |- context [progressOf (_ :: OnProgress ?p :: _ :: t)] =>
          change (progressOf (_ :: OnProgress p :: _ :: t)) with (p :: progressOf t)
      end.
      rewrite fmap_cons, Hprog. reflexivity.
    + change (chunksDoneOf (_ :: _ :: _ :: t)) with (i :: chunksDoneOf t).
      cbn [length]. rewrite Hdone, (seqZ_cons i) by lia. f_equal. f_equal; lia.
    + exact Herr.
    + exact Hst.
    + exact Hcompl.
    + match goal with
      | |- context [progressOf (_ :: OnProgress ?p :: _ :: t)] =>
          change (progressOf (_ :: OnProgress p :: _ :: t)) with (p :: progressOf t)
      end.
      constructor; [split; reflexivity|exact Htot].
Qed.

(** The loop up to the first chunk that is not accepted. *)
Lemma sequentialLoop_first_refusal store total n pre c rest :
  forall i uploaded w,
  allAccepted store pre -> accepts store (metadata c) = false ->
  exists t,
    sequentialLoop store hookCallbacks total n (pre ++ c :: rest) i uploaded w
    = (Throw (refusal store (metadata c)),
       mkWorld (state w) (lastReported t (progress w)) (errorMessage w)
         (recordingId w) (playbackUrl w) (trace w ++ t)) /\
    putsOf t = rangesOf (pre ++ [c]) /\
    uploadedBytes <$> progressOf t = runningTotals uploaded pre /\
    chunksDoneOf t = seqZ i (Z.of_nat (length pre)) /\
    errorsOf t = [(refusal store (metadata c), i + Z.of_nat (length pre))] /\
    statesOf t = [] /\ completionsOf t = [] /\
    Forall (fun p => totalBytes p = total /\
                     percentage p = percentageOf' (uploadedBytes p) total)
      (progressOf t).
Proof.
  induction pre as [|c0 pre IH]; intros i uploaded w Hall Hc.
  - exists [Put (rangeOf (metadata c)) (size (blob c));
            OnError (refusal store (metadata c)) i].
    cbn [app]. rewrite sequentialLoop_refused by assumption.
    cbn [length]. rewrite Z.add_0_r. destruct w. cbn. auto 12.
  - apply Forall_cons in Hall as [Hc0 Hall]. cbn [app].
    rewrite sequentialLoop_accepted by assumption. cbv zeta.
    edestruct IH as (t & -> & Hputs & Hprog & Hdone & Herr & Hst & Hcompl & Htot);
      [exact Hall|exact Hc|].
    eexists (_ :: _ :: _ :: t).
    cbn [state progress errorMessage recordingId playbackUrl trace].
    rewrite <- app_assoc.
    split; [|split; [|split; [|split; [|split; [|split; [|split]]]]]].
    + rewrite lastReported_step. reflexivity.
    + change (putsOf (_ :: _ :: _ :: t)) with (rangeOf (metadata c0) :: putsOf t).
      rewrite Hputs. reflexivity.
    + match goal with
      | |- context [progressOf (_ :: OnProgress ?p :: _ :: t)] =>
          change (progressOf (_ :: OnProgress p :: _ :: t)) with (p :: progressOf t)
      end.
      rewrite fmap_cons, Hprog. reflexivity.
    + change (chunksDoneOf (_ :: _ :: _ :: t)) with (i :: chunksDoneOf t).
      cbn [length]. rewrite Hdone, (seqZ_cons i) by lia. f_equal. f_equal; lia.
    + change (errorsOf (_ :: _ :: _ :: t)) with (errorsOf t).
      rewrite Herr. cbn [length]. do 2 f_equal. lia.
    + exact Hst.
    + exact Hcompl.
    + match goal with
      | |- context [progressOf (_ :: OnProgress ?p :: _ :: t)] =>
          change (progressOf (_ :: OnProgress p :: _ :: t)) with (p :: progressOf t)
      end.
      constructor; [split; reflexivity|exact Htot].
Qed.

(** Either every chunk is accepted or there is a first one that is not. *)
Lemma accepted_or_refused store chunks :
  allAccepted store chunks \/
  exists pre c rest,
    chunks = pre ++ c :: rest /\ allAccepted store pre /\
    accepts store (metadata c) = false.
Proof.
  induction chunks as [|c chunks [IH|(pre & c' & rest & -> & Hpre & Hc')]].
  - left. constructor.
  - destruct (accepts store (metadata c)) eqn:Hc.
    + left. constructor; assumption.
    + right. exists [], c, chunks. split; [reflexivity|]. split; [constructor|assumption].
  - destruct (accepts store (metadata c)) eqn:Hc.
    + right. exists (c :: pre), c', rest.
      split; [reflexivity|]. split; [constructor; assumption|assumption].
    + right. exists [], c, (pre ++ c' :: rest).
      split; [reflexivity|]. split; [constructor|assumption].
Qed.

Lemma uploadChunksSequentially_loop store chunks url :
  truthy (Some url) = true ->
  uploadChunksSequentially store chunks (Some url) hookCallbacks
  = sequentialLoop store hookCallbacks
      (from_option (fun c => totalSize (metadata c)) 0 (head chunks))
      (Z.of_nat (length chunks)) chunks 0 0.
Proof. intros Hurl. unfold uploadChunksSequentially. rewrite Hurl. reflexivity. Qed.

(** X2.  [uploadChunksSequentially] on a storage service that accepts every
    chunk: it returns after one [PUT] per chunk, in the order of the
    sequence and with the [Content-Range] of the chunk's metadata; after
    each [PUT] it reports the byte count reached so far and the index of
    the chunk; it reports no error, and the hook shows the progress that
    was reported last. *)
Theorem sequential_upload_reports_every_chunk store chunks url w :
  truthy (Some url) = true ->
  allAccepted store chunks ->
  let r := uploadChunksSequentially store chunks (Some url) hookCallbacks w in
  exists t,
    r.1 = Ok tt /\ trace r.2 = trace w ++ t /\
    putsOf t = rangesOf chunks /\
    uploadedBytes <$> progressOf t = runningTotals 0 chunks /\
    chunksDoneOf t = seqZ 0 (Z.of_nat (length chunks)) /\
    errorsOf t = [] /\
    progress r.2 = lastReported t (progress w).
Proof.
  intros Hurl Hall r. subst r. rewrite uploadChunksSequentially_loop by assumption.
  edestruct sequentialLoop_all_accepted
    as (t & -> & Hputs & Hprog & Hdone & Herr & _); [exact Hall|].
  exists t. cbn [fst snd trace progress]. auto 10.
Qed.

Lemma sequential_upload_reports_every_chunk_witness :
  exists t,
    trace (uploadChunksSequentially resumableGcs (chunkBlob (mkBlob 0 20) (Some 8))
             (Some "https://storage.example/upload") hookCallbacks
             useChunkedUpload).2 = t /\
    putsOf t = [mkRange 0 7 20; mkRange 8 15 20; mkRange 16 19 20] /\
    uploadedBytes <$> progressOf t = [8; 16; 20].
Proof.
  destruct (sequential_upload_reports_every_chunk resumableGcs
              (chunkBlob (mkBlob 0 20) (Some 8)) "https://storage.example/upload"
              useChunkedUpload)
    as (t & _ & H1 & H2 & H3 & _).
  - reflexivity.
  - vm_compute. repeat constructor.
  - exists t. split; [exact H1|]. split; [exact H2|exact H3].
Defined.

(** X3.  [uploadChunksSequentially] stops at the first chunk the storage
    service does not accept: that chunk is the last one put on the wire,
    [onError] is called once, with the error and the index of that chunk,
    the chunks before it were reported as complete, and the error is
    thrown to the caller. *)
Theorem sequential_upload_stops_at_refusal store pre c rest url w :
  truthy (Some url) = true ->
  allAccepted store pre ->
  accepts store (metadata c) = false ->
  let r := uploadChunksSequentially store (pre ++ c :: rest) (Some url)
             hookCallbacks w in
  exists t,
    r.1 = Throw (refusal store (metadata c)) /\ trace r.2 = trace w ++ t /\
    putsOf t = rangesOf (pre ++ [c]) /\
    errorsOf t = [(refusal store (metadata c), Z.of_nat (length pre))] /\
    chunksDoneOf t = seqZ 0 (Z.of_nat (length pre)) /\
    uploadedBytes <$> progressOf t = runningTotals 0 pre.
Proof.
  intros Hurl Hall Hc r. subst r.
  rewrite uploadChunksSequentially_loop by assumption.
  edestruct sequentialLoop_first_refusal
    as (t & -> & Hputs & Hprog & Hdone & Herr & _); [exact Hall|exact Hc|].
  exists t. cbn [fst snd trace]. rewrite Z.add_0_l in Herr. auto 10.
Qed.

Lemma sequential_upload_stops_at_refusal_witness :
  exists t,
    uploadChunksSequentially (unavailableAt 1)
      (chunkBlob (mkBlob 0 20) (Some 8))
      (Some "https://storage.example/upload") hookCallbacks useChunkedUpload
    = (Throw "Failed to upload chunk 1: 503 Service Unavailable - backend error",
       mkWorld idle (lastReported t None) None None None t) /\
    putsOf t = [mkRange 0 7 20; mkRange 8 15 20] /\
    errorsOf t
    = [("Failed to upload chunk 1: 503 Service Unavailable - backend error", 1)].
Proof.
  destruct (sequential_upload_stops_at_refusal (unavailableAt 1)
              (take 1 (chunkBlob (mkBlob 0 20) (Some 8)))
              (mkChunkData (mkChunkMetadata 1 3 8 20 8 16) (mkBlob 8 8))
              (drop 2 (chunkBlob (mkBlob 0 20) (Some 8)))
              "https://storage.example/upload" useChunkedUpload)
    as (t & H1 & H0 & H2 & H3 & _).
  - reflexivity.
  - vm_compute. repeat constructor.
  - reflexivity.
  - exists t. split; [|split; [exact H2|exact H3]].
    cbn [trace useChunkedUpload app] in H0. rewrite <- H0. reflexivity.
Defined.

Lemma chunkSizeOption_positive C : 0 < C -> chunkSizeOption (Some C) = C.
Proof. intros HC. cbn. destruct (Z.eqb_spec C 0); [lia|reflexivity]. Qed.

Lemma chunkBlob_blobs b C :
  0 < C -> 0 <= size b ->
  blob <$> chunkBlob b (Some C)
  = nthChunk b C <$> seqZ 0 (Math_ceil_div (size b) C).
Proof.
  intros HC HS.
  pose proof (Math_ceil_div_bounds (size b) C HC) as Hb.
  unfold chunkBlob. rewrite chunkSizeOption_positive, <- list_fmap_compose by assumption.
  apply list_fmap_ext. intros i k [-> Hk]%lookup_seqZ. cbn.
  rewrite Z.add_0_l.
  assert (H0 : 0 <= Z.of_nat i * C) by nia.
  assert (H1 : Z.of_nat i * C < size b) by nia.
  rewrite slice_in_range by lia. unfold nthChunk. f_equal; lia.
Qed.

Lemma rangesOf_chunkBlob b C :
  0 < C ->
  rangesOf (chunkBlob b (Some C))
  = (fun k => mkRange (k * C) (Z.min ((k + 1) * C) (size b) - 1) (size b))
      <$> seqZ 0 (Math_ceil_div (size b) C).
Proof.
  intros HC. unfold rangesOf, chunkBlob.
  rewrite chunkSizeOption_positive, <- list_fmap_compose by assumption.
  apply list_fmap_ext. intros i k _. cbn. unfold rangeOf. cbn.
  rewrite Z.mul_add_distr_r, Z.mul_1_l. reflexivity.
Qed.

Lemma sumSizes_blobs b optChunkSize :
  sumSizes (chunkBlob b optChunkSize) = totalLength (blob <$> chunkBlob b optChunkSize).
Proof.
  unfold sumSizes, totalLength, chunkBlob. rewrite <- !list_fmap_compose.
  reflexivity.
Qed.

Lemma sumSizes_chunkBlob b C :
  0 < C -> 0 <= size b -> sumSizes (chunkBlob b (Some C)) = size b.
Proof.
  intros HC HS. rewrite sumSizes_blobs, chunkBlob_blobs by assumption.
  pose proof (Math_ceil_div_nonneg (size b) C HC HS) as Hn.
  replace (Math_ceil_div (size b) C)
    with (Z.of_nat (Z.to_nat (Math_ceil_div (size b) C))) at 1 by lia.
  rewrite totalLength_nthChunks; lia.
Qed.

Lemma last_runningTotals chunks : forall uploaded,
  chunks <> [] ->
  last (runningTotals uploaded chunks) = Some (uploaded + sumSizes chunks).
Proof.
  induction chunks as [|c chunks IH]; intros uploaded Hne; [congruence|].
  destruct chunks as [|c' chunks].
  - cbn. f_equal. lia.
  - specialize (IH (uploaded + md_chunkSize (metadata c)) ltac:(discriminate)).
    change (runningTotals uploaded (c :: c' :: chunks))
      with (uploaded + md_chunkSize (metadata c)
              :: runningTotals (uploaded + md_chunkSize (metadata c)) (c' :: chunks)).
    change (runningTotals (uploaded + md_chunkSize (metadata c)) (c' :: chunks))
      with (uploaded + md_chunkSize (metadata c) + md_chunkSize (metadata c')
              :: runningTotals (uploaded + md_chunkSize (metadata c)
                                + md_chunkSize (metadata c')) chunks) in *.
    rewrite last_cons_cons, IH. f_equal. unfold sumSizes. cbn. lia.
Qed.

Lemma toDouble_Qeq p q : (p == q)%Q -> toDouble p = toDouble q.
Proof. intros H. unfold toDouble. rewrite (Qred_complete _ _ H). reflexivity. Qed.

Lemma percentageOf_full n : n <> 0 -> (percentageOf n n == 100)%Q.
Proof.
  intros Hn. unfold percentageOf.
  rewrite (toDouble_Qeq (inject_Z n / inject_Z n) 1).
  - vm_compute. reflexivity.
  - unfold Qdiv. apply Qmult_inv_r.
    intros H. apply Hn. unfold Qeq in H. cbn in H. lia.
Qed.

Lemma head_totalSize b optChunkSize :
  chunkBlob b optChunkSize <> [] ->
  from_option (fun c => totalSize (metadata c)) 0 (head (chunkBlob b optChunkSize))
  = size b.
Proof.
  unfold chunkBlob.
  destruct (seqZ 0 (Math_ceil_div (size b) (chunkSizeOption optChunkSize)));
    [intros H; exfalso; apply H; reflexivity|reflexivity].
Qed.

(** X4.  [useChunkedUpload.upload] with a positive chunk size, a granted
    session and a storage service that accepts every chunk: the states are
    [initializing], [chunking], [uploading], [completing], [completed];
    the [Content-Range] headers are [k*C .. min((k+1)*C, S) - 1] of [S] for
    [k = 0 .. ceil(S/C) - 1], so they cover every byte of the blob once
    and in order; the progress shown at the end is [S] of [S] bytes, 100
    percent; completion is requested once, for the granted identity and
    [S] bytes. *)
Theorem chunked_upload_covers_blob env b C w init completeResult :
  0 < C -> 0 < size b ->
  initVideoUpload env (size b) = Ok init ->
  truthy (Some (iv_uploadUrl init)) = true ->
  (forall md, accepts (gcs env) md = true) ->
  completeVideoUpload env (iv_recordingId init) (size b) = Ok completeResult ->
  let r := upload env b (Some C) w in
  exists t,
    trace r.2 = trace w ++ t /\
    r.1 = Ok (complete_recordingId completeResult,
              complete_playbackUrl completeResult) /\
    statesOf t = [initializing; chunking; uploading; completing; completed] /\
    putsOf t
    = (fun k => mkRange (k * C) (Z.min ((k + 1) * C) (size b) - 1) (size b))
        <$> seqZ 0 (Math_ceil_div (size b) C) /\
    (exists p, progress r.2 = Some p /\ uploadedBytes p = size b /\
               totalBytes p = size b /\
               exists q, percentage p = Some q /\ (q == 100)%Q) /\
    completionsOf t = [(iv_recordingId init, size b)] /\
    state r.2 = completed /\ recordingId r.2 = Some (iv_recordingId init).
Proof.
  intros HC HS Hinit Hurl Hacc Hcomplete r. subst r.
  destruct w as [st pr er id url t0]. unfold upload. run_chunked.
  rewrite Hinit. run_chunked.
  rewrite uploadChunksSequentially_loop by assumption.
  assert (Hne : chunkBlob b (Some C) <> []).
  { intros Hnil. pose proof (sumSizes_chunkBlob b C HC ltac:(lia)) as Hsum.
    rewrite Hnil in Hsum. cbn in Hsum. lia. }
  rewrite head_totalSize by assumption.
  edestruct (sequentialLoop_all_accepted (gcs env) (size b)
               (Z.of_nat (length (chunkBlob b (Some C)))) (chunkBlob b (Some C)))
    as (t & Hrun & Hputs & Hprog & Hdone & Herr & Hst & Hcompl & Htot);
    [apply Forall_forall; intros c _; apply Hacc|].
  rewrite Hrun. clear Hrun. run_chunked. rewrite Hcomplete. run_chunked.
  assert (Hlast : exists p,
            lastReported t None = Some p /\ uploadedBytes p = size b /\
            totalBytes p = size b /\
            exists q, percentage p = Some q /\ (q == 100)%Q).
  { pose proof (last_runningTotals (chunkBlob b (Some C)) 0 Hne) as Hl.
    rewrite <- Hprog, fmap_last, sumSizes_chunkBlob, Z.add_0_l in Hl by lia.
    unfold lastReported. destruct (last (progressOf t)) as [p|] eqn:Hp;
      [|discriminate].
    injection Hl as Hl. exists p. split; [reflexivity|]. split; [exact Hl|].
    apply last_Some_elem_of in Hp.
    rewrite Forall_forall in Htot. destruct (Htot p Hp) as [Htb Hpc].
    split; [exact Htb|]. rewrite Hpc, Hl. unfold percentageOf'.
    destruct (Z.eqb_spec (size b) 0); [lia|].
    eexists. split; [reflexivity|]. apply percentageOf_full. lia. }
  destruct (truthy (complete_playbackUrl completeResult)); run_chunked;
    (eexists; split; [rewrite <- !app_assoc; reflexivity|]);
    rewrite !chunked_statesOf_app, !putsOf_app, !chunked_completionsOf_app,
      Hst, Hputs, Hcompl, rangesOf_chunkBlob by assumption;
    cbn [app]; rewrite app_nil_r; auto 10.
Qed.

Lemma chunked_upload_covers_blob_witness :
  exists t,
    trace (upload (sampleBackend resumableGcs) (mkBlob 0 20) (Some 8)
             useChunkedUpload).2 = t /\
    putsOf t = [mkRange 0 7 20; mkRange 8 15 20; mkRange 16 19 20] /\
    state (upload (sampleBackend resumableGcs) (mkBlob 0 20) (Some 8)
             useChunkedUpload).2 = completed.
Proof.
  destruct (chunked_upload_covers_blob (sampleBackend resumableGcs) (mkBlob 0 20) 8
              useChunkedUpload
              (mkInitVideo "rec" "https://storage.example/upload" "recordings/rec.webm")
              (mkComplete "rec" "completed" (Some "https://playback")))
    as (t & H1 & _ & _ & H2 & _ & _ & H3 & _).
  - lia.
  - cbn; lia.
  - reflexivity.
  - reflexivity.
  - intros md. unfold accepts, sampleBackend, gcs, resumableGcs.
    destruct (endByte md <? totalSize md); reflexivity.
  - reflexivity.
  - exists t. split; [exact H1|]. split; [exact H2|exact H3].
Defined.

Lemma chunkBlob_nil b optChunkSize :
  0 <= size b ->
  size b = 0 \/ (exists C, optChunkSize = Some C /\ C < 0) ->
  chunkBlob b optChunkSize = [].
Proof.
  intros HS Hcase. unfold chunkBlob.
  rewrite seqZ_nil; [reflexivity|].
  destruct Hcase as [H0|(C & -> & HC)].
  - rewrite H0. unfold Math_ceil_div. rewrite Z.opp_0, Zdiv_0_l. lia.
  - assert (Hcs : chunkSizeOption (Some C) = C).
    { cbn. destruct (Z.eqb_spec C 0); [lia|reflexivity]. }
    rewrite Hcs. apply Math_ceil_div_negative; assumption.
Qed.

(** X5.  [useChunkedUpload.upload] of an empty blob, or with a negative
    chunk size: [chunkBlob] returns no chunk, so no [PUT] is made and no
    progress is reported, and yet completion is requested for the whole
    size and the session ends in [completed]. *)
Theorem chunked_upload_without_chunks env b optChunkSize w init completeResult :
  0 <= size b ->
  size b = 0 \/ (exists C, optChunkSize = Some C /\ C < 0) ->
  initVideoUpload env (size b) = Ok init ->
  truthy (Some (iv_uploadUrl init)) = true ->
  completeVideoUpload env (iv_recordingId init) (size b) = Ok completeResult ->
  let r := upload env b optChunkSize w in
  chunkBlob b optChunkSize = [] /\
  r.1 = Ok (complete_recordingId completeResult,
            complete_playbackUrl completeResult) /\
  state r.2 = completed /\ progress r.2 = None /\
  exists t,
    trace r.2 = trace w ++ t /\ putsOf t = [] /\ progressOf t = [] /\
    completionsOf t = [(iv_recordingId init, size b)].
Proof.
  intros HS Hcase Hinit Hurl Hcomplete r. subst r.
  pose proof (chunkBlob_nil b optChunkSize HS Hcase) as Hnil.
  split; [exact Hnil|].
  destruct w as [st pr er id url t0]. unfold upload. run_chunked.
  rewrite Hinit. run_chunked.
  rewrite uploadChunksSequentially_loop, Hnil by assumption.
  cbn [sequentialLoop]. run_chunked. rewrite Hcomplete. run_chunked.
  destruct (truthy (complete_playbackUrl completeResult)); run_chunked;
    (split; [reflexivity|]; split; [reflexivity|]; split; [reflexivity|]);
    (eexists; split; [rewrite <- !app_assoc; reflexivity|]);
    cbn; auto.
Qed.

Lemma chunked_upload_without_chunks_witness :
  let r := upload (sampleBackend resumableGcs) (mkBlob 0 20) (Some (-8))
             useChunkedUpload in
  chunkBlob (mkBlob 0 20) (Some (-8)) = [] /\ state r.2 = completed /\
  progress r.2 = None.
Proof.
  destruct (chunked_upload_without_chunks (sampleBackend resumableGcs) (mkBlob 0 20)
              (Some (-8)) useChunkedUpload
              (mkInitVideo "rec" "https://storage.example/upload" "recordings/rec.webm")
              (mkComplete "rec" "completed" (Some "https://playback")))
    as (H1 & _ & H2 & H3 & _).
  - cbn; lia.
  - right. exists (-8). split; [reflexivity|lia].
  - reflexivity.
  - reflexivity.
  - reflexivity.
  - split; [exact H1|]. split; [exact H2|exact H3].
Defined.

Lemma rangesOf_app l1 l2 : rangesOf (l1 ++ l2) = rangesOf l1 ++ rangesOf l2.
Proof. apply fmap_app. Qed.

(** X6.  Every run of [useChunkedUpload.upload]: the [PUT]s are an initial
    part of the chunk sequence, in order; completion is requested only
    after every chunk was put on the wire and accepted; a returned call
    leaves the session in [completed]; a thrown error leaves it in
    [error] with the message recorded, and [completed] is never set on the
    way. *)
Theorem chunked_upload_completion_follows_chunks env b optChunkSize w :
  let chunks := chunkBlob b optChunkSize in
  let r := upload env b optChunkSize w in
  exists t,
    trace r.2 = trace w ++ t /\
    (putsOf t `prefix_of` rangesOf chunks) /\
    (completionsOf t <> [] ->
       allAccepted (gcs env) chunks /\ putsOf t = rangesOf chunks) /\
    match r.1 with
    | Ok _ => state r.2 = completed /\ completionsOf t <> []
    | Throw message =>
        state r.2 = error /\ errorMessage r.2 = Some message /\
        (completed ∉ statesOf t)
    | Hang => state r.2 = initializing \/ state r.2 = completing
    end.
Proof.
  intros chunks r. subst r.
  destruct w as [st pr er id url t0]. unfold upload. run_chunked.
  destruct (initVideoUpload env (size b)) as [init|message|]; run_chunked.
  - unfold uploadChunksSequentially.
    destruct (truthy (Some (iv_uploadUrl init))); run_chunked.
    + fold chunks.
      destruct (accepted_or_refused (gcs env) chunks)
        as [Hall|(pre & c & rest & Hchunks & Hpre & Hc)].
      * edestruct (sequentialLoop_all_accepted (gcs env))
          as (t & Hrun & Hputs & _ & _ & _ & Hst & Hcompl & _); [exact Hall|].
        rewrite Hrun. clear Hrun. run_chunked.
        destruct (completeVideoUpload env (iv_recordingId init) (size b))
          as [completeResult|message|]; run_chunked;
          [destruct (truthy (complete_playbackUrl completeResult)); run_chunked| |];
          (eexists; split; [rewrite <- !app_assoc; reflexivity|]);
          rewrite ?chunked_statesOf_app, ?putsOf_app, ?chunked_completionsOf_app,
            ?Hst, ?Hputs, ?Hcompl;
          cbn [app]; rewrite ?app_nil_r;
          (split; [reflexivity|]); (split; [auto|]); cbn.
        -- split; [reflexivity|discriminate].
        -- split; [reflexivity|discriminate].
        -- split; [reflexivity|]. split; [reflexivity|].
           rewrite !elem_of_cons, elem_of_nil. intuition discriminate.
        -- auto.
      * rewrite Hchunks.
        edestruct (sequentialLoop_first_refusal (gcs env))
          as (t & Hrun & Hputs & _ & _ & _ & Hst & Hcompl & _);
          [exact Hpre|exact Hc|].
        rewrite Hrun. clear Hrun. run_chunked.
        eexists. split; [rewrite <- !app_assoc; reflexivity|].
        rewrite !chunked_statesOf_app, !putsOf_app, !chunked_completionsOf_app,
          Hst, Hputs, Hcompl.
        cbn [app]. rewrite ?app_nil_r.
        split; [|split; [intros H; exfalso; apply H; reflexivity|]].
        -- exists (rangesOf rest).
           change (c :: rest) with ([c] ++ rest).
           rewrite app_assoc, rangesOf_app. reflexivity.
        -- cbn. split; [reflexivity|]. split; [reflexivity|].
           rewrite !elem_of_cons, elem_of_nil. intuition discriminate.
    + eexists. split; [rewrite <- !app_assoc; reflexivity|]. cbn.
      split; [apply prefix_nil|]. split; [intros H; exfalso; apply H; reflexivity|].
      split; [reflexivity|]. split; [reflexivity|].
      rewrite !elem_of_cons, elem_of_nil. intuition discriminate.
  - eexists. split; [rewrite <- !app_assoc; reflexivity|]. cbn.
    split; [apply prefix_nil|]. split; [intros H; exfalso; apply H; reflexivity|].
    split; [reflexivity|]. split; [reflexivity|].
    rewrite !elem_of_cons, elem_of_nil. intuition discriminate.
  - eexists. split; [rewrite <- !app_assoc; reflexivity|]. cbn.
    split; [apply prefix_nil|]. split; [intros H; exfalso; apply H; reflexivity|].
    auto.
Qed.

End ChunkedProofs.

(** ** The retry budget of the chunk transports *)

Lemma attemptsOf_cons_fetch c rng a effects :
  attemptsOf (Fetch c rng a :: effects) = a :: attemptsOf effects.
Proof. reflexivity. Qed.

Lemma attemptLoop_schedule net call n fallback fuel : forall attempt lastError,
  0 <= attempt < n -> (Z.to_nat (n - attempt) < fuel)%nat ->
  let t := attemptLoop net call (Num n) fallback fuel attempt lastError in
  exists k,
    attempt < k <= n /\
    attemptsOf t.2 = seqZ attempt (k - attempt) /\
    delaysOf t.2 = (fun j => 2 ^ j * 1000) <$> seqZ attempt (k - 1 - attempt) /\
    (forall j, attempt <= j < k - 1 -> exists m, net call j = Failed m) /\
    match net call (k - 1) with
    | Accepted r => t.1 = Ok r
    | Failed m => k = n /\ t.1 = Throw m
    end.
Proof.
  induction fuel as [|fuel IH]; intros attempt lastError Ha Hfuel; [lia|].
  cbn [attemptLoop lessThan isLastAttempt].
  destruct (Z.ltb_spec attempt n) as [_|]; [|lia].
  destruct (net call attempt) as [r|m] eqn:Hnet.
  - exists (attempt + 1). cbn [fst snd].
    replace (attempt + 1 - attempt) with 1 by lia.
    replace (attempt + 1 - 1 - attempt) with 0 by lia.
    replace (attempt + 1 - 1) with attempt by lia. rewrite Hnet.
    split; [lia|]. split; [reflexivity|]. split; [reflexivity|].
    split; [intros j Hj; lia|reflexivity].
  - destruct (Z.eqb_spec attempt (n - 1)) as [Hlast|Hmore].
    + exists (attempt + 1). cbn [fst snd].
      replace (attempt + 1 - attempt) with 1 by lia.
      replace (attempt + 1 - 1 - attempt) with 0 by lia.
      replace (attempt + 1 - 1) with attempt by lia. rewrite Hnet.
      split; [lia|]. split; [reflexivity|]. split; [reflexivity|].
      split; [intros j Hj; lia|]. split; [lia|reflexivity].
    + specialize (IH (attempt + 1) (Some m) ltac:(lia) ltac:(lia)).
      destruct (attemptLoop net call (Num n) fallback fuel (attempt + 1) (Some m))
        as [outcome effects].
      cbn [fst snd] in *. destruct IH as (k & Hk & Hatt & Hdel & Hfail & Hout).
      exists k. split; [lia|]. split; [|split; [|split]].
      * rewrite attemptsOf_cons_fetch.
        change (attemptsOf (SetTimeout ?d :: effects)) with (attemptsOf effects).
        rewrite Hatt, (seqZ_cons attempt) by lia. f_equal. f_equal; lia.
      * change (delaysOf (Fetch ?c ?r ?a :: SetTimeout ?d :: effects))
          with (d :: delaysOf effects).
        rewrite Hdel, (seqZ_cons attempt) by lia. rewrite fmap_cons.
        f_equal. f_equal. f_equal; lia.
      * intros j Hj. destruct (Z.eq_dec j attempt) as [->|]; [eauto|].
        apply Hfail. lia.
      * exact Hout.
Qed.

(** X7.  A chunk transport ([uploadChunk], [uploadScreenChunk],
    [uploadWebcamChunk]) called with a whole number [n] as retry budget.  With
    [n <= 0] it makes no [PUT] and throws its fallback error.  With
    [n > 0] it makes [k <= n] attempts, numbered [0 .. k-1], and waits
    [2^j * 1000] ms after attempt [j] for [j < k-1]; every attempt before
    the last failed; it returns the result of the last attempt when that
    was accepted, and otherwise the budget is used up ([k = n]) and the
    error of the last attempt is thrown.  So at most [n-1] waits are made
    and [2^(n-1) * 1000] ms is never waited. *)
Theorem retry_budget_schedule net call n fallback :
  let t := putWithRetry net call (ArgNumber n) fallback in
  (n <= 0 -> t = (Throw fallback, [])) /\
  (0 < n ->
   exists k,
     0 < k <= n /\
     attemptsOf t.2 = seqZ 0 k /\
     delaysOf t.2 = (fun j => 2 ^ j * 1000) <$> seqZ 0 (k - 1) /\
     (forall j, 0 <= j < k - 1 -> exists m, net call j = Failed m) /\
     match net call (k - 1) with
     | Accepted r => t.1 = Ok r
     | Failed m => k = n /\ t.1 = Throw m
     end).
Proof.
  intros t. subst t. unfold putWithRetry.
  change (ToNumber (defaultArg (ArgNumber n) 3)) with (Num n). split.
  - intros Hn. cbn [loopFuel attemptLoop lessThan].
    destruct (Z.ltb_spec 0 n); [lia|reflexivity].
  - intros Hn.
    destruct (attemptLoop_schedule net call n fallback (loopFuel (Num n)) 0 None)
      as (k & Hk & Hatt & Hdel & Hfail & Hout); [lia|cbn [loopFuel]; lia|].
    exists k. rewrite Z.sub_0_r in Hatt, Hdel. auto 10.
Qed.

(** A network that refuses the first two attempts of every call. *)
Lemma retry_budget_schedule_witness :
  let net : Network :=
    fun c a => if a <? 2 then Failed "503" else Accepted (mkResult 8 false) in
  let t := uploadChunk net "rec" (Some (mkBlob 0 8)) 0 8 20 (ArgNumber 5) in
  exists k, 0 < k <= 5 /\ attemptsOf t.2 = seqZ 0 k /\
            delaysOf t.2 = (fun j => 2 ^ j * 1000) <$> seqZ 0 (k - 1).
Proof.
  intros net t.
  destruct (proj2 (retry_budget_schedule net
                     (mkCall UPLOAD_CHUNK "rec" (Some (mkBlob 0 8)) 0 8 20 None)
                     5 "Chunk upload failed") ltac:(lia))
    as (k & Hk & Hatt & Hdel & _).
  exists k. split; [exact Hk|]. split; [exact Hatt|exact Hdel].
Defined.

(** X8.  The [Content-Range] header a chunk transport computes for chunk
    [k] from the chunk index, the chunk size and the total size names
    exactly the bytes of the [k]-th chunk the slicer cut: its first byte,
    its last byte (inclusive) and the size of the whole blob; the range is
    as long as the chunk. *)
Theorem content_range_is_chunk_span
    (b : Blob) (C : Z) chunks (k : nat) chunk endpoint id token :
  0 < C -> 0 <= size b ->
  slicedChunks b C = Some chunks ->
  chunks !! k = Some chunk ->
  let range :=
    contentRange (mkCall endpoint id (Some chunk) (Z.of_nat k) C (size b) token) in
  firstByte range = offset chunk - offset b /\
  lastByte range = blobEnd chunk - offset b - 1 /\
  rangeTotal range = size b /\
  lastByte range - firstByte range + 1 = size chunk /\
  0 <= firstByte range <= lastByte range /\ lastByte range < size b.
Proof.
  intros HC HS Hchunks Hk range. subst range.
  rewrite slicedChunks_spec in Hchunks by assumption.
  injection Hchunks as <-.
  apply nthChunk_lookup in Hk as [Hk ->].
  pose proof (Math_ceil_div_bounds (size b) C HC) as Hb.
  assert (H0 : 0 <= Z.of_nat k * C) by nia.
  assert (H1 : Z.of_nat k * C < size b) by nia.
  unfold contentRange, blobEnd, nthChunk. cbn. lia.
Qed.

Lemma content_range_is_chunk_span_witness :
  let range :=
    contentRange (mkCall UPLOAD_CHUNK "rec" (Some (mkBlob 16 4)) 2 8 20 None) in
  firstByte range = 16 /\ lastByte range = 19 /\ rangeTotal range = 20.
Proof.
  destruct (content_range_is_chunk_span (mkBlob 0 20) 8
              [mkBlob 0 8; mkBlob 8 8; mkBlob 16 4] 2 (mkBlob 16 4)
              UPLOAD_CHUNK "rec" None) as (H1 & H2 & H3 & _).
  - lia.
  - cbn; lia.
  - vm_compute; reflexivity.
  - reflexivity.
  - split; [exact H1|]. split; [exact H2|exact H3].
Defined.

(** ** Further properties of the single-stream session *)

(** With a budget that does not read as a number the walk is left in its
    first iteration, before any [PUT]. *)
Lemma hookWalk_unreadable_budget net chunks totalSize id chunkSize token start :
  ToNumber (ArgString token) = NaN ->
  (0 < iterationsFrom chunks start)%nat ->
  hookWalk net chunks totalSize id chunkSize start token
  = [mkStep start [] (Throw "Chunk upload failed")].
Proof.
  intros Htoken Hiter. unfold hookWalk.
  destruct (iterationsFrom chunks start) as [|remaining]; [lia|].
  cbn [chunkWalk]. unfold uploadChunk.
  rewrite putWithRetry_NaN by exact Htoken. reflexivity.
Qed.

(** X9.  [useResumableUpload.upload] passes the access token where
    [uploadChunk] expects its retry budget.  When the token does not read
    as a number (as for a JSON Web Token), the upload of a non-empty blob
    puts nothing on the wire: after the session is granted and its
    identity stored, the first chunk fails with the transport's fallback
    error, the session ends in [error], completion is never requested and
    the identity stays in the store. *)
Theorem upload_with_token_as_budget env blob w token init :
  isAuthenticated env = true ->
  getAccessToken env = Ok token ->
  ToNumber (ArgString token) = NaN ->
  initResumableUpload env (size blob) = Ok init ->
  0 < init_chunkSize init -> 0 < size blob ->
  let r := upload env blob w in
  r.1 = Throw "Chunk upload failed" /\
  trace r.2
  = trace w ++ [CallGetAccessToken; SetState initializing;
                CallInitResumable (size blob);
                SaveRecordingId (init_recordingId init);
                SetState uploading; SetState error] /\
  fetchesOf (trace r.2) = fetchesOf (trace w) /\
  state (hook r.2) = error /\
  errorMessage (hook r.2) = Some "Chunk upload failed" /\
  sessionStorage r.2 !! SESSION_STORAGE_KEY = Some (init_recordingId init).
Proof.
  intros Hauth Htoken Hnan Hinit HC HS r. subst r. unfold upload.
  rewrite Hauth. run_session. rewrite Htoken. run_session.
  rewrite Hinit. run_session. rewrite uploadChunks_spec.
  rewrite slicedChunks_spec by lia. cbv zeta.
  rewrite hookWalk_unreadable_budget; [|exact Hnan|].
  - unfold afterWalk. cbn [walkOutcome walkEvents walkProgress step_outcome
                            step_effects]. run_session.
    rewrite <- !app_assoc. cbn [app fmap list_fmap].
    split; [reflexivity|]. split; [reflexivity|]. split.
    + unfold fetchesOf. rewrite omap_app. cbn. rewrite app_nil_r. reflexivity.
    + split; [reflexivity|]. split; [reflexivity|]. apply lookup_insert_eq.
  - unfold iterationsFrom. rewrite length_fmap, length_seqZ.
    pose proof (Math_ceil_div_bounds (size blob) (init_chunkSize init) HC). nia.
Qed.

Lemma upload_with_token_as_budget_witness :
  let r := upload completedBackend (mkBlob 0 20) (useResumableUpload ∅) in
  r.1 = Throw "Chunk upload failed" /\ fetchesOf (trace r.2) = [] /\
  state (hook r.2) = error.
Proof.
  destruct (upload_with_token_as_budget completedBackend (mkBlob 0 20)
              (useResumableUpload ∅) "eyJhbGciOiJSUzI1NiJ9.e30.c2ln"
              (mkInit "rec" 8))
    as (H1 & _ & H2 & H3 & _).
  - reflexivity.
  - reflexivity.
  - vm_compute; reflexivity.
  - reflexivity.
  - cbn; lia.
  - cbn; lia.
  - split; [exact H1|]. split; [exact H2|exact H3].
Defined.

(** X10.  What a tab finds after [upload]: when the call returned, the
    stored identity is gone and a hook mounted afterwards starts in [idle]
    with no identity; when the call failed (or is still pending) after the
    session was granted, the identity of that session is in the store and
    a hook mounted afterwards starts in [paused] with it, ready for
    [resume]. *)
Theorem upload_outcome_decides_next_mount env blob w token init :
  isAuthenticated env = true ->
  getAccessToken env = Ok token ->
  initResumableUpload env (size blob) = Ok init ->
  truthy (Some (init_recordingId init)) = true ->
  let r := upload env blob w in
  let next := useResumableUpload (sessionStorage r.2) in
  match r.1 with
  | Ok _ =>
      state (hook r.2) = completed /\
      state (hook next) = idle /\ recordingId (hook next) = None
  | Throw message =>
      state (hook r.2) = error /\ errorMessage (hook r.2) = Some message /\
      state (hook next) = paused /\
      recordingId (hook next) = Some (init_recordingId init)
  | Hang =>
      state (hook next) = paused /\
      recordingId (hook next) = Some (init_recordingId init)
  end.
Proof.
  intros Hauth Htoken Hinit Hid r next.
  pose proof (upload_settles env blob w token init Hauth Htoken Hinit) as H.
  cbv zeta in H. fold r in H. subst next. unfold useResumableUpload.
  destruct r.1 as [ret|message|].
  - destruct H as [Hstate ->]. rewrite lookup_delete_eq. auto.
  - destruct H as (Hstate & Herr & ->). rewrite lookup_insert_eq, Hid, Hid. auto.
  - rewrite H, lookup_insert_eq, Hid, Hid. auto.
Qed.

Lemma upload_outcome_decides_next_mount_witness :
  let r := upload completedBackend (mkBlob 0 20) (useResumableUpload ∅) in
  state (hook (useResumableUpload (sessionStorage r.2))) = paused /\
  recordingId (hook (useResumableUpload (sessionStorage r.2))) = Some "rec".
Proof.
  pose proof (upload_outcome_decides_next_mount completedBackend (mkBlob 0 20)
                (useResumableUpload ∅) "eyJhbGciOiJSUzI1NiJ9.e30.c2ln"
                (mkInit "rec" 8) eq_refl eq_refl eq_refl eq_refl) as H.
  cbv zeta in H.
  replace (upload completedBackend (mkBlob 0 20) (useResumableUpload ∅)).1
    with (@Throw UploadReturn "Chunk upload failed") in H
    by (vm_compute; reflexivity).
  destruct H as (_ & _ & H1 & H2). split; [exact H1|exact H2].
Defined.

(** ** Termination of the slicer *)

(** X11.  [sliceBlobIntoChunks] returns exactly when the chunk size is
    positive or the blob is empty: with a chunk size of 0 or below, the
    loop over a non-empty blob never ends, whatever the number of
    iterations it is given; otherwise [ceil(S/C)] iterations and the final
    test are enough, and the empty blob gives the empty sequence. *)
Theorem slicer_returns_iff_it_can_advance (b : Blob) (chunkSize : Z) :
  0 <= size b ->
  ((exists fuel chunks, sliceBlobIntoChunks fuel b chunkSize = Some chunks)
   <-> 0 < chunkSize \/ size b = 0) /\
  (size b = 0 -> sliceBlobIntoChunks 1 b chunkSize = Some []) /\
  (chunkSize <= 0 -> 0 < size b ->
   forall fuel, sliceBlobIntoChunks fuel b chunkSize = None).
Proof.
  intros HS.
  assert (Hdiv : chunkSize <= 0 -> 0 < size b ->
                 forall fuel, sliceBlobIntoChunks fuel b chunkSize = None).
  { intros HC Hpos fuel. apply sliceLoop_diverges; assumption. }
  assert (Hempty : size b = 0 -> sliceBlobIntoChunks 1 b chunkSize = Some []).
  { intros H0. unfold sliceBlobIntoChunks. cbn [sliceLoop]. rewrite H0.
    reflexivity. }
  split; [|split; assumption]. split.
  - intros (fuel & chunks & Hret).
    destruct (Z.lt_ge_cases 0 chunkSize) as [|HC]; [left; assumption|].
    destruct (Z.eq_dec (size b) 0) as [|Hne]; [right; assumption|].
    rewrite Hdiv in Hret by lia. discriminate.
  - intros [HC|H0].
    + exists (sliceFuel b chunkSize). eexists.
      apply (slicedChunks_spec b chunkSize HC HS).
    + exists 1%nat, []. auto.
Qed.

Lemma slicer_returns_iff_it_can_advance_witness :
  (exists fuel chunks, sliceBlobIntoChunks fuel (mkBlob 0 20) 8 = Some chunks) /\
  forall fuel, sliceBlobIntoChunks fuel (mkBlob 0 20) (-8) = None.
Proof.
  destruct (slicer_returns_iff_it_can_advance (mkBlob 0 20) 8) as ([_ H1] & _ & _);
    [cbn; lia|].
  destruct (slicer_returns_iff_it_can_advance (mkBlob 0 20) (-8)) as (_ & _ & H2);
    [cbn; lia|].
  split; [apply H1; left; lia|apply H2; cbn; lia].
Defined.

(** ** Further properties of [UploadManager] *)

Module ManagerProofs.

Import Manager.
Import ManagerCalls.

Ltac run_manager :=
  cbv beta iota zeta delta
    [bind ret await throw modify tryCatch emit update setStatus
     setUploadedBytes setErrorMessage updateProgress completeUpload
     onRejected background
     fst snd upload trace blob chunkSize status uploadedBytes errorMessage].

Lemma managerFetchesOf_app t1 t2 :
  managerFetchesOf (t1 ++ t2) = managerFetchesOf t1 ++ managerFetchesOf t2.
Proof. apply omap_app. Qed.

Lemma managerCompletionsOf_app t1 t2 :
  managerCompletionsOf (t1 ++ t2)
  = managerCompletionsOf t1 ++ managerCompletionsOf t2.
Proof. apply omap_app. Qed.

Lemma managerProgressOf_app t1 t2 :
  managerProgressOf (t1 ++ t2) = managerProgressOf t1 ++ managerProgressOf t2.
Proof. apply omap_app. Qed.

(** An iteration of the chunk loop whose first [PUT] is accepted and does
    not end the upload. *)
Lemma chunkLoop_next env chunks remaining i w c r :
  abortedAtChunk env i = false ->
  chunkAt chunks i = Some c ->
  fetchChunk env i 0 = Accepted r ->
  let u := upload w in
  let range :=
    mkRange (i * chunkSize u)
      (Z.min (i * chunkSize u + size c - 1) (size (blob u) - 1)) (size (blob u)) in
  let ack := acknowledged r (lastByte range) in
  done r || (size (blob u) <=? ack) = false ->
  chunkLoop env chunks (S remaining) i w
  = chunkLoop env chunks remaining (i + 1)
      (mkWorld (mkState (blob u) (chunkSize u) (status u) ack (errorMessage u))
         (trace w ++ [Fetch i range 0;
                      Progress (status u) ack (percentageOf ack (size (blob u)))])).
Proof.
  intros Habort Hc Hfetch u range ack Hmore. subst u range ack.
  destruct w as [[b cs st ub em] t]. cbn [chunkLoop]. rewrite Habort.
  run_manager. rewrite Hc. run_manager.
  change (Z.to_nat maxRetries) with 3%nat. cbn [attempts]. run_manager.
  rewrite Hfetch. run_manager.
  cbn [lastByte upload blob chunkSize status uploadedBytes errorMessage trace
       from_option] in Hmore |- *.
  rewrite Hmore. rewrite <- !app_assoc. reflexivity.
Qed.

(** An iteration whose first [PUT] is accepted and ends the upload, the
    completion call succeeding. *)
Lemma chunkLoop_last env chunks remaining i w c r url :
  abortedAtChunk env i = false ->
  chunkAt chunks i = Some c ->
  fetchChunk env i 0 = Accepted r ->
  completeCall env = Ok url ->
  let u := upload w in
  let range :=
    mkRange (i * chunkSize u)
      (Z.min (i * chunkSize u + size c - 1) (size (blob u) - 1)) (size (blob u)) in
  let ack := acknowledged r (lastByte range) in
  done r || (size (blob u) <=? ack) = true ->
  chunkLoop env chunks (S remaining) i w
  = (Ok false,
     mkWorld (mkState (blob u) (chunkSize u) completed (size (blob u))
                (errorMessage u))
       (trace w ++ [Fetch i range 0;
                    Progress (status u) ack (percentageOf ack (size (blob u)));
                    CallComplete (size (blob u));
                    Progress completed (size (blob u))
                      (percentageOf (size (blob u)) (size (blob u)));
                    OnComplete])).
Proof.
  intros Habort Hc Hfetch Hcomplete u range ack Hdone. subst u range ack.
  destruct w as [[b cs st ub em] t]. cbn [chunkLoop]. rewrite Habort.
  run_manager. rewrite Hc. run_manager.
  change (Z.to_nat maxRetries) with 3%nat. cbn [attempts]. run_manager.
  rewrite Hfetch. run_manager.
  cbn [lastByte upload blob chunkSize status uploadedBytes errorMessage trace
       from_option] in Hdone |- *.
  rewrite Hdone. run_manager. rewrite Hcomplete. run_manager.
  rewrite <- !app_assoc. reflexivity.
Qed.

Lemma chunkAt_nthChunk b C n i :
  0 <= i < n -> chunkAt (nthChunk b C <$> seqZ 0 n) i = Some (nthChunk b C i).
Proof.
  intros Hi. unfold chunkAt. destruct (Z.ltb_spec i 0); [lia|].
  apply nthChunk_lookup. split; [lia|]. f_equal. lia.
Qed.

Lemma chunkLoop_healthy env b C url :
  0 < C -> 0 < size b ->
  let n := Math_ceil_div (size b) C in
  (forall j, abortedAtChunk env j = false) ->
  completeCall env = Ok url ->
  forall remaining i ub em t,
    0 <= i -> i + Z.of_nat remaining = n -> (0 < remaining)%nat ->
    (forall j, i <= j < n ->
       exists d, fetchChunk env j 0
                 = Accepted (mkResult (Z.min ((j + 1) * C) (size b)) d) /\
                 (j < n - 1 -> d = false)) ->
    exists tl,
      chunkLoop env (nthChunk b C <$> seqZ 0 n) remaining i
        (mkWorld (mkState b C uploading ub em) t)
      = (Ok false, mkWorld (mkState b C completed (size b) em) (t ++ tl)) /\
      managerFetchesOf tl
      = (fun j => (j, mkRange (j * C) (Z.min ((j + 1) * C) (size b) - 1) (size b), 0))
          <$> seqZ i (Z.of_nat remaining) /\
      managerProgressOf tl
      = (fun j => Z.min ((j + 1) * C) (size b)) <$> seqZ i (Z.of_nat remaining) /\
      managerCompletionsOf tl = [size b] /\ errorsOf tl = [].
Proof.
  intros HC HS n Habort Hcomplete.
  pose proof (Math_ceil_div_bounds (size b) C HC) as Hb. fold n in Hb.
  induction remaining as [|remaining IH]; intros i ub em t Hi Hn Hpos Hnet; [lia|].
  destruct (Hnet i ltac:(lia)) as (d & Hfetch & Hd).
  assert (H0 : 0 <= i * C) by nia.
  assert (H1 : i * C < size b) by nia.
  assert (Hrange :
            mkRange (i * C)
              (Z.min (i * C + size (nthChunk b C i) - 1) (size b - 1)) (size b)
            = mkRange (i * C) (Z.min ((i + 1) * C) (size b) - 1) (size b)).
  { unfold nthChunk. cbn [size]. f_equal. lia. }
  assert (Hack : forall e,
            acknowledged (mkResult (Z.min ((i + 1) * C) (size b)) d) e
            = Z.min ((i + 1) * C) (size b)).
  { intros e. apply acknowledged_nonzero. lia. }
  rewrite (seqZ_cons i) by lia. rewrite !fmap_cons.
  replace (Z.pred (Z.of_nat (S remaining))) with (Z.of_nat remaining) by lia.
  replace (Z.succ i) with (i + 1) by lia.
  destruct remaining as [|remaining].
  - assert (Hlast : i = n - 1) by lia.
    erewrite chunkLoop_last;
      [|apply Habort|apply chunkAt_nthChunk; lia|exact Hfetch|exact Hcomplete|].
    + cbn [upload blob chunkSize status uploadedBytes errorMessage trace].
      rewrite Hrange, Hack. eexists. split; [reflexivity|].
      cbn. auto.
    + cbn [upload blob chunkSize status uploadedBytes errorMessage trace].
      rewrite Hack. apply orb_true_iff. right. apply Z.leb_le. nia.
  - assert (Hmore : i < n - 1) by lia.
    rewrite (chunkLoop_next env _ (S remaining) i _ (nthChunk b C i)
               (mkResult (Z.min ((i + 1) * C) (size b)) d));
      [|apply Habort|apply chunkAt_nthChunk; lia|exact Hfetch|].
    + cbn [upload blob chunkSize status uploadedBytes errorMessage trace].
      rewrite Hrange, Hack.
      edestruct (IH (i + 1)) as (tl & -> & Hf & Hp & Hc & He);
        [lia|lia|lia|intros j Hj; apply Hnet; lia|].
      eexists (_ :: _ :: tl). rewrite <- app_assoc.
      split; [reflexivity|]. split; [|split; [|split]].
      * change (managerFetchesOf (Fetch ?j ?r ?a :: _ :: tl))
          with ((j, r, a) :: managerFetchesOf tl).
        rewrite Hf. reflexivity.
      * change (managerProgressOf (_ :: Progress uploading ?x _ :: tl))
          with (x :: managerProgressOf tl).
        rewrite Hp. reflexivity.
      * exact Hc.
      * exact He.
    + cbn [upload blob chunkSize status uploadedBytes errorMessage trace].
      rewrite Hack, (Hd Hmore). apply orb_false_iff. split; [reflexivity|].
      apply Z.leb_gt. nia.
Qed.

(** [uploadChunks] on a backend that accepts the first [PUT] of every
    chunk it is sent. *)
Lemma uploadChunks_healthy env b C ub em t0 backendStatus url :
  0 < C ->
  getUploadStatus env = Ok backendStatus ->
  0 <= status_uploadedBytes backendStatus < size b ->
  let n := Math_ceil_div (size b) C in
  let start := Math_floor_div (status_uploadedBytes backendStatus) C in
  (forall j, abortedAtChunk env j = false) ->
  (forall j, start <= j < n ->
     exists d, fetchChunk env j 0
               = Accepted (mkResult (Z.min ((j + 1) * C) (size b)) d) /\
               (j < n - 1 -> d = false)) ->
  completeCall env = Ok url ->
  exists tl,
    uploadChunks env (mkWorld (mkState b C uploading ub em) t0)
    = (Ok tt, mkWorld (mkState b C completed (size b) em)
                (t0 ++ CallStatus :: tl)) /\
    managerFetchesOf tl
    = (fun j => (j, mkRange (j * C) (Z.min ((j + 1) * C) (size b) - 1) (size b), 0))
        <$> seqZ start (n - start) /\
    managerProgressOf tl
    = (fun j => Z.min ((j + 1) * C) (size b)) <$> seqZ start (n - start) /\
    managerCompletionsOf tl = [size b] /\ errorsOf tl = [].
Proof.
  intros HC Hstatus HU n start Habort Hnet Hcomplete.
  pose proof (Math_ceil_div_bounds (size b) C HC) as Hb. fold n in Hb.
  assert (Hstart : 0 <= start < n).
  { unfold start, Math_floor_div.
    pose proof (Z.div_pos (status_uploadedBytes backendStatus) C ltac:(lia) HC).
    pose proof (Z.mul_div_le (status_uploadedBytes backendStatus) C HC). nia. }
  unfold uploadChunks. run_manager. rewrite Hstatus. run_manager.
  rewrite slicedChunks_spec by lia. fold n. fold start.
  assert (Hiter : iterationsFrom (nthChunk b C <$> seqZ 0 n) start
                  = Z.to_nat (n - start)).
  { unfold iterationsFrom. rewrite length_fmap, length_seqZ. f_equal. lia. }
  rewrite Hiter.
  edestruct (chunkLoop_healthy env b C url HC ltac:(lia) Habort Hcomplete
               (Z.to_nat (n - start)) start)
    as (tl & -> & Hf & Hp & Hc & He); [lia|fold n; lia|lia|exact Hnet|].
  run_manager. rewrite Z2Nat.id in Hf, Hp by lia.
  exists tl. rewrite <- app_assoc. auto 10.
Qed.

(** X12.  [UploadManager.uploadChunks] on a backend that accepts the first
    [PUT] of every chunk, acknowledges the bytes up to the end of that
    chunk and does not report [done] before the last chunk: starting at
    the chunk [floor(acknowledged / chunkSize)] it puts every remaining
    chunk on the wire exactly once, in order, with the [Content-Range] of
    that chunk; the progress reported after each chunk is the end of the
    chunk; completion is requested once, after the last chunk, and the
    upload ends [completed] with every byte counted. *)
Theorem manager_sends_each_remaining_chunk_once env w backendStatus url :
  let u := upload w in
  let total := size (blob u) in
  let C := chunkSize u in
  let n := Math_ceil_div total C in
  0 < C -> status u = uploading ->
  getUploadStatus env = Ok backendStatus ->
  0 <= status_uploadedBytes backendStatus < total ->
  let start := Math_floor_div (status_uploadedBytes backendStatus) C in
  (forall j, abortedAtChunk env j = false) ->
  (forall j, start <= j < n ->
     exists d, fetchChunk env j 0
               = Accepted (mkResult (Z.min ((j + 1) * C) total) d) /\
               (j < n - 1 -> d = false)) ->
  completeCall env = Ok url ->
  let r := uploadChunks env w in
  r.1 = Ok tt /\
  status (upload r.2) = completed /\ uploadedBytes (upload r.2) = total /\
  exists t,
    trace r.2 = trace w ++ CallStatus :: t /\
    managerFetchesOf t
    = (fun j => (j, mkRange (j * C) (Z.min ((j + 1) * C) total - 1) total, 0))
        <$> seqZ start (n - start) /\
    managerProgressOf t
    = (fun j => Z.min ((j + 1) * C) total) <$> seqZ start (n - start) /\
    managerCompletionsOf t = [total].
Proof.
  destruct w as [[b C st ub em] t0].
  cbn [upload blob chunkSize status uploadedBytes errorMessage trace].
  intros HC -> Hstatus HU Habort Hnet Hcomplete.
  destruct (uploadChunks_healthy env b C ub em t0 backendStatus url HC Hstatus HU
              Habort Hnet Hcomplete) as (tl & -> & Hf & Hp & Hc & _).
  cbn [fst snd upload status uploadedBytes trace].
  split; [reflexivity|]. split; [reflexivity|]. split; [reflexivity|].
  exists tl. auto.
Qed.

Lemma manager_sends_each_remaining_chunk_once_witness :
  let env :=
    mkEnv (Ok (mkStatus 8 8 20))
      (fun i _ => Accepted (mkResult (Z.min ((i + 1) * 8) 20) (20 <=? (i + 1) * 8)))
      (Ok (Some "https://playback")) (fun _ => false) (fun _ _ => false) in
  let r := uploadChunks env sampleManagerUpload in
  status (upload r.2) = completed /\
  exists t,
    trace r.2 = CallStatus :: t /\
    managerFetchesOf t = [(1, mkRange 8 15 20, 0); (2, mkRange 16 19 20, 0)] /\
    managerCompletionsOf t = [20].
Proof.
  intros env r.
  destruct (manager_sends_each_remaining_chunk_once env sampleManagerUpload
              (mkStatus 8 8 20) (Some "https://playback"))
    as (_ & H1 & _ & t & H2 & H3 & _ & H4).
  - cbn; lia.
  - reflexivity.
  - reflexivity.
  - cbn; lia.
  - reflexivity.
  - intros j Hj. eexists. split; [reflexivity|].
    intros Hlt. change (j < 3 - 1) in Hlt. apply Z.leb_gt. lia.
  - reflexivity.
  - split; [exact H1|]. exists t. split; [exact H2|]. split; [exact H3|exact H4].
Defined.

(** X13.  [UploadManager.uploadChunks] when every [PUT] of the first chunk
    it has to send fails and the upload is not cancelled: the chunk is put
    on the wire three times, with waits of 1000 ms and 2000 ms between the
    attempts (the third delay of [retryDelays] is not used); then the
    status is [error], the message of the third failure is recorded,
    reported through [onError] and thrown; no later chunk is sent and
    completion is not requested. *)
Theorem manager_gives_up_after_three_attempts
    env w backendStatus chunks c m0 m1 m2 :
  let u := upload w in
  getUploadStatus env = Ok backendStatus ->
  slicedChunks (blob u) (chunkSize u) = Some chunks ->
  let i := Math_floor_div (status_uploadedBytes backendStatus) (chunkSize u) in
  chunkAt chunks i = Some c ->
  abortedAtChunk env i = false ->
  (forall attempt, abortedAtCatch env i attempt = false) ->
  fetchChunk env i 0 = Failed m0 ->
  fetchChunk env i 1 = Failed m1 ->
  fetchChunk env i 2 = Failed m2 ->
  let range :=
    mkRange (i * chunkSize u)
      (Z.min (i * chunkSize u + size c - 1) (size (blob u) - 1)) (size (blob u)) in
  let r := uploadChunks env w in
  r.1 = Throw m2 /\
  trace r.2
  = trace w ++ [CallStatus; Fetch i range 0; SetTimeout (Some 1000);
                Fetch i range 1; SetTimeout (Some 2000); Fetch i range 2;
                Progress error (uploadedBytes u)
                  (percentageOf (uploadedBytes u) (size (blob u)));
                OnError m2] /\
  status (upload r.2) = error /\ errorMessage (upload r.2) = Some m2 /\
  uploadedBytes (upload r.2) = uploadedBytes u.
Proof.
  destruct w as [[b C st ub em] t0].
  cbn [upload blob chunkSize status uploadedBytes errorMessage trace].
  intros Hstatus Hchunks Hc Habort Hcatch H0 H1 H2.
  unfold uploadChunks. run_manager. rewrite Hstatus. run_manager.
  rewrite Hchunks.
  assert (Hiter : exists remaining,
            iterationsFrom chunks
              (Math_floor_div (status_uploadedBytes backendStatus) C)
            = S remaining).
  { unfold iterationsFrom, chunkAt in *.
    destruct (Z.ltb_spec (Math_floor_div (status_uploadedBytes backendStatus) C) 0);
      [discriminate|].
    apply lookup_lt_Some in Hc.
    exists (Init.Nat.pred (Z.to_nat (Z.of_nat (length chunks)
              - Math_floor_div (status_uploadedBytes backendStatus) C))). lia. }
  destruct Hiter as [remaining ->].
  cbn [chunkLoop]. rewrite Habort. run_manager. rewrite Hc. run_manager.
  change (Z.to_nat maxRetries) with 3%nat. cbn [attempts]. run_manager.
  rewrite H0, !Hcatch. run_manager.
  change (0 <? maxRetries - 1) with true. change (0 + 1) with 1. run_manager.
  rewrite H1. run_manager.
  change (1 <? maxRetries - 1) with true. change (1 + 1) with 2. run_manager.
  rewrite H2. run_manager.
  change (2 <? maxRetries - 1) with false. run_manager.
  cbn [from_option default]. rewrite <- !app_assoc.
  split; [reflexivity|]. split; [reflexivity|]. auto.
Qed.

Lemma manager_gives_up_after_three_attempts_witness :
  let r := uploadChunks refusingManagerEnv sampleManagerUpload in
  r.1 = Throw "Chunk upload failed: 503 Service Unavailable" /\
  status (upload r.2) = error.
Proof.
  destruct (manager_gives_up_after_three_attempts refusingManagerEnv
              sampleManagerUpload (mkStatus 0 8 20)
              [mkBlob 0 8; mkBlob 8 8; mkBlob 16 4] (mkBlob 0 8)
              "Chunk upload failed: 503 Service Unavailable"
              "Chunk upload failed: 503 Service Unavailable"
              "Chunk upload failed: 503 Service Unavailable")
    as (H1 & _ & H2 & _);
    [reflexivity|vm_compute; reflexivity|reflexivity|reflexivity|reflexivity
    |reflexivity|reflexivity|reflexivity|].
  split; [exact H1|exact H2].
Defined.

(** X14.  A cancelled upload is left silently.  When the abort signal is
    set at the head of the first iteration, [uploadChunks] returns after
    the status query: no chunk is put on the wire.  When a [PUT] fails and
    the signal is found set in the [catch] block, it returns after that one
    attempt: no retry, no wait.  In both cases the upload's status, byte
    count and error message are as before, no error is reported and
    completion is not requested. *)
Theorem manager_abort_is_silent env w backendStatus chunks c :
  let u := upload w in
  getUploadStatus env = Ok backendStatus ->
  slicedChunks (blob u) (chunkSize u) = Some chunks ->
  let i := Math_floor_div (status_uploadedBytes backendStatus) (chunkSize u) in
  chunkAt chunks i = Some c ->
  let range :=
    mkRange (i * chunkSize u)
      (Z.min (i * chunkSize u + size c - 1) (size (blob u) - 1)) (size (blob u)) in
  (abortedAtChunk env i = true ->
   uploadChunks env w = (Ok tt, mkWorld u (trace w ++ [CallStatus]))) /\
  (abortedAtChunk env i = false ->
   (exists m, fetchChunk env i 0 = Failed m) ->
   abortedAtCatch env i 0 = true ->
   uploadChunks env w
   = (Ok tt, mkWorld u (trace w ++ [CallStatus; Fetch i range 0]))).
Proof.
  destruct w as [[b C st ub em] t0].
  cbn [upload blob chunkSize status uploadedBytes errorMessage trace].
  intros Hstatus Hchunks Hc.
  assert (Hiter : exists remaining,
            iterationsFrom chunks
              (Math_floor_div (status_uploadedBytes backendStatus) C)
            = S remaining).
  { unfold iterationsFrom, chunkAt in *.
    destruct (Z.ltb_spec (Math_floor_div (status_uploadedBytes backendStatus) C) 0);
      [discriminate|].
    apply lookup_lt_Some in Hc.
    exists (Init.Nat.pred (Z.to_nat (Z.of_nat (length chunks)
              - Math_floor_div (status_uploadedBytes backendStatus) C))). lia. }
  destruct Hiter as [remaining Hiter].
  split.
  - intros Habort. unfold uploadChunks. run_manager. rewrite Hstatus.
    run_manager. rewrite Hchunks, Hiter. cbn [chunkLoop]. rewrite Habort.
    run_manager. reflexivity.
  - intros Habort [m Hfetch] Hcatch. unfold uploadChunks. run_manager.
    rewrite Hstatus. run_manager. rewrite Hchunks, Hiter. cbn [chunkLoop].
    rewrite Habort. run_manager. rewrite Hc. run_manager.
    change (Z.to_nat maxRetries) with 3%nat. cbn [attempts]. run_manager.
    rewrite Hfetch, Hcatch. run_manager. rewrite <- !app_assoc. reflexivity.
Qed.

Lemma manager_abort_is_silent_witness :
  let env :=
    mkEnv (Ok (mkStatus 0 8 20)) (fun _ _ => Failed "AbortError")
      (Ok None) (fun _ => true) (fun _ _ => true) in
  uploadChunks env sampleManagerUpload
  = (Ok tt, mkWorld (upload sampleManagerUpload) [CallStatus]).
Proof.
  intros env.
  destruct (manager_abort_is_silent env sampleManagerUpload (mkStatus 0 8 20)
              [mkBlob 0 8; mkBlob 8 8; mkBlob 16 4] (mkBlob 0 8))
    as [H _]; [reflexivity|reflexivity|reflexivity|].
  apply H. reflexivity.
Defined.

(** [uploadChunks] when the three [PUT]s of the first chunk fail. *)
Lemma uploadChunks_exhausted env b C st ub em t0 backendStatus chunks c m0 m1 m2 :
  getUploadStatus env = Ok backendStatus ->
  slicedChunks b C = Some chunks ->
  let i := Math_floor_div (status_uploadedBytes backendStatus) C in
  chunkAt chunks i = Some c ->
  abortedAtChunk env i = false ->
  (forall attempt, abortedAtCatch env i attempt = false) ->
  fetchChunk env i 0 = Failed m0 ->
  fetchChunk env i 1 = Failed m1 ->
  fetchChunk env i 2 = Failed m2 ->
  let range := mkRange (i * C) (Z.min (i * C + size c - 1) (size b - 1)) (size b) in
  uploadChunks env (mkWorld (mkState b C st ub em) t0)
  = (Throw m2,
     mkWorld (mkState b C error ub (Some m2))
       (t0 ++ [CallStatus; Fetch i range 0; SetTimeout (Some 1000);
               Fetch i range 1; SetTimeout (Some 2000); Fetch i range 2;
               Progress error ub (percentageOf ub (size b)); OnError m2])).
Proof.
  intros Hstatus Hchunks i Hc Habort Hcatch H0 H1 H2 range. subst i range.
  unfold uploadChunks. run_manager. rewrite Hstatus. run_manager.
  rewrite Hchunks.
  assert (Hiter : exists remaining,
            iterationsFrom chunks
              (Math_floor_div (status_uploadedBytes backendStatus) C)
            = S remaining).
  { unfold iterationsFrom, chunkAt in *.
    destruct (Z.ltb_spec (Math_floor_div (status_uploadedBytes backendStatus) C) 0);
      [discriminate|].
    apply lookup_lt_Some in Hc.
    exists (Init.Nat.pred (Z.to_nat (Z.of_nat (length chunks)
              - Math_floor_div (status_uploadedBytes backendStatus) C))). lia. }
  destruct Hiter as [remaining ->].
  cbn [chunkLoop]. rewrite Habort. run_manager. rewrite Hc. run_manager.
  change (Z.to_nat maxRetries) with 3%nat. cbn [attempts]. run_manager.
  rewrite H0, !Hcatch. run_manager.
  change (0 <? maxRetries - 1) with true. change (0 + 1) with 1. run_manager.
  rewrite H1. run_manager.
  change (1 <? maxRetries - 1) with true. change (1 + 1) with 2. run_manager.
  rewrite H2. run_manager.
  change (2 <? maxRetries - 1) with false. run_manager.
  cbn [from_option default]. rewrite <- !app_assoc. reflexivity.
Qed.

(** X18.  [UploadManager.startUpload] returns the identity of the granted
    session without waiting for the chunks.  When the three [PUT]s of a
    chunk then fail, the failure is reported twice: [uploadChunks] sets
    [error], reports the progress and calls [onError], and the [catch]
    handler of [startUpload] does the same again with the same error; the
    chunk was put on the wire three times and completion is not
    requested. *)
Theorem manager_reports_failure_twice env init b backendStatus m0 m1 m2 :
  0 < init_chunkSize init -> 0 < size b ->
  getUploadStatus env = Ok backendStatus ->
  0 <= status_uploadedBytes backendStatus < size b ->
  let i :=
    Math_floor_div (status_uploadedBytes backendStatus) (init_chunkSize init) in
  abortedAtChunk env i = false ->
  (forall attempt, abortedAtCatch env i attempt = false) ->
  fetchChunk env i 0 = Failed m0 ->
  fetchChunk env i 1 = Failed m1 ->
  fetchChunk env i 2 = Failed m2 ->
  exists w,
    startUpload env (Ok init) b = (Ok (init_recordingId init), Some w) /\
    errorsOf (trace w) = [m2; m2] /\
    errorProgressOf (trace w) = [0; 0] /\
    (fun f => f.1.1) <$> managerFetchesOf (trace w) = [i; i; i] /\
    managerCompletionsOf (trace w) = [] /\
    status (upload w) = error /\ errorMessage (upload w) = Some m2.
Proof.
  intros HC HS Hstatus HU i Habort Hcatch H0 H1 H2.
  pose proof (Math_ceil_div_bounds (size b) (init_chunkSize init) HC) as Hb.
  assert (Hi : 0 <= i < Math_ceil_div (size b) (init_chunkSize init)).
  { unfold i, Math_floor_div.
    pose proof (Z.div_pos (status_uploadedBytes backendStatus)
                  (init_chunkSize init) ltac:(lia) HC).
    pose proof (Z.mul_div_le (status_uploadedBytes backendStatus)
                  (init_chunkSize init) HC). nia. }
  unfold startUpload. eexists. split; [reflexivity|].
  unfold background, tryCatch.
  erewrite uploadChunks_exhausted;
    [|exact Hstatus|apply slicedChunks_spec; lia
     |apply chunkAt_nthChunk; exact Hi|exact Habort|exact Hcatch
     |exact H0|exact H1|exact H2].
  run_manager. cbn. auto 10.
Qed.

Lemma manager_reports_failure_twice_witness :
  exists w,
    startUpload refusingManagerEnv (Ok (mkInit "rec" 8)) (mkBlob 0 20)
    = (Ok "rec", Some w) /\
    errorsOf (trace w)
    = ["Chunk upload failed: 503 Service Unavailable";
       "Chunk upload failed: 503 Service Unavailable"].
Proof.
  destruct (manager_reports_failure_twice refusingManagerEnv (mkInit "rec" 8)
              (mkBlob 0 20) (mkStatus 0 8 20)
              "Chunk upload failed: 503 Service Unavailable"
              "Chunk upload failed: 503 Service Unavailable"
              "Chunk upload failed: 503 Service Unavailable")
    as (w & H1 & H2 & _);
    [cbn; lia|cbn; lia|reflexivity|cbn; lia|reflexivity|reflexivity
    |reflexivity|reflexivity|reflexivity|].
  exists w. split; [exact H1|exact H2].
Defined.

(** X19.  [UploadManager.resumeUpload] of an upload the manager still
    holds and none of whose walks is still running (for instance one that
    ended in [error]) keeps the chunk size and replaces the blob, clears
    the error message and sets [uploading]; on a backend that now accepts
    every chunk it sends exactly the chunks from the backend's acknowledged
    offset on, once each, reports no error and leaves the upload
    [completed] with every byte counted. *)
Theorem manager_resume_completes env held b backendStatus url :
  let w := heldWorld held in
  let C := chunkSize (upload w) in
  let n := Math_ceil_div (size b) C in
  walkRunning held = false ->
  0 < C ->
  getUploadStatus env = Ok backendStatus ->
  0 <= status_uploadedBytes backendStatus < size b ->
  let start := Math_floor_div (status_uploadedBytes backendStatus) C in
  (forall j, abortedAtChunk env j = false) ->
  (forall j, start <= j < n ->
     exists d, fetchChunk env j 0
               = Accepted (mkResult (Z.min ((j + 1) * C) (size b)) d) /\
               (j < n - 1 -> d = false)) ->
  completeCall env = Ok url ->
  exists w' t,
    resumeUpload env (Some held) b = (Ok tt, Some w') /\
    upload w' = mkState b C completed (size b) None /\
    trace w' = trace w ++ CallStatus :: t /\
    (fun f => f.1.1) <$> managerFetchesOf t = seqZ start (n - start) /\
    managerFetchesOf t
    = (fun j => (j, mkRange (j * C) (Z.min ((j + 1) * C) (size b) - 1) (size b), 0))
        <$> seqZ start (n - start) /\
    managerCompletionsOf t = [size b] /\ errorsOf t = [].
Proof.
  destruct held as [[[b0 C st ub em] t0] running].
  cbn [heldWorld walkRunning upload blob chunkSize status uploadedBytes
       errorMessage trace].
  intros Hended HC Hstatus HU Habort Hnet Hcomplete. subst running.
  destruct (uploadChunks_healthy env b C ub None t0 backendStatus url HC Hstatus
              HU Habort Hnet Hcomplete) as (tl & Hrun & Hf & _ & Hc & He).
  unfold resumeUpload, background, tryCatch.
  cbn [heldWorld walkRunning upload blob chunkSize status uploadedBytes
       errorMessage trace].
  rewrite Hrun. eexists _, tl. cbn [fst snd upload trace].
  split; [reflexivity|]. split; [reflexivity|]. split; [reflexivity|].
  split; [rewrite Hf, <- list_fmap_compose; apply list_fmap_id|].
  split; [exact Hf|]. split; [exact Hc|exact He].
Qed.

Lemma manager_resume_completes_witness :
  let env :=
    mkEnv (Ok (mkStatus 8 8 20))
      (fun i _ => Accepted (mkResult (Z.min ((i + 1) * 8) 20) (20 <=? (i + 1) * 8)))
      (Ok (Some "https://playback")) (fun _ => false) (fun _ _ => false) in
  let failed :=
    mkHeld
      (mkWorld (mkState (mkBlob 0 20) 8 error 8 (Some "Chunk upload failed")) [])
      false in
  exists w',
    resumeUpload env (Some failed) (mkBlob 0 20) = (Ok tt, Some w') /\
    upload w' = mkState (mkBlob 0 20) 8 completed 20 None.
Proof.
  intros env failed.
  destruct (manager_resume_completes env failed (mkBlob 0 20) (mkStatus 8 8 20)
              (Some "https://playback")) as (w' & t & H1 & H2 & _).
  - reflexivity.
  - cbn; lia.
  - reflexivity.
  - cbn; lia.
  - reflexivity.
  - intros j Hj. eexists. split; [reflexivity|].
    intros Hlt. change (j < 3 - 1) in Hlt. apply Z.leb_gt. lia.
  - reflexivity.
  - exists w'. split; [exact H1|exact H2].
Defined.

(** X20.  In [UploadManager.uploadChunks] the completion call is awaited
    inside the [try] of the retry loop.  When the last chunk is accepted
    with the upload complete and the completion call fails, the failure is
    taken for a failure of the chunk: the chunk is put on the wire three
    times, with waits of 1000 ms and 2000 ms, completion is requested after
    each of them and once more after the loop, four times in all, [onError]
    is called four times, and the error of the completion call is thrown
    with the upload in [error]. *)
Theorem manager_retries_chunk_after_failed_completion
    env w backendStatus chunks c r0 r1 r2 message :
  let u := upload w in
  getUploadStatus env = Ok backendStatus ->
  slicedChunks (blob u) (chunkSize u) = Some chunks ->
  let i := Math_floor_div (status_uploadedBytes backendStatus) (chunkSize u) in
  chunkAt chunks i = Some c ->
  i = Z.of_nat (length chunks) - 1 ->
  abortedAtChunk env i = false ->
  (forall attempt, abortedAtCatch env i attempt = false) ->
  fetchChunk env i 0 = Accepted r0 ->
  fetchChunk env i 1 = Accepted r1 ->
  fetchChunk env i 2 = Accepted r2 ->
  done r0 = true -> done r1 = true -> done r2 = true ->
  completeCall env = Throw message ->
  let r := uploadChunks env w in
  r.1 = Throw message /\
  exists t,
    trace r.2 = trace w ++ t /\
    (fun f => (f.1.1, f.2)) <$> managerFetchesOf t = [(i, 0); (i, 1); (i, 2)] /\
    delaysOf t = [Some 1000; Some 2000] /\
    managerCompletionsOf t
    = [size (blob u); size (blob u); size (blob u); size (blob u)] /\
    errorsOf t = [message; message; message; message] /\
    status (upload r.2) = error /\ errorMessage (upload r.2) = Some message.
Proof.
  destruct w as [[b C st ub em] t0].
  cbn [upload blob chunkSize status uploadedBytes errorMessage trace].
  intros Hstatus Hchunks Hc Hlast Habort Hcatch H0 H1 H2 Hd0 Hd1 Hd2 Hcomplete.
  unfold uploadChunks. run_manager. rewrite Hstatus. run_manager.
  rewrite Hchunks.
  assert (Hiter : iterationsFrom chunks
                    (Math_floor_div (status_uploadedBytes backendStatus) C)
                  = 1%nat).
  { unfold iterationsFrom. rewrite Hlast. lia. }
  rewrite Hiter.
  cbn [chunkLoop]. rewrite Habort. run_manager. rewrite Hc. run_manager.
  change (Z.to_nat maxRetries) with 3%nat. cbn [attempts]. run_manager.
  rewrite H0. run_manager. rewrite Hd0. cbn [orb]. run_manager.
  rewrite Hcomplete, !Hcatch. run_manager.
  change (0 <? maxRetries - 1) with true. change (0 + 1) with 1. run_manager.
  rewrite H1. run_manager. rewrite Hd1. cbn [orb]. run_manager.
  change (1 <? maxRetries - 1) with true. change (1 + 1) with 2. run_manager.
  rewrite H2. run_manager. rewrite Hd2. cbn [orb]. run_manager.
  change (2 <? maxRetries - 1) with false. run_manager.
  split; [reflexivity|]. eexists. rewrite <- !app_assoc.
  split; [reflexivity|]. cbn. auto 10.
Qed.

Lemma manager_retries_chunk_after_failed_completion_witness :
  let env :=
    mkEnv (Ok (mkStatus 16 8 20)) (fun _ _ => Accepted (mkResult 20 true))
      (Throw "Failed to complete upload: 500 Internal Server Error")
      (fun _ => false) (fun _ _ => false) in
  let r := uploadChunks env sampleManagerUpload in
  r.1 = Throw "Failed to complete upload: 500 Internal Server Error" /\
  exists t, trace r.2 = t /\ managerCompletionsOf t = [20; 20; 20; 20].
Proof.
  intros env r.
  destruct (manager_retries_chunk_after_failed_completion env sampleManagerUpload
              (mkStatus 16 8 20) [mkBlob 0 8; mkBlob 8 8; mkBlob 16 4] (mkBlob 16 4)
              (mkResult 20 true) (mkResult 20 true) (mkResult 20 true)
              "Failed to complete upload: 500 Internal Server Error")
    as (H1 & t & H2 & _ & _ & H3 & _);
    [reflexivity|vm_compute; reflexivity|reflexivity|reflexivity|reflexivity
    |reflexivity|reflexivity|reflexivity|reflexivity|reflexivity|reflexivity
    |reflexivity|reflexivity|].
  split; [exact H1|]. exists t. split; [exact H2|exact H3].
Defined.

(** X22.  [UploadManager.resumeUpload] of an upload the manager does not
    hold asks the backend for the status itself and rejects, without
    creating an upload, when that request fails; otherwise it takes the
    chunk size and the byte count from the reply, and [uploadChunks] asks
    for the status a second time before the first chunk; on a backend that
    accepts every chunk the upload then ends [completed] after exactly the
    chunks from the acknowledged offset on. *)
Theorem manager_resume_of_unknown_upload env b :
  (forall message,
     getUploadStatus env = Throw message ->
     resumeUpload env None b = (Throw message, None)) /\
  (forall backendStatus url,
     let C := status_chunkSize backendStatus in
     let n := Math_ceil_div (size b) C in
     let start := Math_floor_div (status_uploadedBytes backendStatus) C in
     0 < C ->
     getUploadStatus env = Ok backendStatus ->
     0 <= status_uploadedBytes backendStatus < size b ->
     (forall j, abortedAtChunk env j = false) ->
     (forall j, start <= j < n ->
        exists d, fetchChunk env j 0
                  = Accepted (mkResult (Z.min ((j + 1) * C) (size b)) d) /\
                  (j < n - 1 -> d = false)) ->
     completeCall env = Ok url ->
     exists w' t,
       resumeUpload env None b = (Ok tt, Some w') /\
       upload w' = mkState b C completed (size b) None /\
       trace w' = CallStatus :: CallStatus :: t /\
       (fun f => f.1.1) <$> managerFetchesOf t = seqZ start (n - start) /\
       managerCompletionsOf t = [size b] /\ errorsOf t = []).
Proof.
  split.
  - intros message Hstatus. unfold resumeUpload. rewrite Hstatus. reflexivity.
  - intros backendStatus url C n start HC Hstatus HU Habort Hnet Hcomplete.
    destruct (uploadChunks_healthy env b C (status_uploadedBytes backendStatus)
                None [CallStatus] backendStatus url HC Hstatus HU Habort Hnet
                Hcomplete) as (tl & Hrun & Hf & _ & Hc & He).
    unfold resumeUpload, background, tryCatch. rewrite Hstatus. fold C.
    rewrite Hrun. eexists _, tl. cbn [fst snd upload trace app].
    split; [reflexivity|]. split; [reflexivity|]. split; [reflexivity|].
    split; [|auto]. rewrite Hf, <- list_fmap_compose. apply list_fmap_id.
Qed.

Lemma manager_resume_of_unknown_upload_witness :
  let env :=
    mkEnv (Ok (mkStatus 8 8 20))
      (fun i _ => Accepted (mkResult (Z.min ((i + 1) * 8) 20) (20 <=? (i + 1) * 8)))
      (Ok (Some "https://playback")) (fun _ => false) (fun _ _ => false) in
  exists w',
    resumeUpload env None (mkBlob 0 20) = (Ok tt, Some w') /\
    upload w' = mkState (mkBlob 0 20) 8 completed 20 None.
Proof.
  intros env.
  destruct (proj2 (manager_resume_of_unknown_upload env (mkBlob 0 20))
              (mkStatus 8 8 20) (Some "https://playback"))
    as (w' & t & H1 & H2 & _).
  - cbn; lia.
  - reflexivity.
  - cbn; lia.
  - reflexivity.
  - intros j Hj. eexists. split; [reflexivity|].
    intros Hlt. change (j < 3 - 1) in Hlt. apply Z.leb_gt. lia.
  - reflexivity.
  - exists w'. split; [exact H1|exact H2].
Defined.

End ManagerProofs.

(** ** Further properties of the dual-stream session *)

Module DualLiveness.

Import Dual.
Import DualProofs.

Lemma chunkWalk_settles uploadFn :
  (forall i, (uploadFn i).1 <> Hang) ->
  forall remaining i,
    Forall (fun step => step_outcome step <> Hang) (chunkWalk uploadFn remaining i).
Proof.
  intros Hfn. induction remaining as [|remaining IH]; intros i; [constructor|].
  cbn [chunkWalk]. specialize (Hfn i).
  destruct (uploadFn i) as [outcome effects]. cbn in Hfn.
  constructor; [exact Hfn|].
  destruct outcome as [result| |]; [|constructor|constructor].
  destruct (done result); [constructor|apply IH].
Qed.

Lemma uploadStreamChunks_lively stream net blob id chunkSize :
  0 < chunkSize -> 0 <= size blob ->
  exists steps,
    uploadStreamChunks stream net blob id chunkSize = Some steps /\
    lively (promiseOf steps) /\
    (pendingSteps (promiseOf steps)
     <= Z.to_nat (Math_ceil_div (size blob) chunkSize))%nat.
Proof.
  intros HC HS. unfold uploadStreamChunks.
  rewrite slicedChunks_spec by assumption. cbn [mbind option_bind].
  eexists. split; [reflexivity|].
  set (chunks := nthChunk blob chunkSize <$> seqZ 0 (Math_ceil_div (size blob) chunkSize)).
  set (steps := chunkWalk _ _ _).
  assert (Hsettles : Forall (fun step => step_outcome step <> Hang) steps).
  { apply chunkWalk_settles. intros i.
    destruct stream; apply putWithRetry_settles; discriminate. }
  assert (Hlen : (length steps
                  <= Z.to_nat (Math_ceil_div (size blob) chunkSize))%nat).
  { etrans; [apply chunkWalk_length|]. unfold iterationsFrom, chunks.
    rewrite length_fmap, length_seqZ. lia. }
  destruct steps as [|step steps']; cbn; [split; [exact I|lia]|].
  split; [split; [discriminate|exact Hsettles]|exact Hlen].
Qed.

(** A turn of a stream whose walk is in flight runs one iteration. *)
Lemma advance_turn stream totalSize w :
  lively (walkOf stream w) ->
  lively (walkOf stream (advance stream totalSize w).2) /\
  (pendingSteps (walkOf stream (advance stream totalSize w).2)
   <= Init.Nat.pred (pendingSteps (walkOf stream w)))%nat.
Proof.
  destruct w as [st pr err rid url tr sw ww ret].
  assert (Hpromise : forall steps,
            Forall (fun step => step_outcome step <> Hang) steps ->
            lively (promiseOf steps) /\
            (pendingSteps (promiseOf steps) <= length steps)%nat).
  { intros [|step steps] Hall; cbn; [auto|].
    split; [split; [discriminate|exact Hall]|lia]. }
  destruct stream; cbn [walkOf screenWalk webcamWalk]; intros Hl; unfold advance;
    cbn [walkOf screenWalk webcamWalk].
  - destruct sw as [[|step steps]| |]; cbn in Hl |- *; try (split; [exact Hl|lia]).
    destruct Hl as [_ Hall]. apply Forall_cons in Hall as [Hstep Hall].
    destruct (step_outcome step) as [result|message|]; [| |contradiction].
    + run_dual. destruct pr; run_dual; apply Hpromise; exact Hall.
    + run_dual. cbn. split; [exact I|lia].
  - destruct ww as [[|step steps]| |]; cbn in Hl |- *; try (split; [exact Hl|lia]).
    destruct Hl as [_ Hall]. apply Forall_cons in Hall as [Hstep Hall].
    destruct (step_outcome step) as [result|message|]; [| |contradiction].
    + run_dual. destruct pr; run_dual; apply Hpromise; exact Hall.
    + run_dual. cbn. split; [exact I|lia].
Qed.

Lemma advance_other stream other totalSize w :
  other <> stream ->
  walkOf other (advance stream totalSize w).2 = walkOf other w.
Proof.
  intros Hne.
  destruct (advance_frame stream totalSize w) as (_ & _ & _ & _ & Hother & _).
  apply Hother. exact Hne.
Qed.

Lemma run_turns env id sb wb schedule : forall w,
  lively (screenWalk w) -> lively (webcamWalk w) ->
  let w' := (run env id sb wb schedule w).2 in
  lively (screenWalk w') /\ lively (webcamWalk w') /\
  (pendingSteps (screenWalk w')
   <= pendingSteps (screenWalk w) - turnsOf ScreenStream schedule)%nat /\
  (pendingSteps (webcamWalk w')
   <= pendingSteps (webcamWalk w) - turnsOf WebcamStream schedule)%nat.
Proof.
  induction schedule as [|stream schedule IH]; intros w Hs Hw.
  - cbn. repeat split; try assumption; lia.
  - rewrite run_cons. cbv zeta.
    destruct (joinAll_ok env id (advance stream (sizeOf stream sb wb) w).2)
      as (_ & Hjs & Hjw).
    set (w1 := (joinAll env id (advance stream (sizeOf stream sb wb) w).2).2) in *.
    assert (Hstep :
              lively (screenWalk w1) /\ lively (webcamWalk w1) /\
              (pendingSteps (screenWalk w1) + turnsOf ScreenStream [stream]
               <= Nat.max (pendingSteps (screenWalk w)) (turnsOf ScreenStream [stream]))%nat /\
              (pendingSteps (webcamWalk w1) + turnsOf WebcamStream [stream]
               <= Nat.max (pendingSteps (webcamWalk w)) (turnsOf WebcamStream [stream]))%nat).
    { rewrite Hjs, Hjw. destruct stream.
      - pose proof (advance_turn ScreenStream (sizeOf ScreenStream sb wb) w Hs)
          as [Hl Hle].
        pose proof (advance_other ScreenStream WebcamStream
                      (sizeOf ScreenStream sb wb) w ltac:(discriminate)) as Ho.
        cbn [walkOf] in Hl, Hle, Ho. rewrite Ho. cbn [turnsOf].
        repeat split; try assumption; lia.
      - pose proof (advance_turn WebcamStream (sizeOf WebcamStream sb wb) w Hw)
          as [Hl Hle].
        pose proof (advance_other WebcamStream ScreenStream
                      (sizeOf WebcamStream sb wb) w ltac:(discriminate)) as Ho.
        cbn [walkOf] in Hl, Hle, Ho. rewrite Ho. cbn [turnsOf].
        repeat split; try assumption; lia. }
    destruct Hstep as (Hs1 & Hw1 & Hps & Hpw).
    destruct (IH w1 Hs1 Hw1) as (Hs2 & Hw2 & Hps2 & Hpw2).
    repeat split; try assumption.
    + destruct stream; cbn [turnsOf] in *; lia.
    + destruct stream; cbn [turnsOf] in *; lia.
Qed.

(** [launch] once the session is granted: both walks are started. *)
Lemma launch_started env sb wb opts position init screenSteps webcamSteps w0 :
  (duration opts =? 0) = false ->
  webcamPosition opts = Some position ->
  initDualUpload env (size sb) (size wb) (webcamPositionToApiFormat position)
    (duration opts) = Ok init ->
  uploadStreamChunks ScreenStream (network env) sb (init_recordingId init)
    (init_chunkSize init) = Some screenSteps ->
  uploadStreamChunks WebcamStream (network env) wb (init_recordingId init)
    (init_chunkSize init) = Some webcamSteps ->
  let r := launch env sb wb (Some opts) w0 in
  r.1 = Ok (Some (init_recordingId init)) /\
  screenWalk r.2 = promiseOf screenSteps /\
  webcamWalk r.2 = promiseOf webcamSteps /\
  settledOrInFlight (init_recordingId init) (trace w0) r.2.
Proof.
  destruct w0 as [st pr err rid url tr sw ww ret].
  intros Hduration Hposition Hinit Hscreen Hwebcam r. subst r. unfold launch.
  rewrite Hduration, Hposition. run_dual. rewrite Hinit. run_dual.
  rewrite Hscreen, Hwebcam. run_dual.
  match goal with
  | |- context [joinAll env ?i ?W] =>
      destruct (joinAll_settles env i tr W) as (Hinv & Hok & Hs & Hw);
      [|destruct (joinAll env i W) as [o w2]]
  end.
  - cbn. eexists. rewrite <- !app_assoc. split; [reflexivity|].
    split; [reflexivity|]. split; [reflexivity|].
    cbn. intros H. rewrite !elem_of_cons, elem_of_nil in H.
    intuition discriminate.
  - cbn [fst snd screenWalk webcamWalk] in Hok, Hs, Hw, Hinv. subst o.
    cbv beta iota zeta. cbn [fst snd]. auto.
Qed.

(** X15.  The two walks of a dual upload cannot block each other.  Once
    the session is granted with a positive chunk size, and the event loop
    has given each stream as many turns as it has chunks (in any order),
    the call of [upload] is no longer in [uploading]: it has returned with
    the session [completed], or it has thrown with the session in [error],
    or it is waiting for the completion call in [completing]. *)
Theorem dual_upload_leaves_uploading env sb wb opts position init schedule w0 :
  duration opts <> 0 ->
  webcamPosition opts = Some position ->
  initDualUpload env (size sb) (size wb) (webcamPositionToApiFormat position)
    (duration opts) = Ok init ->
  0 < init_chunkSize init -> 0 <= size sb -> 0 <= size wb ->
  (Z.to_nat (Math_ceil_div (size sb) (init_chunkSize init))
   <= turnsOf ScreenStream schedule)%nat ->
  (Z.to_nat (Math_ceil_div (size wb) (init_chunkSize init))
   <= turnsOf WebcamStream schedule)%nat ->
  let r := upload env sb wb (Some opts) schedule w0 in
  r.1 = Ok tt /\
  match returned r.2 with
  | Some (Ok _) =>
      state r.2 = completed /\
      screenWalk r.2 = Fulfilled /\ webcamWalk r.2 = Fulfilled
  | Some (Throw _) => state r.2 = error
  | Some Hang => state r.2 = completing
  | None => False
  end.
Proof.
  intros Hduration Hposition Hinit HC Hsb Hwb Hscreen Hwebcam r. subst r.
  destruct (uploadStreamChunks_lively ScreenStream (network env) sb
              (init_recordingId init) (init_chunkSize init) HC Hsb)
    as (screenSteps & Hss & Hsl & Hsn).
  destruct (uploadStreamChunks_lively WebcamStream (network env) wb
              (init_recordingId init) (init_chunkSize init) HC Hwb)
    as (webcamSteps & Hws & Hwl & Hwn).
  destruct (launch_started env sb wb opts position init screenSteps webcamSteps w0)
    as (Hl1 & Hl2 & Hl3 & Hl4); [lia|assumption|assumption|assumption|assumption|].
  rewrite upload_run, Hl1.
  set (w1 := (launch env sb wb (Some opts) w0).2) in *.
  rewrite <- Hl2 in Hsl, Hsn. rewrite <- Hl3 in Hwl, Hwn.
  destruct (run_turns env (init_recordingId init) sb wb schedule w1 Hsl Hwl)
    as (Hs & Hw & Hps & Hpw).
  pose proof (run_settles env (init_recordingId init) sb wb (trace w0) schedule
                w1 Hl4) as (t & _ & Hinv).
  split; [apply run_ok|].
  set (w2 := (run env (init_recordingId init) sb wb schedule w1).2) in *.
  destruct (returned w2) as [[ret|message|]|].
  - destruct Hinv as (Hstate & _ & Hfs & Hfw). auto.
  - destruct Hinv as [Hstate _]. exact Hstate.
  - destruct Hinv as [Hstate _]. exact Hstate.
  - destruct Hinv as (_ & _ & _ & Hrs & Hrw & Hf).
    destruct (screenWalk w2) as [[|s1 l1]| |], (webcamWalk w2) as [[|s2 l2]| |];
      cbn in *; try discriminate; try lia;
      try (exfalso; apply (proj1 Hs); reflexivity);
      try (exfalso; apply (proj1 Hw); reflexivity).
Qed.

Lemma dual_upload_leaves_uploading_witness :
  let r := upload (dualBackend healthyNetwork) (mkBlob 0 20) (mkBlob 0 8)
             dualOptions [ScreenStream; WebcamStream; ScreenStream; ScreenStream]
             useDualUpload in
  r.1 = Ok tt /\ state r.2 = completed.
Proof.
  pose proof (dual_upload_leaves_uploading (dualBackend healthyNetwork)
                (mkBlob 0 20) (mkBlob 0 8)
                (mkOptions 12 (Some (mkPosition 60 60))) (mkPosition 60 60)
                (mkInit "rec" 8)
                [ScreenStream; WebcamStream; ScreenStream; ScreenStream]
                useDualUpload) as H.
  destruct H as [H1 H2];
    [cbn; lia|reflexivity|reflexivity|cbn; lia|cbn; lia|cbn; lia
    |vm_compute; lia|vm_compute; lia|].
  split; [exact H1|].
  change (returned
            (upload (dualBackend healthyNetwork) (mkBlob 0 20) (mkBlob 0 8)
               (Some (mkOptions 12 (Some (mkPosition 60 60))))
               [ScreenStream; WebcamStream; ScreenStream; ScreenStream]
               useDualUpload).2)
    with (Some (@Ok DualReturn ("rec", Some "https://playback", 28))) in H2.
  destruct H2 as [H2 _]. exact H2.
Defined.

(** X16.  [useDualUpload.upload] called without options, with a duration
    of 0 or without a webcam position rejects before its [try] block: the
    state, the error message, the progress, the identity and the playback
    reference of the hook are what they were, nothing is recorded in the
    trace (no state change, no backend call, no [onError]) and no walk is
    started, whatever the event loop does afterwards. *)
Theorem dual_upload_rejects_missing_options env sb wb options schedule w0 :
  options = None \/
  (exists opts, options = Some opts /\
                (duration opts = 0 \/ webcamPosition opts = None)) ->
  let r := upload env sb wb options schedule w0 in
  (returned r.2 = Some (Throw "duration is required") \/
   returned r.2 = Some (Throw "webcamPosition is required")) /\
  state r.2 = state w0 /\ errorMessage r.2 = errorMessage w0 /\
  progress r.2 = progress w0 /\ recordingId r.2 = recordingId w0 /\
  playbackUrl r.2 = playbackUrl w0 /\ trace r.2 = trace w0 /\
  screenWalk r.2 = Pending [] /\ webcamWalk r.2 = Pending [].
Proof.
  destruct w0 as [st pr err rid url tr sw ww ret].
  intros Hbad r. subst r. unfold upload, launch.
  destruct Hbad as [->|(opts & -> & Hbad)]; [run_dual; auto 10|].
  destruct (Z.eqb_spec (duration opts) 0) as [Hzero|Hnonzero];
    [run_dual; auto 10|].
  destruct Hbad as [Hzero|Hposition]; [contradiction|].
  rewrite Hposition. run_dual. auto 10.
Qed.

Lemma dual_upload_rejects_missing_options_witness :
  let r := upload (dualBackend healthyNetwork) (mkBlob 0 20) (mkBlob 0 8)
             (Some (mkOptions 0 (Some (mkPosition 60 60))))
             [ScreenStream; WebcamStream] useDualUpload in
  state r.2 = idle /\ trace r.2 = [].
Proof.
  destruct (dual_upload_rejects_missing_options (dualBackend healthyNetwork)
              (mkBlob 0 20) (mkBlob 0 8)
              (Some (mkOptions 0 (Some (mkPosition 60 60))))
              [ScreenStream; WebcamStream] useDualUpload)
    as (_ & H1 & _ & _ & _ & _ & H2 & _).
  - right. eexists. split; [reflexivity|]. left. reflexivity.
  - split; [exact H1|exact H2].
Defined.

(** X17.  [webcamPositionToApiFormat] returns a code that names the
    quadrant of the position and nothing else: 0 exactly for the top left
    ([x < 50], [y < 50]), 25 for the top right, 50 for the bottom left and
    100 for the bottom right; so two positions get the same code exactly
    when they lie in the same quadrant. *)
Theorem webcam_code_names_quadrant (p q : WebcamPosition) :
  (webcamPositionToApiFormat p = 0 <-> pos_x p < 50 /\ pos_y p < 50) /\
  (webcamPositionToApiFormat p = 25 <-> 50 <= pos_x p /\ pos_y p < 50) /\
  (webcamPositionToApiFormat p = 50 <-> pos_x p < 50 /\ 50 <= pos_y p) /\
  (webcamPositionToApiFormat p = 100 <-> 50 <= pos_x p /\ 50 <= pos_y p) /\
  (webcamPositionToApiFormat p = webcamPositionToApiFormat q <->
   (pos_x p < 50 <-> pos_x q < 50) /\ (pos_y p < 50 <-> pos_y q < 50)).
Proof.
  unfold webcamPositionToApiFormat.
  destruct (Z.ltb_spec (pos_x p) 50), (Z.ltb_spec (pos_y p) 50),
    (Z.leb_spec 50 (pos_x p)), (Z.leb_spec 50 (pos_y p)),
    (Z.ltb_spec (pos_x q) 50), (Z.ltb_spec (pos_y q) 50),
    (Z.leb_spec 50 (pos_x q)), (Z.leb_spec 50 (pos_y q));
    cbn [andb]; try lia;
    repeat split; intros; try lia; try discriminate; try reflexivity.
Qed.

Lemma netOf_app t1 t2 : netOf (t1 ++ t2) = netOf t1 ++ netOf t2.
Proof. apply omap_app. Qed.

Lemma netOf_net stream effects :
  netOf (Net stream <$> effects) = (fun e => (stream, e)) <$> effects.
Proof. induction effects as [|e effects IH]; [reflexivity|]. cbn. f_equal. exact IH. Qed.

Lemma progressReportsOf_app t1 t2 :
  progressReportsOf (t1 ++ t2) = progressReportsOf t1 ++ progressReportsOf t2.
Proof. apply omap_app. Qed.

Lemma progressReportsOf_net stream effects :
  progressReportsOf (Net stream <$> effects) = [].
Proof. induction effects as [|e effects IH]; [reflexivity|exact IH]. Qed.

Ltac flight_events :=
  rewrite ?netOf_app, ?completionsOf_app, ?netOf_net, ?completionsOf_net,
    ?progressReportsOf_app, ?progressReportsOf_net;
  cbn [netOf completionsOf progressReportsOf omap list_omap app];
  rewrite ?app_nil_r.

Lemma advance_sameFlight stream totalSize w w' :
  sameFlight w w' ->
  sameFlight (advance stream totalSize w).2 (advance stream totalSize w').2.
Proof.
  destruct w as [st pr err rid url tr sw ww ret].
  destruct w' as [st' pr' err' rid' url' tr' sw' ww' ret'].
  unfold sameFlight. cbn [screenWalk webcamWalk returned trace].
  intros (<- & <- & <- & Hnet & Hcompl).
  unfold advance. destruct stream; cbn [walkOf screenWalk webcamWalk].
  - destruct sw as [[|step steps]| |]; cbn [snd screenWalk webcamWalk returned trace];
      auto.
    destruct (step_outcome step) as [result|message|];
      [|run_dual; flight_events; rewrite Hnet, Hcompl; auto
       |cbn [snd screenWalk webcamWalk returned trace]; auto].
    run_dual. destruct pr, pr'; run_dual; flight_events;
      rewrite Hnet, Hcompl; auto.
  - destruct ww as [[|step steps]| |]; cbn [snd screenWalk webcamWalk returned trace];
      auto.
    destruct (step_outcome step) as [result|message|];
      [|run_dual; flight_events; rewrite Hnet, Hcompl; auto
       |cbn [snd screenWalk webcamWalk returned trace]; auto].
    run_dual. destruct pr, pr'; run_dual; flight_events;
      rewrite Hnet, Hcompl; auto.
Qed.

Lemma joinAll_sameFlight env id w w' :
  sameFlight w w' -> sameFlight (joinAll env id w).2 (joinAll env id w').2.
Proof.
  destruct w as [st pr err rid url tr sw ww ret].
  destruct w' as [st' pr' err' rid' url' tr' sw' ww' ret'].
  unfold sameFlight. cbn [screenWalk webcamWalk returned trace].
  intros (<- & <- & <- & Hnet & Hcompl).
  unfold joinAll, afterAll. cbn [returned screenWalk webcamWalk].
  destruct ret as [o|]; [cbn; auto|].
  destruct sw as [steps| |message], ww as [steps'| |message'];
    try (cbn; auto; fail);
    try (run_dual; flight_events; rewrite Hnet, Hcompl; auto; fail).
  run_dual.
  destruct (completeDualUpload env id) as [result|message|]; run_dual;
    [destruct (truthy (dc_playbackUrl result)); run_dual| |];
    flight_events; rewrite Hnet, Hcompl; auto.
Qed.

Lemma run_sameFlight env id sb wb schedule : forall w w',
  sameFlight w w' ->
  sameFlight (run env id sb wb schedule w).2 (run env id sb wb schedule w').2.
Proof.
  induction schedule as [|stream schedule IH]; intros w w' H; [exact H|].
  rewrite !run_cons. apply IH, joinAll_sameFlight, advance_sameFlight, H.
Qed.

(** Without a progress to update, a turn reports none. *)
Lemma advance_quiet stream totalSize w :
  progress w = None ->
  progress (advance stream totalSize w).2 = None /\
  progressReportsOf (trace (advance stream totalSize w).2)
  = progressReportsOf (trace w).
Proof.
  destruct w as [st pr err rid url tr sw ww ret]. cbn [progress]. intros ->.
  unfold advance. destruct stream; cbn [walkOf screenWalk webcamWalk].
  - destruct sw as [[|step steps]| |]; cbn; auto.
    destruct (step_outcome step); run_dual; flight_events; auto.
  - destruct ww as [[|step steps]| |]; cbn; auto.
    destruct (step_outcome step); run_dual; flight_events; auto.
Qed.

Lemma joinAll_quiet env id w :
  progress (joinAll env id w).2 = progress w /\
  progressReportsOf (trace (joinAll env id w).2) = progressReportsOf (trace w).
Proof.
  destruct w as [st pr err rid url tr sw ww ret].
  unfold joinAll, afterAll. cbn [returned screenWalk webcamWalk].
  destruct ret as [o|]; [cbn; auto|].
  destruct sw as [steps| |message], ww as [steps'| |message'];
    try (cbn; auto; fail); try (run_dual; flight_events; auto; fail).
  run_dual.
  destruct (completeDualUpload env id) as [result|message|]; run_dual;
    [destruct (truthy (dc_playbackUrl result)); run_dual| |];
    flight_events; auto.
Qed.

Lemma run_quiet env id sb wb schedule : forall w,
  progress w = None ->
  progress (run env id sb wb schedule w).2 = None /\
  progressReportsOf (trace (run env id sb wb schedule w).2)
  = progressReportsOf (trace w).
Proof.
  induction schedule as [|stream schedule IH]; intros w Hw; [auto|].
  rewrite run_cons.
  destruct (advance_quiet stream (sizeOf stream sb wb) w Hw) as [Hp Hr].
  destruct (joinAll_quiet env id (advance stream (sizeOf stream sb wb) w).2)
    as [Hp' Hr'].
  destruct (IH (joinAll env id (advance stream (sizeOf stream sb wb) w).2).2)
    as [Hp2 Hr2]; [congruence|].
  split; [exact Hp2|congruence].
Qed.

(** X21.  [reset] of [useDualUpload] does not cancel a running upload.
    It sets [idle] and clears the progress, the error, the identity and
    the playback reference, but the walks go on: however the event loop
    resumes them afterwards, the same [PUT]s are made and the same
    completion calls as without the [reset], and the promise returned by
    [upload] settles in the same way.  Only the progress is lost: it stays
    null and [onProgress] is not called again. *)
Theorem dual_reset_does_not_cancel env id sb wb schedule w :
  let w1 := (reset w).2 in
  let r := (run env id sb wb schedule w).2 in
  let r1 := (run env id sb wb schedule w1).2 in
  (state w1 = idle /\ progress w1 = None /\ errorMessage w1 = None /\
   recordingId w1 = None /\ playbackUrl w1 = None) /\
  (returned r1 = returned r /\
   screenWalk r1 = screenWalk r /\ webcamWalk r1 = webcamWalk r /\
   netOf (trace r1) = netOf (trace r) /\
   completionsOf (trace r1) = completionsOf (trace r)) /\
  (progress r1 = None /\
   progressReportsOf (trace r1) = progressReportsOf (trace w)).
Proof.
  intros w1 r r1.
  assert (Hreset : sameFlight w w1 /\ progress w1 = None /\
                   progressReportsOf (trace w1) = progressReportsOf (trace w)).
  { subst w1. destruct w as [st pr err rid url tr sw ww ret].
    unfold reset, sameFlight. run_dual. flight_events. auto 10. }
  destruct Hreset as (Hflight & Hnone & Hreports).
  split; [|split].
  - subst w1. destruct w as [st pr err rid url tr sw ww ret].
    unfold reset. run_dual. auto.
  - pose proof (run_sameFlight env id sb wb schedule w w1 Hflight)
      as (Hs & Hw & Hr & Hn & Hc).
    subst r r1. auto.
  - destruct (run_quiet env id sb wb schedule w1 Hnone) as [Hp Hq].
    subst r1. split; [exact Hp|congruence].
Qed.

End DualLiveness.

(** ** A permanent failure of a stream's transport *)

Module DualFailure.

Import Dual.
Import DualProofs.
Import DualLiveness.

(** With the default budget a transport call returns the result of an
    accepted [PUT] among its three, and throws when all three failed. *)
Lemma default_outcome net call fallback :
  match (putWithRetry net call ArgUndefined fallback).1 with
  | Ok result => exists a, 0 <= a < 3 /\ net call a = Accepted result
  | Throw _ => forall a, 0 <= a < 3 -> exists m, net call a = Failed m
  | Hang => False
  end.
Proof.
  rewrite putWithRetry_default.
  destruct (net call 0) as [r0|m0] eqn:H0; [exists 0; split; [lia|exact H0]|].
  destruct (net call 1) as [r1|m1] eqn:H1; [exists 1; split; [lia|exact H1]|].
  destruct (net call 2) as [r2|m2] eqn:H2; [exists 2; split; [lia|exact H2]|].
  cbn. intros a Ha.
  assert (Hcases : a = 0 \/ a = 1 \/ a = 2) by lia.
  destruct Hcases as [->|[->| ->]]; eauto.
Qed.

Lemma uploadFnOf_outcome stream net id chunks chunkSize totalSize i :
  match (uploadFnOf stream net id chunks chunkSize totalSize i).1 with
  | Ok result =>
      exists a, 0 <= a < 3 /\
        net (streamCall stream chunks totalSize id chunkSize i) a = Accepted result
  | Throw _ =>
      forall a, 0 <= a < 3 ->
        exists m, net (streamCall stream chunks totalSize id chunkSize i) a = Failed m
  | Hang => False
  end.
Proof. destruct stream; apply default_outcome. Qed.

(** A walk that reaches a chunk whose transport throws, or an earlier one,
    ends with a throwing iteration. *)
Lemma chunkWalk_fails uploadFn first i :
  (forall j, (uploadFn j).1 <> Hang) ->
  (forall j result,
     first <= j < i -> (uploadFn j).1 = Ok result -> done result = false) ->
  (exists m, (uploadFn i).1 = Throw m) ->
  forall remaining k,
    first <= k -> k <= i < k + Z.of_nat remaining ->
    exists pre step m,
      chunkWalk uploadFn remaining k = pre ++ [step] /\
      step_outcome step = Throw m /\
      (length pre <= Z.to_nat (i - k))%nat.
Proof.
  intros Hsettles Hmore [m Hthrow].
  induction remaining as [|remaining IH]; intros k Hfirst Hk; [lia|].
  cbn [chunkWalk]. pose proof (Hsettles k) as Hk1.
  pose proof (Hmore k) as Hk2.
  destruct (uploadFn k) as [outcome effects] eqn:Hfn. cbn [fst] in Hk1, Hk2.
  destruct outcome as [result|message|]; [| |contradiction].
  - assert (Hlt : k < i).
    { destruct (Z.eq_dec k i) as [->|]; [|lia].
      rewrite Hfn in Hthrow. discriminate. }
    rewrite (Hk2 result ltac:(lia) eq_refl).
    destruct (IH (k + 1) ltac:(lia) ltac:(lia))
      as (pre & step & m' & -> & Hout & Hlen).
    exists (mkStep k effects (Ok result) :: pre), step, m'.
    split; [reflexivity|]. split; [exact Hout|]. cbn [length]. lia.
  - exists [], (mkStep k effects (Throw message)), message.
    split; [reflexivity|]. split; [reflexivity|]. cbn. lia.
Qed.

(** C7.  In a dual upload session that was granted, let the chunk
    transport of a stream fail permanently: the three [PUT]s of one of its
    chunks fail, and no acknowledgment of an earlier chunk of the stream
    ended its walk with [done].  Then, however the turns of the two streams
    are interleaved and whatever the other stream has uploaded, the session
    is never [completed]: the walk of the stream never returns, [completed]
    is never set, the completion call is never made, and the session is in
    [uploading] or in [error].  And once the event loop has given the
    stream a turn for this chunk and each chunk before it, the walk of the
    stream has rejected, [upload] has rejected and the session is in
    [error]. *)
Theorem stream_failure_fails_session
    env sb wb opts position init stream chunks i schedule w0 :
  let id := init_recordingId init in
  let chunkSize := init_chunkSize init in
  let blob := match stream with ScreenStream => sb | WebcamStream => wb end in
  let callOf := streamCall stream chunks (size blob) id chunkSize in
  duration opts <> 0 ->
  webcamPosition opts = Some position ->
  initDualUpload env (size sb) (size wb) (webcamPositionToApiFormat position)
    (duration opts) = Ok init ->
  0 < chunkSize -> 0 <= size sb -> 0 <= size wb ->
  slicedChunks blob chunkSize = Some chunks ->
  0 <= i < Z.of_nat (length chunks) ->
  (forall j a result,
     0 <= j < i -> 0 <= a < 3 ->
     network env (callOf j) a = Accepted result -> done result = false) ->
  (forall a, 0 <= a < 3 -> exists m, network env (callOf i) a = Failed m) ->
  let r := upload env sb wb (Some opts) schedule w0 in
  r.1 = Ok tt /\
  (exists t,
     trace r.2 = trace w0 ++ t /\ (completed ∉ statesOf t) /\
     completionsOf t = []) /\
  walkOf stream r.2 <> Fulfilled /\
  (forall ret, returned r.2 <> Some (Ok ret)) /\
  (state r.2 = uploading \/ state r.2 = error) /\
  ((Z.to_nat i < turnsOf stream schedule)%nat ->
   state r.2 = error /\
   (exists m, returned r.2 = Some (Throw m)) /\
   (exists m, walkOf stream r.2 = Rejected m)).
Proof.
  intros id chunkSize blob callOf Hduration Hposition Hinit HC Hsb Hwb Hchunks
    Hi Hmore Hfail r. subst r.
  destruct (uploadStreamChunks_lively ScreenStream (network env) sb id chunkSize
              HC Hsb) as (screenSteps & Hss & Hsl & _).
  destruct (uploadStreamChunks_lively WebcamStream (network env) wb id chunkSize
              HC Hwb) as (webcamSteps & Hws & Hwl & _).
  set (steps := match stream with
                | ScreenStream => screenSteps
                | WebcamStream => webcamSteps
                end).
  assert (Hsteps : uploadStreamChunks stream (network env) blob id chunkSize
                   = Some steps).
  { subst steps blob. destruct stream; assumption. }
  (* the walk of the stream ends with a throwing iteration *)
  assert (Hwalk : exists pre step m,
            steps = pre ++ [step] /\ step_outcome step = Throw m /\
            (length pre <= Z.to_nat i)%nat).
  { unfold uploadStreamChunks in Hsteps. rewrite Hchunks in Hsteps.
    cbn [mbind option_bind] in Hsteps. injection Hsteps as <-.
    replace (Z.to_nat i) with (Z.to_nat (i - 0)) by lia.
    apply (chunkWalk_fails _ 0).
    - intros j Hhang.
      pose proof (uploadFnOf_outcome stream (network env) id chunks chunkSize
                    (size blob) j) as Hout.
      rewrite Hhang in Hout. exact Hout.
    - intros j result Hj Hok.
      pose proof (uploadFnOf_outcome stream (network env) id chunks chunkSize
                    (size blob) j) as Hout.
      rewrite Hok in Hout. destruct Hout as (a & Ha & Hnet).
      apply (Hmore j a result); [lia|exact Ha|exact Hnet].
    - pose proof (uploadFnOf_outcome stream (network env) id chunks chunkSize
                    (size blob) i) as Hout.
      destruct (uploadFnOf stream (network env) id chunks chunkSize (size blob) i).1
        as [result|m|] eqn:Hfn; [|eauto|contradiction].
      destruct Hout as (a & Ha & Hnet). destruct (Hfail a Ha) as [m Hm].
      fold callOf in Hnet. congruence.
    - lia.
    - unfold iterationsFrom. lia. }
  destruct Hwalk as (pre & step & m & Hsplit & Hthrow & Hlen).
  destruct (launch_started env sb wb opts position init screenSteps webcamSteps w0)
    as (Hl1 & Hl2 & Hl3 & Hl4); [lia|assumption|assumption|assumption|assumption|].
  rewrite upload_run, Hl1.
  set (w1 := (launch env sb wb (Some opts) w0).2) in *.
  fold id in Hl4 |- *.
  assert (Hprogressed : walkProgressed steps (walkOf stream w1)).
  { subst steps. destruct stream; cbn [walkOf]; [rewrite Hl2|rewrite Hl3];
      apply promiseOf_progressed. }
  apply (run_progressed env id sb wb schedule stream steps w1) in Hprogressed.
  pose proof (run_settles env id sb wb (trace w0) schedule w1 Hl4) as Hinv.
  set (w2 := (run env id sb wb schedule w1).2) in *.
  assert (Hnever : walkOf stream w2 <> Fulfilled).
  { intros Hf. rewrite Hf in Hprogressed. cbn in Hprogressed.
    rewrite Hsplit in Hprogressed.
    apply Forall_app in Hprogressed as [_ Hlast].
    apply Forall_cons in Hlast as [[result Hok] _]. congruence. }
  assert (Hpair : ~ (screenWalk w2 = Fulfilled /\ webcamWalk w2 = Fulfilled)).
  { intros [Hs Hw]. apply Hnever. destruct stream; assumption. }
  split; [apply run_ok|].
  destruct Hinv as (t & Ht & Hcase).
  assert (Hsafe : (completed ∉ statesOf t) /\ completionsOf t = [] /\
                  (forall ret, returned w2 <> Some (Ok ret)) /\
                  (state w2 = uploading \/ state w2 = error) /\
                  ((exists m', walkOf stream w2 = Rejected m') ->
                   state w2 = error /\ exists m', returned w2 = Some (Throw m'))).
  { destruct (returned w2) as [[ret|m'|]|].
    - destruct Hcase as (_ & _ & Hs & Hw). exfalso. apply Hpair. auto.
    - destruct Hcase as (Hstate & Hnot & [[Hc _]|(_ & Hs & Hw)]);
        [|exfalso; apply Hpair; auto].
      split; [exact Hnot|]. split; [exact Hc|]. split; [discriminate|].
      split; [auto|]. intros _. split; [exact Hstate|eauto].
    - destruct Hcase as (_ & _ & _ & Hs & Hw). exfalso. apply Hpair. auto.
    - destruct Hcase as (Hstate & Hc & Hnot & Hrs & Hrw & _).
      split; [exact Hnot|]. split; [exact Hc|]. split; [discriminate|].
      split; [auto|]. intros [m' Hrej]. exfalso.
      destruct stream; cbn [walkOf] in Hrej; rewrite Hrej in *; discriminate. }
  destruct Hsafe as (Hnot & Hc & Hret & Hstate & Hrejected).
  split; [eauto|]. split; [exact Hnever|]. split; [exact Hret|].
  split; [exact Hstate|]. intros Hturns.
  assert (Hrej : exists m', walkOf stream w2 = Rejected m').
  { rewrite <- Hl2 in Hsl. rewrite <- Hl3 in Hwl.
    destruct (run_turns env id sb wb schedule w1 Hsl Hwl)
      as (Hs & Hw & Hps & Hpw).
    fold w2 in Hs, Hw, Hps, Hpw.
    assert (Hpending : (pendingSteps (walkOf stream w1) <= S (Z.to_nat i))%nat).
    { assert (Hle : (pendingSteps (promiseOf steps) <= length steps)%nat).
      { destruct steps; cbn; lia. }
      rewrite Hsplit, length_app in Hle. cbn [length] in Hle.
      subst steps. destruct stream; cbn [walkOf]; [rewrite Hl2|rewrite Hl3];
        rewrite Hsplit; lia. }
    assert (Hdone : lively (walkOf stream w2) /\
                    pendingSteps (walkOf stream w2) = 0%nat).
    { destruct stream; cbn [walkOf] in *; split; try assumption; lia. }
    destruct Hdone as [Hlive Hzero].
    destruct (walkOf stream w2) as [rest| |m'].
    - destruct rest; [exfalso; apply (proj1 Hlive); reflexivity|discriminate].
    - contradiction.
    - eauto. }
  destruct (Hrejected Hrej) as [Herror Hthrown]. auto.
Qed.

(** Witness for C7.  Scenario C: the webcam stream has uploaded its only
    chunk, then the second chunk of the screen stream fails three times.
    And a network on which the first chunk of the webcam stream fails
    while the screen stream is still uploading. *)
Lemma stream_failure_fails_session_witness :
  state (upload (dualBackend scenarioCNetwork) (mkBlob 0 20) (mkBlob 0 8)
           dualOptions [WebcamStream; ScreenStream; ScreenStream] useDualUpload).2
  = error /\
  state (upload (dualBackend webcamFailingNetwork) (mkBlob 0 20) (mkBlob 0 8)
           dualOptions [ScreenStream; WebcamStream] useDualUpload).2
  = error.
Proof.
  split.
  - destruct (stream_failure_fails_session (dualBackend scenarioCNetwork)
                (mkBlob 0 20) (mkBlob 0 8)
                (mkOptions 12 (Some (mkPosition 60 60))) (mkPosition 60 60)
                (mkInit "rec" 8) ScreenStream
                [mkBlob 0 8; mkBlob 8 8; mkBlob 16 4] 1
                [WebcamStream; ScreenStream; ScreenStream] useDualUpload)
      as (_ & _ & _ & _ & _ & H).
    + cbn; lia.
    + reflexivity.
    + reflexivity.
    + cbn; lia.
    + cbn; lia.
    + cbn; lia.
    + reflexivity.
    + cbn; lia.
    + intros j a result Hj Ha. assert (j = 0) as -> by lia.
      cbn. intros [= <-]. reflexivity.
    + intros a Ha. eexists. reflexivity.
    + apply H. cbn; lia.
  - destruct (stream_failure_fails_session (dualBackend webcamFailingNetwork)
                (mkBlob 0 20) (mkBlob 0 8)
                (mkOptions 12 (Some (mkPosition 60 60))) (mkPosition 60 60)
                (mkInit "rec" 8) WebcamStream [mkBlob 0 8] 0
                [ScreenStream; WebcamStream] useDualUpload)
      as (_ & _ & _ & _ & _ & H).
    + cbn; lia.
    + reflexivity.
    + reflexivity.
    + cbn; lia.
    + cbn; lia.
    + cbn; lia.
    + reflexivity.
    + cbn; lia.
    + intros j a result Hj. lia.
    + intros a Ha. eexists. reflexivity.
    + apply H. cbn; lia.
Defined.

End DualFailure.

(** ** Forgetting a session *)

(** X23.  [reset] of [useResumableUpload] forgets the session for good: it
    sets [idle], clears the progress, the error, the identity and the
    playback reference and removes the stored identity, whatever the store
    held, so that a hook mounted afterwards starts in [idle] without an
    identity to resume; the other entries of the store are untouched. *)
Theorem reset_forgets_stored_session (w : World) :
  let r := reset w in
  let next := useResumableUpload (sessionStorage r.2) in
  r.1 = Ok tt /\
  hook r.2 = mkHook idle None None None None /\
  sessionStorage r.2 !! SESSION_STORAGE_KEY = None /\
  (forall key, key <> SESSION_STORAGE_KEY ->
     sessionStorage r.2 !! key = sessionStorage w !! key) /\
  trace r.2 = trace w ++ [SetState idle; ClearRecordingId] /\
  state (hook next) = idle /\ recordingId (hook next) = None.
Proof.
  intros r next. subst r next. destruct w as [[st pr err rid url] storage t].
  unfold reset, useResumableUpload. run_session.
  rewrite lookup_delete_eq, <- !app_assoc.
  split; [reflexivity|]. split; [reflexivity|]. split; [reflexivity|].
  split; [intros key Hkey; apply lookup_delete_ne; congruence|].
  auto.
Qed.
